(** * QuEST_common.c: the hardware-agnostic layer of QuEST

    A shallow embedding of [QuEST/src/QuEST_common.c] and proofs about it.

    Conventions of the embedding.
    - [qreal] is the type [R] of real numbers: arithmetic is exact, the
      rounding of the C floating-point type is not modelled.
    - [int] and [long long int] are [Z]; the operations on [long long int]
      masks wrap around at 64 bits (two's complement).
    - A C array with its length argument is a list with the length passed
      separately, as the C function receives it; [for] loops run over
      [0 .. n-1] and read the array by index.
    - A [Qureg] is passed by value but carries a pointer to its amplitudes:
      the record holds the address of the amplitude array in a store.
    - A [ComplexMatrixN] is its array of rows where every row is an array
      of its own; where the code makes row pointers share an array
      ([densmatr_applyTwoQubitKrausMap]) it is the array of row pointers
      with the arrays they point to ([RowMemory]).
    - The functions of the kernel (QuEST_cpu.c, QuEST_gpu.cu, ...) are not
      part of this file of the repository.  The code is written against
      the interface [GateKernel]/[QueryKernel]; two instances are given:
      one that logs the calls and one that gives the calls their meaning
      on arrays of amplitudes. *)

From Stdlib Require Import ZArith List Bool Reals Lra Lia.
Import ListNotations.

Local Open Scope Z_scope.

(** ** Numeric types *)

(** [qreal] is the type of real numbers. *)
Abbreviation qreal := R.

Record Complex : Type := mkComplex { real : qreal; imag : qreal }.

Record Vector : Type := mkVector { x : qreal; y : qreal; z : qreal }.

Record ComplexMatrix2 : Type := mkComplexMatrix2 {
  r0c0 : Complex; r0c1 : Complex;
  r1c0 : Complex; r1c1 : Complex
}.

Module M4.
Record ComplexMatrix4 : Type := mkComplexMatrix4 {
  r0c0 : Complex; r0c1 : Complex; r0c2 : Complex; r0c3 : Complex;
  r1c0 : Complex; r1c1 : Complex; r1c2 : Complex; r1c3 : Complex;
  r2c0 : Complex; r2c1 : Complex; r2c2 : Complex; r2c3 : Complex;
  r3c0 : Complex; r3c1 : Complex; r3c2 : Complex; r3c3 : Complex
}.
End M4.
Definition ComplexMatrix4 : Type := M4.ComplexMatrix4.

(** [ComplexMatrixN]: [elems] is an array of [numRows] rows. *)
Record ComplexMatrixN : Type := mkComplexMatrixN {
  numQubits : Z;
  numRows : Z;
  elems : list (list Complex)
}.

(** Modelled from the spec: the Pauli tag, one of Identity, X, Y, Z
    (QuEST.h, which declares [enum pauliOpType], is missing).  Its
    ordinal values are 0, 1, 2, 3, as the source relies on:
    "(targetPaulis[t] == 3) is Z basis". *)
Inductive pauliOpType : Type := PAULI_I | PAULI_X | PAULI_Y | PAULI_Z.

Definition pauli_code (p : pauliOpType) : Z :=
  match p with PAULI_I => 0 | PAULI_X => 1 | PAULI_Y => 2 | PAULI_Z => 3 end.

Definition pauli_eqb (p q : pauliOpType) : bool := pauli_code p =? pauli_code q.

(** The fields of [Qureg] this file uses.  [stateVec] is the address of
    the amplitude array: two [Qureg] values with the same [stateVec] share
    their amplitudes. *)
Record Qureg : Type := mkQureg {
  isDensityMatrix : bool;
  numQubitsRepresented : Z;
  numQubitsInStateVec : Z;
  stateVec : nat
}.

(** ** Integers, arrays and loops *)

(** 64-bit two's complement wrap-around of [long long int]. *)
Definition wrap_ll (v : Z) : Z := (v + 2 ^ 63) mod 2 ^ 64 - 2 ^ 63.

Definition ll_shl (a n : Z) : Z := wrap_ll (Z.shiftl a n).
Definition ll_sub (a b : Z) : Z := wrap_ll (a - b).
Definition ll_or (a b : Z) : Z := Z.lor a b.

(** [a[i]] for a C array held as a list; [d] stands for what an
    out-of-bounds read would give. *)
Definition arr_get {A : Type} (a : list A) (i : Z) (d : A) : A :=
  nth (Z.to_nat i) a d.

(** [for (int i=0; i<n; i++) body] over a state [S]. *)
Definition for_loop {S : Type} (n : Z) (body : Z -> S -> S) (s : S) : S :=
  fold_left (fun s i => body (Z.of_nat i) s) (seq 0 (Z.to_nat n)) s.

(** ** Numeric primitives *)

(* builds a bit-string where 1 indicates a qubit is present in this list *)
Definition getQubitBitMask (qubits : list Z) (numQubits : Z) : Z :=
  for_loop numQubits
    (fun i mask => ll_or mask (ll_shl 1 (arr_get qubits i 0))) 0.

(* builds a bit-string where 1 indicates control qubits conditioned on 0 *)
Definition getControlFlipMask (controlQubits controlState : list Z)
    (numControlQubits : Z) : Z :=
  for_loop numControlQubits
    (fun i mask =>
       if arr_get controlState i 0 =? 0
       then ll_or mask (ll_shl 1 (arr_get controlQubits i 0))
       else mask) 0.

Section RealFunctions.
Local Open Scope R_scope.

Definition getVectorMagnitude (vec : Vector) : qreal :=
  sqrt (x vec * x vec + y vec * y vec + z vec * z vec).

Definition getUnitVector (vec : Vector) : Vector :=
  let mag := getVectorMagnitude vec in
  mkVector (x vec / mag) (y vec / mag) (z vec / mag).

Definition getConjugateScalar (scalar : Complex) : Complex :=
  mkComplex (real scalar) (- imag scalar).

Definition getConjugateMatrix2 (matrix : ComplexMatrix2) : ComplexMatrix2 :=
  mkComplexMatrix2
    (getConjugateScalar (r0c0 matrix)) (getConjugateScalar (r0c1 matrix))
    (getConjugateScalar (r1c0 matrix)) (getConjugateScalar (r1c1 matrix)).

(** ** Rotation codec *)

Definition getComplexPairFromRotation (angle : qreal) (axis : Vector)
    : Complex * Complex :=
  let unitAxis := getUnitVector axis in
  let alpha := mkComplex (cos (angle / 2)) (- sin (angle / 2) * z unitAxis) in
  let beta := mkComplex (sin (angle / 2) * y unitAxis)
                        (- sin (angle / 2) * x unitAxis) in
  (alpha, beta).

(** [atan2] of the C library: the angle in (-PI, PI] of the point
    [(x, y)], and 0 at the origin. *)
Definition atan2 (yv xv : R) : R :=
  if Rlt_dec 0 xv then atan (yv / xv)
  else if Rlt_dec xv 0 then
         if Rle_dec 0 yv then atan (yv / xv) + PI else atan (yv / xv) - PI
  else if Rlt_dec 0 yv then PI / 2
  else if Rlt_dec yv 0 then - (PI / 2)
  else 0.

(* maps U(alpha, beta) to Rz(rz2) Ry(ry) Rz(rz1); returns (rz2, ry, rz1) *)
Definition getZYZRotAnglesFromComplexPair (alpha beta : Complex)
    : qreal * qreal * qreal :=
  let alphaMag := sqrt (real alpha * real alpha + imag alpha * imag alpha) in
  let ry := 2 * acos alphaMag in
  let alphaPhase := atan2 (imag alpha) (real alpha) in
  let betaPhase := atan2 (imag beta) (real beta) in
  let rz2 := - alphaPhase + betaPhase in
  let rz1 := - alphaPhase - betaPhase in
  (rz2, ry, rz1).

(* maps U(r0c0, r0c1, r1c0, r1c1) to exp(i globalPhase) U(alpha, beta);
   returns (alpha, beta, globalPhase) *)
Definition getComplexPairAndPhaseFromUnitary (u : ComplexMatrix2)
    : Complex * Complex * qreal :=
  let r0c0Phase := atan2 (imag (r0c0 u)) (real (r0c0 u)) in
  let r1c1Phase := atan2 (imag (r1c1 u)) (real (r1c1 u)) in
  let globalPhase := (r0c0Phase + r1c1Phase) / 2 in
  let cosPhase := cos globalPhase in
  let sinPhase := sin globalPhase in
  let alpha := mkComplex
    (real (r0c0 u) * cosPhase + imag (r0c0 u) * sinPhase)
    (imag (r0c0 u) * cosPhase - real (r0c0 u) * sinPhase) in
  let beta := mkComplex
    (real (r1c0 u) * cosPhase + imag (r1c0 u) * sinPhase)
    (imag (r1c0 u) * cosPhase - real (r1c0 u) * sinPhase) in
  (alpha, beta, globalPhase).

End RealFunctions.

(** ** Complex arithmetic *)

Section ComplexArithmetic.
Local Open Scope R_scope.

Definition czero : Complex := mkComplex 0 0.
Definition cone : Complex := mkComplex 1 0.
Definition cadd (a b : Complex) : Complex :=
  mkComplex (real a + real b) (imag a + imag b).
Definition cmul (a b : Complex) : Complex :=
  mkComplex (real a * real b - imag a * imag b)
            (real a * imag b + imag a * real b).
Definition copp (a : Complex) : Complex := mkComplex (- real a) (- imag a).
Definition cnorm2 (a : Complex) : R := real a * real a + imag a * imag a.
(** [exp(i phi)] *)
Definition cexpi (phi : R) : Complex := mkComplex (cos phi) (sin phi).

(* returns conj(a) * b *)
Definition getConjComplexProd (a b : Complex) : Complex :=
  mkComplex (real a * real b + imag a * imag b)
            (real a * imag b - imag a * real b).

(* adds conj(a)*b to dest; returns the new value of dest *)
Definition addConjComplexProd (dest a b : Complex) : Complex :=
  let prod := getConjComplexProd a b in
  mkComplex (real dest + real prod) (imag dest + imag prod).

End ComplexArithmetic.

(** ** Outcome sampler *)

Section OutcomeSampler.
Local Open Scope R_scope.

(** [REAL_EPS] (QuEST_precision.h) and the generator [genrand_real1]
    (mt19937ar.h) with its process-wide state are taken as parameters. *)
Variable REAL_EPS : qreal.
Variable RngState : Type.
Variable genrand_real1 : RngState -> qreal * RngState.

(** Returns the outcome, [*outcomeProb] and the state of the generator. *)
Definition generateMeasurementOutcome (zeroProb : qreal) (rng : RngState)
    : Z * qreal * RngState :=
  (* randomly choose outcome *)
  let '(outcome, rng) :=
    if Rlt_dec zeroProb REAL_EPS then (1%Z, rng)
    else if Rlt_dec (1 - zeroProb) REAL_EPS then (0%Z, rng)
    else let '(r, rng') := genrand_real1 rng in
         ((if Rgt_dec r zeroProb then 1%Z else 0%Z), rng') in
  (* set probability of outcome *)
  let outcomeProb := if (outcome =? 0)%Z then zeroProb else 1 - zeroProb in
  (outcome, outcomeProb, rng).

End OutcomeSampler.

(** ** The kernel interface *)

(** The primitives of the kernel that change the amplitudes, over a state
    [St] of the machine. *)
Class GateKernel (St : Type) : Type := {
  statevec_compactUnitary : Qureg -> Z -> Complex -> Complex -> St -> St;
  statevec_controlledCompactUnitary :
    Qureg -> Z -> Z -> Complex -> Complex -> St -> St;
  statevec_controlledUnitary : Qureg -> Z -> Z -> ComplexMatrix2 -> St -> St;
  statevec_controlledNot : Qureg -> Z -> Z -> St -> St;
  statevec_phaseShiftByTerm : Qureg -> Z -> Complex -> St -> St;
  statevec_pauliX : Qureg -> Z -> St -> St;
  statevec_pauliY : Qureg -> Z -> St -> St;
  statevec_multiRotateZ : Qureg -> Z -> qreal -> St -> St;
  statevec_multiControlledTwoQubitUnitary :
    Qureg -> Z -> Z -> Z -> ComplexMatrix4 -> St -> St;
  statevec_cloneQureg : Qureg -> Qureg -> St -> St
}.

(** The primitives of the kernel that read the amplitudes. *)
Class QueryKernel (St : Type) : Type := {
  statevec_calcInnerProduct : Qureg -> Qureg -> St -> Complex;
  densmatr_calcTotalProb : Qureg -> St -> qreal
}.

(** Sequencing of [void] calls. *)
Definition skip {St : Type} : St -> St := fun st => st.
Definition seqc {St : Type} (c1 c2 : St -> St) : St -> St :=
  fun st => c2 (c1 st).
Definition when {St : Type} (b : bool) (c : St -> St) : St -> St :=
  if b then c else skip.

Declare Scope cmd_scope.
Delimit Scope cmd_scope with cmd.
Notation "c1 ;; c2" := (seqc c1 c2)
  (at level 61, right associativity) : cmd_scope.

(** ** Gate composition layer *)

Section Gates.
Context {St : Type} `{GK : GateKernel St}.
Local Open Scope R_scope.
Local Open Scope cmd_scope.

Definition statevec_phaseShift (qureg : Qureg) (targetQubit : Z)
    (angle : qreal) : St -> St :=
  let term := mkComplex (cos angle) (sin angle) in
  statevec_phaseShiftByTerm qureg targetQubit term.

Definition statevec_pauliZ (qureg : Qureg) (targetQubit : Z) : St -> St :=
  let term := mkComplex (-1) 0 in
  statevec_phaseShiftByTerm qureg targetQubit term.

Definition statevec_sGate (qureg : Qureg) (targetQubit : Z) : St -> St :=
  let term := mkComplex 0 1 in
  statevec_phaseShiftByTerm qureg targetQubit term.

Definition statevec_tGate (qureg : Qureg) (targetQubit : Z) : St -> St :=
  let term := mkComplex (1 / sqrt 2) (1 / sqrt 2) in
  statevec_phaseShiftByTerm qureg targetQubit term.

Definition statevec_rotateAroundAxis (qureg : Qureg) (rotQubit : Z)
    (angle : qreal) (axis : Vector) : St -> St :=
  let '(alpha, beta) := getComplexPairFromRotation angle axis in
  statevec_compactUnitary qureg rotQubit alpha beta.

Definition statevec_rotateAroundAxisConj (qureg : Qureg) (rotQubit : Z)
    (angle : qreal) (axis : Vector) : St -> St :=
  let '(alpha, beta) := getComplexPairFromRotation angle axis in
  let alpha := mkComplex (real alpha) (imag alpha * -1) in
  let beta := mkComplex (real beta) (imag beta * -1) in
  statevec_compactUnitary qureg rotQubit alpha beta.

Definition statevec_rotateX (qureg : Qureg) (rotQubit : Z) (angle : qreal)
    : St -> St :=
  let unitAxis := mkVector 1 0 0 in
  statevec_rotateAroundAxis qureg rotQubit angle unitAxis.

Definition statevec_rotateY (qureg : Qureg) (rotQubit : Z) (angle : qreal)
    : St -> St :=
  let unitAxis := mkVector 0 1 0 in
  statevec_rotateAroundAxis qureg rotQubit angle unitAxis.

Definition statevec_rotateZ (qureg : Qureg) (rotQubit : Z) (angle : qreal)
    : St -> St :=
  let unitAxis := mkVector 0 0 1 in
  statevec_rotateAroundAxis qureg rotQubit angle unitAxis.

Definition statevec_sqrtSwapGate (qureg : Qureg) (qb1 qb2 : Z) : St -> St :=
  let u := mkComplexMatrix2
    (mkComplex (5/10) (5/10)) (mkComplex (5/10) (- (5/10)))
    (mkComplex (5/10) (- (5/10))) (mkComplex (5/10) (5/10)) in
  statevec_controlledNot qureg qb1 qb2 ;;
  statevec_controlledUnitary qureg qb2 qb1 u ;;
  statevec_controlledNot qureg qb1 qb2.

Definition statevec_sqrtSwapGateConj (qureg : Qureg) (qb1 qb2 : Z)
    : St -> St :=
  let u := mkComplexMatrix2
    (mkComplex (5/10) (- (5/10))) (mkComplex (5/10) (5/10))
    (mkComplex (5/10) (5/10)) (mkComplex (5/10) (- (5/10))) in
  statevec_controlledNot qureg qb1 qb2 ;;
  statevec_controlledUnitary qureg qb2 qb1 u ;;
  statevec_controlledNot qureg qb1 qb2.

(* applyConj=1 will apply conjugate operation, else applyConj=0 *)
Definition statevec_multiRotatePauli (qureg : Qureg) (targetQubits : list Z)
    (targetPaulis : list pauliOpType) (numTargets : Z) (angle : qreal)
    (applyConj : Z) : St -> St := fun st =>
  let fac := 1 / sqrt 2 in
  let uRxAlpha := mkComplex fac 0 in (* Rx(pi/2)* rotates Z -> Y *)
  let uRxBeta := mkComplex 0 (if (applyConj =? 0)%Z then - fac else fac) in
  let uRyAlpha := mkComplex fac 0 in (* Ry(pi/2) rotates Z -> X *)
  let uRyBeta := mkComplex fac 0 in
  (* mask may be modified to remove superfluous Identity ops *)
  let mask := getQubitBitMask targetQubits numTargets in
  (* rotate basis so that exp(Z) will effect exp(Y) and exp(X) *)
  let '(mask, st) :=
    for_loop numTargets (fun t '(mask, st) =>
      let p := arr_get targetPaulis t PAULI_I in
      let q := arr_get targetQubits t 0%Z in
      let mask :=
        if pauli_eqb p PAULI_I
        then ll_sub mask (ll_shl 1 (pauli_code p)) (* remove target from mask *)
        else mask in
      let st :=
        when (pauli_eqb p PAULI_X)
          (statevec_compactUnitary qureg q uRyAlpha uRyBeta) st in
      let st :=
        when (pauli_eqb p PAULI_Y)
          (statevec_compactUnitary qureg q uRxAlpha uRxBeta) st in
      (mask, st)) (mask, st) in
  let st :=
    statevec_multiRotateZ qureg mask
      (if (applyConj =? 0)%Z then angle else - angle) st in
  (* undo X and Y basis rotations *)
  let uRxBeta := mkComplex (real uRxBeta) (imag uRxBeta * -1) in
  let uRyBeta := mkComplex (real uRyBeta * -1) (imag uRyBeta) in
  for_loop numTargets (fun t st =>
    let p := arr_get targetPaulis t PAULI_I in
    let q := arr_get targetQubits t 0%Z in
    let st :=
      when (pauli_eqb p PAULI_X)
        (statevec_compactUnitary qureg q uRyAlpha uRyBeta) st in
    when (pauli_eqb p PAULI_Y)
      (statevec_compactUnitary qureg q uRxAlpha uRxBeta) st) st.

Definition statevec_twoQubitUnitary (qureg : Qureg)
    (targetQubit1 targetQubit2 : Z) (u : ComplexMatrix4) : St -> St :=
  let ctrlMask := 0%Z in
  statevec_multiControlledTwoQubitUnitary qureg ctrlMask
    targetQubit1 targetQubit2 u.

Definition statevec_controlledTwoQubitUnitary (qureg : Qureg)
    (controlQubit targetQubit1 targetQubit2 : Z) (u : ComplexMatrix4)
    : St -> St :=
  let ctrlMask := ll_shl 1 controlQubit in
  statevec_multiControlledTwoQubitUnitary qureg ctrlMask
    targetQubit1 targetQubit2 u.

(** ** Pauli expectation evaluator *)

Context `{QK : QueryKernel St}.

(* <pauli> = <qureg|pauli|qureg> = qureg . pauli(qureg) *)
Definition statevec_calcExpecValProd (qureg : Qureg) (targetQubits : list Z)
    (pauliCodes : list pauliOpType) (numTargets : Z) (workspace : Qureg)
    (st : St) : qreal * St :=
  let st := statevec_cloneQureg workspace qureg st in
  (* produces both pauli|qureg> or pauli * qureg (as a density matrix) *)
  let st :=
    for_loop numTargets (fun i =>
      let p := arr_get pauliCodes i PAULI_I in
      let q := arr_get targetQubits i 0%Z in
      (* (pauliCodes[i] == PAULI_I) applies no operation *)
      when (pauli_eqb p PAULI_X) (statevec_pauliX workspace q) ;;
      when (pauli_eqb p PAULI_Y) (statevec_pauliY workspace q) ;;
      when (pauli_eqb p PAULI_Z) (statevec_pauliZ workspace q)) st in
  (* compute the expected value *)
  let value :=
    if isDensityMatrix qureg
    then densmatr_calcTotalProb workspace st (* Trace(ops qureg) *)
    else real (statevec_calcInnerProduct workspace qureg st) in
  (value, st).

Definition statevec_calcExpecValSum (qureg : Qureg)
    (allCodes : list pauliOpType) (termCoeffs : list qreal)
    (numSumTerms : Z) (workspace : Qureg) (st : St) : qreal * St :=
  let numQb := numQubitsRepresented qureg in
  let targs := map Z.of_nat (seq 0 (Z.to_nat numQb)) in
  for_loop numSumTerms (fun t '(value, st) =>
    let '(v, st) :=
      statevec_calcExpecValProd qureg targs
        (skipn (Z.to_nat (t * numQb)) allCodes) numQb workspace st in
    (value + arr_get termCoeffs t 0 * v, st)) (0, st).

End Gates.

(** ** Superoperator builder *)

Section Superoperators.
Local Open Scope R_scope.

Definition zeroMatrix2 : ComplexMatrix2 :=
  mkComplexMatrix2 czero czero czero czero.

Definition zeroMatrix4 : ComplexMatrix4 :=
  M4.mkComplexMatrix4 czero czero czero czero czero czero czero czero
                      czero czero czero czero czero czero czero czero.

(** The sixteen [addConjComplexProd] statements of the loop body each
    update a field of their own from [op]; they are written here in the
    order of the fields. *)
Definition getOneQubitKrausSuperoperator (ops : list ComplexMatrix2)
    (numOps : Z) : ComplexMatrix4 :=
  for_loop numOps (fun n superOp =>
    let op := arr_get ops n zeroMatrix2 in
    M4.mkComplexMatrix4
      (addConjComplexProd (M4.r0c0 superOp) (r0c0 op) (r0c0 op))
      (addConjComplexProd (M4.r0c1 superOp) (r0c0 op) (r0c1 op))
      (addConjComplexProd (M4.r0c2 superOp) (r0c1 op) (r0c0 op))
      (addConjComplexProd (M4.r0c3 superOp) (r0c1 op) (r0c1 op))
      (addConjComplexProd (M4.r1c0 superOp) (r0c0 op) (r1c0 op))
      (addConjComplexProd (M4.r1c1 superOp) (r0c0 op) (r1c1 op))
      (addConjComplexProd (M4.r1c2 superOp) (r0c1 op) (r1c0 op))
      (addConjComplexProd (M4.r1c3 superOp) (r0c1 op) (r1c1 op))
      (addConjComplexProd (M4.r2c0 superOp) (r1c0 op) (r0c0 op))
      (addConjComplexProd (M4.r2c1 superOp) (r1c0 op) (r0c1 op))
      (addConjComplexProd (M4.r2c2 superOp) (r1c1 op) (r0c0 op))
      (addConjComplexProd (M4.r2c3 superOp) (r1c1 op) (r0c1 op))
      (addConjComplexProd (M4.r3c0 superOp) (r1c0 op) (r1c0 op))
      (addConjComplexProd (M4.r3c1 superOp) (r1c0 op) (r1c1 op))
      (addConjComplexProd (M4.r3c2 superOp) (r1c1 op) (r1c0 op))
      (addConjComplexProd (M4.r3c3 superOp) (r1c1 op) (r1c1 op)))
    zeroMatrix4.

(** [l[i] = v] on a list; nothing happens out of range (in C the write
    would be out of bounds). *)
Fixpoint list_set {A : Type} (l : list A) (i : nat) (v : A) : list A :=
  match l, i with
  | [], _ => []
  | _ :: t, O => v :: t
  | h :: t, S j => h :: list_set t j v
  end.

(** [elems[r][c]] and [elems[r][c] = v]. *)
Definition elem_get (e : list (list Complex)) (r c : Z) : Complex :=
  arr_get (arr_get e r []) c czero.

Definition elem_set (e : list (list Complex)) (r c : Z) (v : Complex)
    : list (list Complex) :=
  list_set e (Z.to_nat r) (list_set (arr_get e r []) (Z.to_nat c) v).

(** The rows of a [ComplexMatrix4] as the C array [opArr]. *)
Definition opArr4 (op : ComplexMatrix4) : list (list Complex) :=
  [ [M4.r0c0 op; M4.r0c1 op; M4.r0c2 op; M4.r0c3 op];
    [M4.r1c0 op; M4.r1c1 op; M4.r1c2 op; M4.r1c3 op];
    [M4.r2c0 op; M4.r2c1 op; M4.r2c2 op; M4.r2c3 op];
    [M4.r3c0 op; M4.r3c1 op; M4.r3c2 op; M4.r3c3 op] ].

(** Returns [superOp] with its elements updated. *)
Definition populateTwoQubitKrausSuperoperator (superOp : ComplexMatrixN)
    (ops : list ComplexMatrix4) (numOps : Z) : ComplexMatrixN :=
  for_loop numOps (fun n superOp =>
    (* unpack the Kraus map for convenience *)
    let op := arr_get ops n zeroMatrix4 in
    let opArr := opArr4 op in
    (* add conj(op) (x) op to the superoperator *)
    let opDim := 4%Z in
    for_loop opDim (fun i =>
      for_loop opDim (fun j =>
        for_loop opDim (fun k =>
          for_loop opDim (fun l superOp =>
            let r := (i * opDim + k)%Z in
            let c := (j * opDim + l)%Z in
            mkComplexMatrixN (numQubits superOp) (numRows superOp)
              (elem_set (elems superOp) r c
                 (addConjComplexProd (elem_get (elems superOp) r c)
                    (elem_get opArr i j) (elem_get opArr k l)))))))
      superOp)
    superOp.

(** A zero 16 x 16 [superOp] with sixteen rows that are arrays of their
    own.  (It is not the array [densmatr_applyTwoQubitKrausMap] builds:
    that one is [applyTwoQubitKrausMap_zeroed] below, whose row pointers
    hold one address.) *)
Definition zeroSuperOp16 : ComplexMatrixN :=
  let numQubits := 4%Z in
  let numRows := Z.shiftl 1 numQubits in
  mkComplexMatrixN numQubits numRows
    (repeat (repeat czero (Z.to_nat numRows)) (Z.to_nat numRows)).

End Superoperators.

(** ** Dimension-doubling bridge *)

(** The array [ops] that [densmatr_oneQubitPauliError] fills from the
    three probabilities. *)
Definition pauliErrorOps (probX probY probZ : qreal) : list ComplexMatrix2 :=
  let facs0 := sqrt (1 - (probX + probY + probZ)) in
  let facs1 := sqrt probX in
  let facs2 := sqrt probY in
  let facs3 := sqrt probZ in
  [ mkComplexMatrix2 (mkComplex facs0 0) czero czero (mkComplex facs0 0);
    mkComplexMatrix2 czero (mkComplex facs1 0) (mkComplex facs1 0) czero;
    mkComplexMatrix2 czero (mkComplex 0 (- facs2)) (mkComplex 0 facs2) czero;
    mkComplexMatrix2 (mkComplex facs3 0) czero czero
                     (mkComplex (- facs3) 0) ]%R.

Section Bridge.
Context {St : Type} `{GK : GateKernel St}.
Local Open Scope R_scope.

Definition densmatr_applyKrausSuperoperator (qureg : Qureg) (target : Z)
    (s : ComplexMatrix4) : St -> St :=
  let ctrlMask := 0%Z in
  statevec_multiControlledTwoQubitUnitary qureg ctrlMask target
    (target + numQubitsRepresented qureg)%Z s.

Definition densmatr_applyKrausMap (qureg : Qureg) (target : Z)
    (ops : list ComplexMatrix2) (numOps : Z) : St -> St :=
  let superOp := getOneQubitKrausSuperoperator ops numOps in
  densmatr_applyKrausSuperoperator qureg target superOp.

Definition densmatr_oneQubitPauliError (qureg : Qureg) (qubit : Z)
    (probX probY probZ : qreal) : St -> St :=
  (* convert pauli probabilities into Kraus map *)
  let ops := pauliErrorOps probX probY probZ in
  densmatr_applyKrausMap qureg qubit ops 4.

End Bridge.

(** ** A kernel that logs its calls *)

Inductive KernelCall : Type :=
| CompactUnitary (qureg : Qureg) (targetQubit : Z) (alpha beta : Complex)
| ControlledCompactUnitary (qureg : Qureg) (controlQubit targetQubit : Z)
    (alpha beta : Complex)
| ControlledUnitary (qureg : Qureg) (controlQubit targetQubit : Z)
    (u : ComplexMatrix2)
| ControlledNot (qureg : Qureg) (controlQubit targetQubit : Z)
| PhaseShiftByTerm (qureg : Qureg) (targetQubit : Z) (term : Complex)
| PauliX (qureg : Qureg) (targetQubit : Z)
| PauliY (qureg : Qureg) (targetQubit : Z)
| MultiRotateZ (qureg : Qureg) (mask : Z) (angle : qreal)
| MultiControlledTwoQubitUnitary (qureg : Qureg) (ctrlMask q1 q2 : Z)
    (u : ComplexMatrix4)
| CloneQureg (targetQureg copyQureg : Qureg).

Definition log_call (c : KernelCall) (log : list KernelCall)
    : list KernelCall := log ++ [c].

#[export] Instance LogKernel : GateKernel (list KernelCall) := {|
  statevec_compactUnitary q t a b := log_call (CompactUnitary q t a b);
  statevec_controlledCompactUnitary q c t a b :=
    log_call (ControlledCompactUnitary q c t a b);
  statevec_controlledUnitary q c t u := log_call (ControlledUnitary q c t u);
  statevec_controlledNot q c t := log_call (ControlledNot q c t);
  statevec_phaseShiftByTerm q t term := log_call (PhaseShiftByTerm q t term);
  statevec_pauliX q t := log_call (PauliX q t);
  statevec_pauliY q t := log_call (PauliY q t);
  statevec_multiRotateZ q mask angle := log_call (MultiRotateZ q mask angle);
  statevec_multiControlledTwoQubitUnitary q m q1 q2 u :=
    log_call (MultiControlledTwoQubitUnitary q m q1 q2 u);
  statevec_cloneQureg t c := log_call (CloneQureg t c)
|}.

(** The masks passed to [statevec_multiRotateZ], in the order of the calls. *)
Fixpoint multiRotateZ_masks (log : list KernelCall) : list Z :=
  match log with
  | [] => []
  | MultiRotateZ _ mask _ :: rest => mask :: multiRotateZ_masks rest
  | _ :: rest => multiRotateZ_masks rest
  end.

(** The mask of the claim about [statevec_multiRotatePauli]: the OR of
    [1 << targetQubits[t]] over the [t] whose tag is not Identity. *)
Definition nonIdentityMask (targetQubits : list Z)
    (targetPaulis : list pauliOpType) (numTargets : Z) : Z :=
  for_loop numTargets (fun t mask =>
    if pauli_eqb (arr_get targetPaulis t PAULI_I) PAULI_I then mask
    else ll_or mask (ll_shl 1 (arr_get targetQubits t 0))) 0.

(** The mask that [statevec_multiRotatePauli] computes: the loop over
    the targets applied to the full mask. *)
Definition passedMask (targetQubits : list Z)
    (targetPaulis : list pauliOpType) (numTargets : Z) : Z :=
  for_loop numTargets (fun t mask =>
    let p := arr_get targetPaulis t PAULI_I in
    if pauli_eqb p PAULI_I then ll_sub mask (ll_shl 1 (pauli_code p))
    else mask) (getQubitBitMask targetQubits numTargets).

(** ** A kernel on arrays of amplitudes *)

Section AmplitudeKernel.
Local Open Scope R_scope.

(** The amplitude array of a register and the store of all arrays, by
    address. *)
Definition amps : Type := list Complex.
Definition Store : Type := nat -> amps.

Definition store_set (st : Store) (h : nat) (a : amps) : Store :=
  fun h' => if Nat.eqb h' h then a else st h'.

Definition getAmp (a : amps) (i : Z) : Complex := arr_get a i czero.

(** The array of [n] amplitudes whose entry [i] is [f i]. *)
Definition tabulate (n : Z) (f : Z -> Complex) : amps :=
  map (fun i => f (Z.of_nat i)) (seq 0 (Z.to_nat n)).

(** Index [i] with bit [q] set to [b], and with bit [q] flipped. *)
Definition withBit (i q : Z) (b : bool) : Z :=
  if b then Z.setbit i q else Z.clearbit i q.
Definition flipBit (i q : Z) : Z := Z.lxor i (Z.shiftl 1 q).

(** All control bits of [ctrlMask] are 1 in [i]. *)
Definition ctrlOn (i ctrlMask : Z) : bool := Z.land i ctrlMask =? ctrlMask.

Definition mat2_get (u : ComplexMatrix2) (r c : bool) : Complex :=
  match r, c with
  | false, false => r0c0 u | false, true => r0c1 u
  | true, false => r1c0 u | true, true => r1c1 u
  end.

Definition mat4_get (u : ComplexMatrix4) (r c : Z) : Complex :=
  elem_get (opArr4 u) r c.

(** Modelled from the spec: the kernel's application of a 2x2 operator,
    optionally controlled (QuEST_cpu.c is missing).  Each amplitude whose
    control bits are all 1 becomes the row of [u] selected by its target
    bit, applied to the pair of amplitudes that differ in the target bit. *)
Definition k_unitary (N ctrlMask t : Z) (u : ComplexMatrix2) (a : amps)
    : amps :=
  tabulate (2 ^ N) (fun i =>
    if ctrlOn i ctrlMask then
      let b := Z.testbit i t in
      cadd (cmul (mat2_get u b false) (getAmp a (withBit i t false)))
           (cmul (mat2_get u b true) (getAmp a (withBit i t true)))
    else getAmp a i).

(** Modelled from the spec: the operator of a pair (alpha, beta),
    U = [[alpha, -conj(beta)], [beta, conj(alpha)]] (section 4.1). *)
Definition compactMatrix (alpha beta : Complex) : ComplexMatrix2 :=
  mkComplexMatrix2 alpha (copp (getConjugateScalar beta))
                   beta (getConjugateScalar alpha).

(** Modelled from the spec: controlled-NOT (kernel missing): where the
    control bit is 1 the amplitudes of the two values of the target bit
    are exchanged. *)
Definition k_controlledNot (N c t : Z) (a : amps) : amps :=
  tabulate (2 ^ N) (fun i =>
    if Z.testbit i c then getAmp a (flipBit i t) else getAmp a i).

(** Modelled from the spec: conditional phase multiply (kernel missing):
    the amplitudes whose target bit is 1 are multiplied by [term]. *)
Definition k_phaseShiftByTerm (N t : Z) (term : Complex) (a : amps) : amps :=
  tabulate (2 ^ N) (fun i =>
    if Z.testbit i t then cmul term (getAmp a i) else getAmp a i).

(** Modelled from the spec: Pauli X and Y (kernel missing),
    X = [[0,1],[1,0]] and Y = [[0,-i],[i,0]]. *)
Definition k_pauliX (N t : Z) (a : amps) : amps :=
  tabulate (2 ^ N) (fun i => getAmp a (flipBit i t)).

Definition k_pauliY (N t : Z) (a : amps) : amps :=
  tabulate (2 ^ N) (fun i =>
    cmul (if Z.testbit i t then mkComplex 0 1 else mkComplex 0 (-1))
         (getAmp a (flipBit i t))).

(** Parity of the bits [0 .. N-1] of [v]. *)
Definition bitParity (N v : Z) : bool :=
  for_loop N (fun q p => xorb p (Z.testbit v q)) false.

(** Modelled from the spec: masked parity Z-rotation (kernel missing):
    an amplitude is multiplied by exp(-i angle/2) when the bits of its
    index under [mask] have even parity and by exp(i angle/2) otherwise. *)
Definition k_multiRotateZ (N mask : Z) (angle : qreal) (a : amps) : amps :=
  tabulate (2 ^ N) (fun i =>
    let fac := if bitParity N (Z.land mask i) then -1 else 1 in
    cmul (mkComplex (cos (angle / 2)) (- fac * sin (angle / 2)))
         (getAmp a i)).

(** Modelled from the spec: the kernel's application of a 4x4 operator to
    two target qubits (QuEST_cpu.c is missing).  The first target is the
    low bit of the row and column index of [u], the second the high bit:
    so the superoperator conj(K) (x) K on the targets (t, t+n) puts K on
    the ket qubit t and conj(K) on the bra qubit t+n, as sections 3 and
    4.3 of the specification require. *)
Definition k_twoQubitUnitary (N ctrlMask q1 q2 : Z) (u : ComplexMatrix4)
    (a : amps) : amps :=
  tabulate (2 ^ N) (fun i =>
    if ctrlOn i ctrlMask then
      let row := Z.b2z (Z.testbit i q1) + 2 * Z.b2z (Z.testbit i q2) in
      let src (b1 b2 : bool) := getAmp a (withBit (withBit i q1 b1) q2 b2) in
      cadd (cadd (cadd (cmul (mat4_get u row 0) (src false false))
                       (cmul (mat4_get u row 1) (src true false)))
                 (cmul (mat4_get u row 2) (src false true)))
           (cmul (mat4_get u row 3) (src true true))
    else getAmp a i)%Z.

(** A kernel call on [qureg] rewrites the array at [stateVec qureg]. *)
Definition on_qureg (qureg : Qureg) (k : Z -> amps -> amps) : Store -> Store :=
  fun st =>
    store_set st (stateVec qureg)
      (k (numQubitsInStateVec qureg) (st (stateVec qureg))).

(** Modelled from the spec: clone-register (kernel missing): the
    amplitudes of [copyQureg] are copied into the array of
    [targetQureg]. *)
Definition k_cloneQureg (targetQureg copyQureg : Qureg) : Store -> Store :=
  fun st => store_set st (stateVec targetQureg) (st (stateVec copyQureg)).

#[export] Instance AmpKernel : GateKernel Store := {|
  statevec_compactUnitary q t alpha beta :=
    on_qureg q (fun N => k_unitary N 0 t (compactMatrix alpha beta));
  statevec_controlledCompactUnitary q c t alpha beta :=
    on_qureg q (fun N =>
      k_unitary N (Z.shiftl 1 c) t (compactMatrix alpha beta));
  statevec_controlledUnitary q c t u :=
    on_qureg q (fun N => k_unitary N (Z.shiftl 1 c) t u);
  statevec_controlledNot q c t := on_qureg q (fun N => k_controlledNot N c t);
  statevec_phaseShiftByTerm q t term :=
    on_qureg q (fun N => k_phaseShiftByTerm N t term);
  statevec_pauliX q t := on_qureg q (fun N => k_pauliX N t);
  statevec_pauliY q t := on_qureg q (fun N => k_pauliY N t);
  statevec_multiRotateZ q mask angle :=
    on_qureg q (fun N => k_multiRotateZ N mask angle);
  statevec_multiControlledTwoQubitUnitary q m q1 q2 u :=
    on_qureg q (fun N => k_twoQubitUnitary N m q1 q2 u);
  statevec_cloneQureg := k_cloneQureg
|}.

(** Sum of [f 0 .. f (n-1)], accumulated from the left. *)
Definition csum (n : Z) (f : Z -> Complex) : Complex :=
  for_loop n (fun i acc => cadd acc (f i)) czero.

(** Modelled from the spec: inner product <bra|ket> and the trace of a
    density matrix (kernel missing). *)
#[export] Instance AmpQueries : QueryKernel Store := {|
  statevec_calcInnerProduct bra ket := fun st =>
    csum (2 ^ numQubitsInStateVec bra) (fun i =>
      getConjComplexProd (getAmp (st (stateVec bra)) i)
                         (getAmp (st (stateVec ket)) i));
  densmatr_calcTotalProb qureg := fun st =>
    let dim := (2 ^ numQubitsRepresented qureg)%Z in
    real (csum dim (fun r => getAmp (st (stateVec qureg)) (r + r * dim)%Z))
|}.

End AmplitudeKernel.

(** ** Operators of one qubit *)

Section Operators.
Local Open Scope R_scope.

Definition identity2 : ComplexMatrix2 :=
  mkComplexMatrix2 cone czero czero cone.

Definition pauliXMatrix : ComplexMatrix2 :=
  mkComplexMatrix2 czero cone cone czero.

Definition mat2_mul (a b : ComplexMatrix2) : ComplexMatrix2 :=
  mkComplexMatrix2
    (cadd (cmul (r0c0 a) (r0c0 b)) (cmul (r0c1 a) (r1c0 b)))
    (cadd (cmul (r0c0 a) (r0c1 b)) (cmul (r0c1 a) (r1c1 b)))
    (cadd (cmul (r1c0 a) (r0c0 b)) (cmul (r1c1 a) (r1c0 b)))
    (cadd (cmul (r1c0 a) (r0c1 b)) (cmul (r1c1 a) (r1c1 b))).

Definition mat2_scale (s : Complex) (u : ComplexMatrix2) : ComplexMatrix2 :=
  mkComplexMatrix2 (cmul s (r0c0 u)) (cmul s (r0c1 u))
                   (cmul s (r1c0 u)) (cmul s (r1c1 u)).

(** Conjugate transpose. *)
Definition mat2_dagger (u : ComplexMatrix2) : ComplexMatrix2 :=
  mkComplexMatrix2 (getConjugateScalar (r0c0 u)) (getConjugateScalar (r1c0 u))
                   (getConjugateScalar (r0c1 u)) (getConjugateScalar (r1c1 u)).

Definition isUnitary2 (u : ComplexMatrix2) : Prop :=
  mat2_mul (mat2_dagger u) u = identity2.

(** [u] is [v] times a global phase factor. *)
Definition equalUpToPhase2 (u v : ComplexMatrix2) : Prop :=
  exists phi : R, u = mat2_scale (cexpi phi) v.

(** The operator [statevec_rotateAroundAxis] hands to
    [statevec_compactUnitary], and those of [statevec_rotateZ] and
    [statevec_rotateY]. *)
Definition rotationMatrix (angle : qreal) (axis : Vector) : ComplexMatrix2 :=
  let '(alpha, beta) := getComplexPairFromRotation angle axis in
  compactMatrix alpha beta.

Definition Rz (angle : qreal) : ComplexMatrix2 :=
  rotationMatrix angle (mkVector 0 0 1).

Definition Ry (angle : qreal) : ComplexMatrix2 :=
  rotationMatrix angle (mkVector 0 1 0).

(** The phase of a complex number, as the source computes it. *)
Definition phase (c : Complex) : R := atan2 (imag c) (real c).

(** The reconstruction of a unitary from its factorization,
    exp(i globalPhase) [[alpha, -conj(beta)], [beta, conj(alpha)]]. *)
Definition reconstructUnitary (alpha beta : Complex) (globalPhase : qreal)
    : ComplexMatrix2 :=
  mat2_scale (cexpi globalPhase) (compactMatrix alpha beta).

End Operators.

(** ** Tensor sums of Kraus operators *)

Section KrausSums.
Local Open Scope R_scope.

(** The rows of a [ComplexMatrix2], and its entry at row [r], column [c]. *)
Definition opArr2 (op : ComplexMatrix2) : list (list Complex) :=
  [ [r0c0 op; r0c1 op]; [r1c0 op; r1c1 op] ].

Definition mat2_at (u : ComplexMatrix2) (r c : Z) : Complex :=
  elem_get (opArr2 u) r c.

(** Entry ((i,k), (j,l)) of the sum over n of conj(K_n) (x) K_n: the sum
    over n of conj(K_n[i][j]) * K_n[k][l], for operators of type [M] read
    through [entry]. *)
Definition tensorSumEntry {M : Type} (entry : M -> Z -> Z -> Complex)
    (d : M) (ops : list M) (numOps : Z) (i j k l : Z) : Complex :=
  csum numOps (fun n =>
    let K := arr_get ops n d in
    cmul (getConjugateScalar (entry K i j)) (entry K k l)).

End KrausSums.

(** ** The loop nest of the two-qubit superoperator *)

Section LoopNest.
Local Open Scope Z_scope.

(** The index tuples (i, j, k, l) of the four nested loops of
    [populateTwoQubitKrausSuperoperator], in the order the loops visit
    them. *)
Definition quads : list (Z * Z * Z * Z) :=
  flat_map (fun i =>
    flat_map (fun j =>
      flat_map (fun k =>
        map (fun l => (i, j, k, l)) [0; 1; 2; 3]) [0; 1; 2; 3])
      [0; 1; 2; 3]) [0; 1; 2; 3].

(** The tuple [q] writes the element at row [r], column [c]. *)
Definition hits (r c : Z) (q : Z * Z * Z * Z) : bool :=
  let '(i, j, k, l) := q in (i * 4 + k =? r) && (j * 4 + l =? c).

(** One statement of the innermost loop on the array [elems]. *)
Definition krausStep (opArr : list (list Complex)) (e : list (list Complex))
    (q : Z * Z * Z * Z) : list (list Complex) :=
  let '(i, j, k, l) := q in
  elem_set e (i * 4 + k) (j * 4 + l)
    (addConjComplexProd (elem_get e (i * 4 + k) (j * 4 + l))
       (elem_get opArr i j) (elem_get opArr k l)).

(** [e] has [n] rows of [n] elements. *)
Definition squareOf (n : nat) (e : list (list Complex)) : Prop :=
  length e = n /\ Forall (fun row => length row = n) e.

End LoopNest.

Section LoopNestRange.
Local Open Scope Z_scope.

(** The element written by the tuple [q] lies in a 16 x 16 array. *)
Definition quadInRange (q : Z * Z * Z * Z) : bool :=
  let '(i, j, k, l) := q in
  (0 <=? i * 4 + k) && (i * 4 + k <? 16)
  && (0 <=? j * 4 + l) && (j * 4 + l <? 16).

End LoopNestRange.

(** ** Density matrices in the doubled register *)

Section DensityMatrices.
Local Open Scope Z_scope.

(** Entry (r, c) of the density matrix of [n] qubits held in the array
    [a]: the ket (row) index is the low [n] bits of the amplitude index,
    the bra (column) index the high [n] bits. *)
Definition densityEntry (n : Z) (a : amps) (r c : Z) : Complex :=
  getAmp a (r + c * 2 ^ n).

(** Entry (r, c) of K rho K^dagger, for the operator [K] on qubit [t]:
    the sum over the bits a, b of
    K[r_t][a] * rho[r with bit t := a][c with bit t := b] * conj(K[c_t][b]). *)
Definition conjugatedEntry (K : ComplexMatrix2) (t : Z)
    (rho : Z -> Z -> Complex) (r c : Z) : Complex :=
  let term (a b : bool) :=
    cmul (cmul (mat2_get K (Z.testbit r t) a)
               (rho (withBit r t a) (withBit c t b)))
         (getConjugateScalar (mat2_get K (Z.testbit c t) b)) in
  cadd (cadd (cadd (term false false) (term true false)) (term false true))
       (term true true).

(** Entry (r, c) of the Kraus map, the sum over n of K_n rho K_n^dagger. *)
Definition krausMapEntry (ops : list ComplexMatrix2) (numOps t : Z)
    (rho : Z -> Z -> Complex) (r c : Z) : Complex :=
  csum numOps (fun n =>
    conjugatedEntry (arr_get ops n zeroMatrix2) t rho r c).

Definition identity4 : ComplexMatrix4 :=
  M4.mkComplexMatrix4 cone czero czero czero
                      czero cone czero czero
                      czero czero cone czero
                      czero czero czero cone.

End DensityMatrices.

(** ** The SWAP operator and pairs of qubits *)

Section TwoQubitOperators.
Local Open Scope Z_scope.

(** The closed form of SWAP on two qubits. *)
Definition swapMatrix : ComplexMatrix4 :=
  M4.mkComplexMatrix4 cone czero czero czero
                      czero czero cone czero
                      czero cone czero czero
                      czero czero czero cone.

(** The array [a] is [b] times a global phase factor. *)
Definition ampsEqualUpToPhase (a b : amps) : Prop :=
  exists phi : R, a = map (cmul (cexpi phi)) b.

(** Index [i] with the bits [q1] and [q2] set to [x1] and [x2], and the
    four amplitudes of [a] at the indices that differ from [i] in these
    two bits only. *)
Definition idx2 (q1 q2 i : Z) (x1 x2 : bool) : Z :=
  withBit (withBit i q1 x1) q2 x2.

Definition fiber (q1 q2 : Z) (a : amps) (i : Z) (x1 x2 : bool) : Complex :=
  getAmp a (idx2 q1 q2 i x1 x2).

(** CNOT, controlled-u and CNOT on the four amplitudes of a fiber: the
    amplitudes of 00 and 11 stay, [u] acts on those of 01 and 10. *)
Definition sqrtSwapFiber (u : ComplexMatrix2) (v : bool -> bool -> Complex)
    (x1 x2 : bool) : Complex :=
  match x1, x2 with
  | false, false => v false false
  | false, true =>
      cadd (cmul (r0c0 u) (v false true)) (cmul (r0c1 u) (v true false))
  | true, false =>
      cadd (cmul (r1c0 u) (v false true)) (cmul (r1c1 u) (v true false))
  | true, true => v true true
  end.

(** The three kernel calls of [statevec_sqrtSwapGate] on an array. *)
Definition k_sqrtSwap (N qb1 qb2 : Z) (u : ComplexMatrix2) (a : amps) : amps :=
  k_controlledNot N qb1 qb2
    (k_unitary N (Z.shiftl 1 qb2) qb1 u (k_controlledNot N qb1 qb2 a)).

(** The operators of [statevec_sqrtSwapGate] and
    [statevec_sqrtSwapGateConj]. *)
Definition sqrtSwapU : ComplexMatrix2 :=
  mkComplexMatrix2
    (mkComplex (5/10) (5/10)) (mkComplex (5/10) (- (5/10)))
    (mkComplex (5/10) (- (5/10))) (mkComplex (5/10) (5/10)).

Definition sqrtSwapUConj : ComplexMatrix2 :=
  mkComplexMatrix2
    (mkComplex (5/10) (- (5/10))) (mkComplex (5/10) (5/10))
    (mkComplex (5/10) (5/10)) (mkComplex (5/10) (- (5/10))).

End TwoQubitOperators.

(** ** Further numeric primitives *)

Section MorePrimitives.
Local Open Scope Z_scope.

(** Returns the new values of [*ind1] and [*ind2]. *)
Definition ensureIndsIncrease (ind1 ind2 : Z) : Z * Z :=
  if ind1 >? ind2 then
    let copy := ind1 in
    let ind1 := ind2 in
    let ind2 := copy in
    (ind1, ind2)
  else (ind1, ind2).

Definition getConjugateMatrix4 (u : ComplexMatrix4) : ComplexMatrix4 :=
  let neg (c : Complex) := mkComplex (real c) (imag c * -1) in
  M4.mkComplexMatrix4
    (neg (M4.r0c0 u)) (neg (M4.r0c1 u)) (neg (M4.r0c2 u)) (neg (M4.r0c3 u))
    (neg (M4.r1c0 u)) (neg (M4.r1c1 u)) (neg (M4.r1c2 u)) (neg (M4.r1c3 u))
    (neg (M4.r2c0 u)) (neg (M4.r2c1 u)) (neg (M4.r2c2 u)) (neg (M4.r2c3 u))
    (neg (M4.r3c0 u)) (neg (M4.r3c1 u)) (neg (M4.r3c2 u)) (neg (M4.r3c3 u)).

(** 32-bit two's complement wrap-around of [int]. *)
Definition wrap_int (v : Z) : Z := (v + 2 ^ 31) mod 2 ^ 32 - 2 ^ 31.

(** Returns the array [indices] after the loop. *)
Definition shiftIndices (indices : list Z) (numIndices shift : Z) : list Z :=
  for_loop numIndices (fun j indices =>
    list_set indices (Z.to_nat j) (wrap_int (arr_get indices j 0 + shift)))
    indices.

(** Returns [u] with its elements updated. *)
Definition conjugateMatrixN (u : ComplexMatrixN) : ComplexMatrixN :=
  for_loop (numRows u) (fun r =>
    for_loop (numRows u) (fun c u =>
      let e := elem_get (elems u) r c in
      mkComplexMatrixN (numQubits u) (numRows u)
        (elem_set (elems u) r c (mkComplex (real e) (imag e * -1))))) u.

(** [hashString] over an [unsigned long] of [ulong_bits] bits.  The
    string is the list of its characters up to the terminating NUL; a
    NUL inside the list ends the string there, as in C. *)
Fixpoint hashString_from (ulong_bits : Z) (hash : Z) (str : list Z) : Z :=
  match str with
  | [] => hash
  | c :: rest =>
      if c =? 0 then hash
      else hashString_from ulong_bits
             ((Z.shiftl hash 5 + hash + c) mod 2 ^ ulong_bits) (* hash * 33 + c *)
             rest
  end.

Definition hashString (ulong_bits : Z) (str : list Z) : Z :=
  let hash := 5381 in
  hashString_from ulong_bits hash str.

End MorePrimitives.

(** ** Further gates *)

Section MoreGates.
Context {St : Type} `{GK : GateKernel St}.
Local Open Scope R_scope.

Definition statevec_sGateConj (qureg : Qureg) (targetQubit : Z) : St -> St :=
  let term := mkComplex 0 (-1) in
  statevec_phaseShiftByTerm qureg targetQubit term.

Definition statevec_tGateConj (qureg : Qureg) (targetQubit : Z) : St -> St :=
  let term := mkComplex (1 / sqrt 2) (- 1 / sqrt 2) in
  statevec_phaseShiftByTerm qureg targetQubit term.

Definition statevec_controlledRotateAroundAxis (qureg : Qureg)
    (controlQubit targetQubit : Z) (angle : qreal) (axis : Vector)
    : St -> St :=
  let '(alpha, beta) := getComplexPairFromRotation angle axis in
  statevec_controlledCompactUnitary qureg controlQubit targetQubit alpha beta.

Definition statevec_controlledRotateAroundAxisConj (qureg : Qureg)
    (controlQubit targetQubit : Z) (angle : qreal) (axis : Vector)
    : St -> St :=
  let '(alpha, beta) := getComplexPairFromRotation angle axis in
  let alpha := mkComplex (real alpha) (imag alpha * -1) in
  let beta := mkComplex (real beta) (imag beta * -1) in
  statevec_controlledCompactUnitary qureg controlQubit targetQubit alpha beta.

Definition statevec_controlledRotateX (qureg : Qureg)
    (controlQubit targetQubit : Z) (angle : qreal) : St -> St :=
  let unitAxis := mkVector 1 0 0 in
  statevec_controlledRotateAroundAxis qureg controlQubit targetQubit angle
    unitAxis.

Definition statevec_controlledRotateY (qureg : Qureg)
    (controlQubit targetQubit : Z) (angle : qreal) : St -> St :=
  let unitAxis := mkVector 0 1 0 in
  statevec_controlledRotateAroundAxis qureg controlQubit targetQubit angle
    unitAxis.

Definition statevec_controlledRotateZ (qureg : Qureg)
    (controlQubit targetQubit : Z) (angle : qreal) : St -> St :=
  let unitAxis := mkVector 0 0 1 in
  statevec_controlledRotateAroundAxis qureg controlQubit targetQubit angle
    unitAxis.

Context `{QK : QueryKernel St}.

Definition statevec_calcFidelity (qureg pureState : Qureg) (st : St) : qreal :=
  let innerProd := statevec_calcInnerProduct qureg pureState st in
  let innerProdMag :=
    real innerProd * real innerProd + imag innerProd * imag innerProd in
  innerProdMag.

End MoreGates.

(** ** Measurement *)

(** The probability and collapse primitives of the kernel, for both
    kinds of register. *)
Class MeasureKernel (St : Type) : Type := {
  statevec_calcProbOfOutcome : Qureg -> Z -> Z -> St -> qreal;
  densmatr_calcProbOfOutcome : Qureg -> Z -> Z -> St -> qreal;
  statevec_collapseToKnownProbOutcome :
    Qureg -> Z -> Z -> qreal -> St -> St;
  densmatr_collapseToKnownProbOutcome :
    Qureg -> Z -> Z -> qreal -> St -> St
}.

Section Measurement.
Context {St : Type} `{MK : MeasureKernel St}.
Variable REAL_EPS : qreal.
Variable RngState : Type.
Variable genrand_real1 : RngState -> qreal * RngState.

(** Returns the outcome, [*outcomeProb], the state of the registers and
    the state of the generator. *)
Definition statevec_measureWithStats (qureg : Qureg) (measureQubit : Z)
    (st : St) (rng : RngState) : Z * qreal * St * RngState :=
  let zeroProb := statevec_calcProbOfOutcome qureg measureQubit 0 st in
  let '(outcome, outcomeProb, rng) :=
    generateMeasurementOutcome REAL_EPS RngState genrand_real1 zeroProb rng in
  let st :=
    statevec_collapseToKnownProbOutcome qureg measureQubit outcome
      outcomeProb st in
  (outcome, outcomeProb, st, rng).

Definition densmatr_measureWithStats (qureg : Qureg) (measureQubit : Z)
    (st : St) (rng : RngState) : Z * qreal * St * RngState :=
  let zeroProb := densmatr_calcProbOfOutcome qureg measureQubit 0 st in
  let '(outcome, outcomeProb, rng) :=
    generateMeasurementOutcome REAL_EPS RngState genrand_real1 zeroProb rng in
  let st :=
    densmatr_collapseToKnownProbOutcome qureg measureQubit outcome
      outcomeProb st in
  (outcome, outcomeProb, st, rng).

End Measurement.

(** ** The calls of the multi-qubit Pauli rotation *)

Section PauliRotationCalls.
Local Open Scope R_scope.

(** The basis rotations one loop of [statevec_multiRotatePauli] hands
    to the kernel: for each target in turn, the pair [uRy] on an X tag
    and the pair [uRx] on a Y tag. *)
Definition basisRotationCalls (qureg : Qureg) (uRy uRx : Complex * Complex)
    (targetQubits : list Z) (targetPaulis : list pauliOpType)
    (numTargets : Z) : list KernelCall :=
  for_loop numTargets (fun t calls =>
    let p := arr_get targetPaulis t PAULI_I in
    let q := arr_get targetQubits t 0%Z in
    calls
    ++ (if pauli_eqb p PAULI_X
        then [CompactUnitary qureg q (fst uRy) (snd uRy)] else [])
    ++ (if pauli_eqb p PAULI_Y
        then [CompactUnitary qureg q (fst uRx) (snd uRx)] else [])) [].

(** The pairs of [statevec_multiRotatePauli]: [uRy] and [uRx] before
    the Z-rotation and after it. *)
Definition uRy_before : Complex * Complex :=
  (mkComplex (1 / sqrt 2) 0, mkComplex (1 / sqrt 2) 0).
Definition uRx_before (applyConj : Z) : Complex * Complex :=
  (mkComplex (1 / sqrt 2) 0,
   mkComplex 0 (if (applyConj =? 0)%Z then - (1 / sqrt 2) else 1 / sqrt 2)).
Definition uRy_after : Complex * Complex :=
  (fst uRy_before,
   mkComplex (real (snd uRy_before) * -1) (imag (snd uRy_before))).
Definition uRx_after (applyConj : Z) : Complex * Complex :=
  (fst (uRx_before applyConj),
   mkComplex (real (snd (uRx_before applyConj)))
             (imag (snd (uRx_before applyConj)) * -1)).

End PauliRotationCalls.

(** ** Pauli operators and mixtures *)

Section PauliOperators.
Local Open Scope R_scope.

Definition pauliYMatrix : ComplexMatrix2 :=
  mkComplexMatrix2 czero (mkComplex 0 (-1)) (mkComplex 0 1) czero.

Definition pauliZMatrix : ComplexMatrix2 :=
  mkComplexMatrix2 cone czero czero (mkComplex (-1) 0).

Definition mat2_add (a b : ComplexMatrix2) : ComplexMatrix2 :=
  mkComplexMatrix2 (cadd (r0c0 a) (r0c0 b)) (cadd (r0c1 a) (r0c1 b))
                   (cadd (r1c0 a) (r1c0 b)) (cadd (r1c1 a) (r1c1 b)).

(** A complex number times a real factor. *)
Definition cscale (k : R) (c : Complex) : Complex :=
  mkComplex (k * real c) (k * imag c).

(** The sum over the operators [K] of a list of [K^dagger K]. *)
Definition krausCompleteness (ops : list ComplexMatrix2) : ComplexMatrix2 :=
  fold_left (fun acc K => mat2_add acc (mat2_mul (mat2_dagger K) K))
    ops zeroMatrix2.

End PauliOperators.

(** ** The superoperator of the two-qubit Kraus map, in memory *)

Section RowPointers.
Local Open Scope Z_scope.

(** The storage behind the [Complex** elems] of a [ComplexMatrixN]:
    [matr] is the array of row pointers and [rowAt a] the array of
    [Complex] at the address [a].  Two row pointers that hold one
    address name one array. *)
Record RowMemory : Type := mkRowMemory {
  matr : list nat;
  rowAt : nat -> list Complex
}.

(** [elems[r][c]] and [elems[r][c] = v], through the row pointer. *)
Definition mem_get (m : RowMemory) (r c : Z) : Complex :=
  arr_get (rowAt m (arr_get (matr m) r 0%nat)) c czero.

Definition mem_set (m : RowMemory) (r c : Z) (v : Complex) : RowMemory :=
  let a := arr_get (matr m) r 0%nat in
  mkRowMemory (matr m)
    (fun a' => if Nat.eqb a' a
               then list_set (rowAt m a) (Z.to_nat c) v
               else rowAt m a').

(** The matrix read through the row pointers. *)
Definition readRows (m : RowMemory) : list (list Complex) :=
  map (rowAt m) (matr m).

(** [populateTwoQubitKrausSuperoperator] on the storage: [superOp] is
    received by value, and the function writes through the row pointers
    of [superOp.elems]. *)
Definition populateTwoQubitKrausSuperoperator_mem (superOp : RowMemory)
    (ops : list ComplexMatrix4) (numOps : Z) : RowMemory :=
  for_loop numOps (fun n superOp =>
    (* unpack the Kraus map for convenience *)
    let op := arr_get ops n zeroMatrix4 in
    let opArr := opArr4 op in
    (* add conj(op) (x) op to the superoperator *)
    let opDim := 4%Z in
    for_loop opDim (fun i =>
      for_loop opDim (fun j =>
        for_loop opDim (fun k =>
          for_loop opDim (fun l superOp =>
            let r := (i * opDim + k)%Z in
            let c := (j * opDim + l)%Z in
            mem_set superOp r c
              (addConjComplexProd (mem_get superOp r c)
                 (elem_get opArr i j) (elem_get opArr k l))))))
      superOp)
    superOp.

(** One statement of the innermost loop on the storage. *)
Definition memStep (opArr : list (list Complex)) (m : RowMemory)
    (q : Z * Z * Z * Z) : RowMemory :=
  let '(i, j, k, l) := q in
  mem_set m (i * 4 + k) (j * 4 + l)
    (addConjComplexProd (mem_get m (i * 4 + k) (j * 4 + l))
       (elem_get opArr i j) (elem_get opArr k l)).

(** The same statement on one array that every row pointer names. *)
Definition rowStep (opArr : list (list Complex)) (row : list Complex)
    (q : Z * Z * Z * Z) : list Complex :=
  let '(i, j, k, l) := q in
  list_set row (Z.to_nat (j * 4 + l))
    (addConjComplexProd (arr_get row (j * 4 + l) czero)
       (elem_get opArr i j) (elem_get opArr k l)).

(** The tuple [q] writes column [c]. *)
Definition hitsCol (c : Z) (q : Z * Z * Z * Z) : bool :=
  let '(i, j, k, l) := q in (j * 4 + l =? c).

Section KrausMapStorage.

(** What [Complex row[...]] and [Complex* matr[...]], declared without
    an initialiser, hold before they are written. *)
Variable indetComplex : Complex.
Variable indetPtr : nat.

(** The address of the array [row].  [row] is declared in the body of
    the loop over [r]: every iteration has its array at this address,
    the automatic storage of the block, and [matr[r] = row] stores that
    address sixteen times.  The lifetime of the array ends with the
    iteration, so that C gives the later accesses through [matr] no
    defined meaning; the model follows the pointers as they are
    stored. *)
Variable rowAddr : nat.

(** The [superOp] that [densmatr_applyTwoQubitKrausMap] hands to
    [populateTwoQubitKrausSuperoperator], after "initialise to zero
    matrix". *)
Definition applyTwoQubitKrausMap_zeroed : RowMemory :=
  let numQubits := 4 in
  let numRows := Z.shiftl 1 numQubits in
  (* initialise to zero matrix *)
  for_loop numRows (fun r m =>
    let row :=
      for_loop numRows (fun c row => list_set row (Z.to_nat c) czero)
        (repeat indetComplex (Z.to_nat numRows)) in
    mkRowMemory (list_set (matr m) (Z.to_nat r) rowAddr)
      (fun a => if Nat.eqb a rowAddr then row else rowAt m a))
    (mkRowMemory (repeat indetPtr (Z.to_nat numRows)) (fun _ => [])).

(** The [superOp] that [densmatr_applyTwoQubitKrausMap] hands to
    [densmatr_applyTwoQubitKrausSuperoperator] (whose kernel is not part
    of this file of the repository). *)
Definition densmatr_applyTwoQubitKrausMap_superOp
    (ops : list ComplexMatrix4) (numOps : Z) : RowMemory :=
  populateTwoQubitKrausSuperoperator_mem applyTwoQubitKrausMap_zeroed
    ops numOps.

End KrausMapStorage.

End RowPointers.

(** * Proofs *)

(** ** Loops *)

Lemma for_loop_nonpos {S : Type} (n : Z) (body : Z -> S -> S) (s : S) :
  n <= 0 -> for_loop n body s = s.
Proof.
  intros Hn. unfold for_loop.
  replace (Z.to_nat n) with 0%nat by lia. reflexivity.
Qed.

Lemma for_loop_succ {S : Type} (n : Z) (body : Z -> S -> S) (s : S) :
  0 <= n -> for_loop (n + 1) body s = body n (for_loop n body s).
Proof.
  intros Hn. unfold for_loop.
  replace (Z.to_nat (n + 1)) with (Datatypes.S (Z.to_nat n)) by lia.
  rewrite seq_S, fold_left_app. simpl.
  rewrite Z2Nat.id by lia. reflexivity.
Qed.

Lemma for_loop_ind {S : Type} (P : Z -> S -> Prop) (body : Z -> S -> S)
    (s : S) :
  P 0 s ->
  (forall n s', 0 <= n -> P n s' -> P (n + 1) (body n s')) ->
  forall n, 0 <= n -> P n (for_loop n body s).
Proof.
  intros H0 Hstep n Hn. pattern n. apply natlike_ind; [| | exact Hn].
  - rewrite for_loop_nonpos by lia. exact H0.
  - intros m Hm IH. change (Z.succ m) with (m + 1).
    rewrite for_loop_succ by lia. apply Hstep; assumption.
Qed.

(** ** Complex numbers *)

Lemma complex_eq (a b : Complex) :
  real a = real b -> imag a = imag b -> a = b.
Proof. destruct a, b; simpl; intros; subst; reflexivity. Qed.

Ltac complex_ring :=
  apply complex_eq; simpl; try ring.

Lemma cadd_czero_l (a : Complex) : cadd czero a = a.
Proof. complex_ring. Qed.

Lemma cmul_czero_l (a : Complex) : cmul czero a = czero.
Proof. complex_ring. Qed.

Lemma cmul_cone_l (a : Complex) : cmul cone a = a.
Proof. complex_ring. Qed.

Lemma addConjComplexProd_spec (dest a b : Complex) :
  addConjComplexProd dest a b = cadd dest (cmul (getConjugateScalar a) b).
Proof. complex_ring. Qed.

(** ** The mask of the multi-qubit Pauli rotation *)

Lemma multiRotateZ_masks_app (log1 log2 : list KernelCall) :
  multiRotateZ_masks (log1 ++ log2)
  = multiRotateZ_masks log1 ++ multiRotateZ_masks log2.
Proof.
  induction log1 as [| c log1 IH]; simpl; [reflexivity |].
  destruct c; simpl; rewrite IH; reflexivity.
Qed.

Lemma masks_when_compactUnitary (b : bool) (qureg : Qureg) (q : Z)
    (alpha beta : Complex) (log : list KernelCall) :
  multiRotateZ_masks
    (when b (statevec_compactUnitary qureg q alpha beta) log)
  = multiRotateZ_masks log.
Proof.
  destruct b; simpl; [| reflexivity].
  unfold log_call. rewrite multiRotateZ_masks_app. simpl.
  apply app_nil_r.
Qed.

(** The rotation calls [statevec_multiRotateZ] once, with the mask
    [passedMask]. *)
Lemma multiRotatePauli_masks (qureg : Qureg) (targetQubits : list Z)
    (targetPaulis : list pauliOpType) (numTargets : Z) (angle : qreal)
    (applyConj : Z) (log : list KernelCall) :
  0 <= numTargets ->
  multiRotateZ_masks
    (statevec_multiRotatePauli qureg targetQubits targetPaulis numTargets
       angle applyConj log)
  = multiRotateZ_masks log
    ++ [passedMask targetQubits targetPaulis numTargets].
Proof.
  intros Hn. unfold statevec_multiRotatePauli. cbv zeta.
  match goal with
  | |- context [for_loop numTargets ?body (?m0, log)] =>
      assert (Hloop : fst (for_loop numTargets body (m0, log))
                      = passedMask targetQubits targetPaulis numTargets
                      /\ multiRotateZ_masks
                           (snd (for_loop numTargets body (m0, log)))
                         = multiRotateZ_masks log);
      [| destruct (for_loop numTargets body (m0, log)) as [mask st] ]
  end.
  { unfold passedMask.
    generalize (getQubitBitMask targetQubits numTargets). intros m0.
    apply (for_loop_ind (fun n (p : Z * list KernelCall) =>
             fst p = for_loop n (fun t mask =>
                       let p := arr_get targetPaulis t PAULI_I in
                       if pauli_eqb p PAULI_I
                       then ll_sub mask (ll_shl 1 (pauli_code p))
                       else mask) m0
             /\ multiRotateZ_masks (snd p) = multiRotateZ_masks log));
      [ | | exact Hn].
    - rewrite for_loop_nonpos by lia. split; reflexivity.
    - intros n [m st] Hn' [IHm IHs]. simpl fst in IHm. simpl snd in IHs.
      rewrite for_loop_succ by lia. rewrite <- IHm. split.
      + reflexivity.
      + cbv beta iota zeta delta [snd].
        rewrite !masks_when_compactUnitary. exact IHs. }
  destruct Hloop as [Hmask Hlog]. simpl fst in Hmask. simpl snd in Hlog.
  subst mask.
  match goal with
  | |- multiRotateZ_masks (for_loop numTargets ?body ?st0) = _ =>
      assert (Hundo : multiRotateZ_masks (for_loop numTargets body st0)
                      = multiRotateZ_masks st0)
  end.
  { apply (for_loop_ind (fun _ l => multiRotateZ_masks l = _));
      [reflexivity | | exact Hn].
    intros n l Hn' IH. rewrite !masks_when_compactUnitary. exact IH. }
  rewrite Hundo. simpl. unfold log_call.
  rewrite multiRotateZ_masks_app, Hlog. reflexivity.
Qed.

Lemma for_loop_ext {S : Type} (n : Z) (f g : Z -> S -> S) (s : S) :
  (forall i s', 0 <= i < n -> f i s' = g i s') ->
  for_loop n f s = for_loop n g s.
Proof.
  intros Hfg. destruct (Z_lt_le_dec n 0) as [Hneg | Hpos].
  { rewrite !for_loop_nonpos by lia. reflexivity. }
  revert Hfg. pattern n. apply natlike_ind; [ | | exact Hpos].
  - intros _. rewrite !for_loop_nonpos by lia. reflexivity.
  - intros m Hm IH Hfg. change (Z.succ m) with (m + 1).
    rewrite !for_loop_succ by lia.
    rewrite IH by (intros; apply Hfg; lia). apply Hfg. lia.
Qed.

Lemma pauli_eqb_eq (p q : pauliOpType) : pauli_eqb p q = true <-> p = q.
Proof.
  unfold pauli_eqb. rewrite Z.eqb_eq.
  split; [| intros ->; reflexivity].
  destruct p, q; simpl; intros H; try reflexivity; discriminate.
Qed.

(** Where no target is tagged Identity the mask passed is the mask of
    the claim: all the targets. *)
Lemma passedMask_without_identity (targetQubits : list Z)
    (targetPaulis : list pauliOpType) (numTargets : Z) :
  (forall t, 0 <= t < numTargets ->
     arr_get targetPaulis t PAULI_I <> PAULI_I) ->
  passedMask targetQubits targetPaulis numTargets
  = nonIdentityMask targetQubits targetPaulis numTargets.
Proof.
  intros Htags. unfold passedMask, nonIdentityMask.
  transitivity (getQubitBitMask targetQubits numTargets).
  - destruct (Z_lt_le_dec numTargets 0) as [Hneg | Hpos].
    { rewrite for_loop_nonpos by lia. reflexivity. }
    revert Htags. generalize (getQubitBitMask targetQubits numTargets).
    intros m0 Htags.
    rewrite (for_loop_ext numTargets _ (fun _ mask => mask)).
    + apply (for_loop_ind (fun _ m => m = m0));
        [reflexivity | intros; assumption | exact Hpos].
    + intros t m Ht. cbv zeta.
      destruct (pauli_eqb (arr_get targetPaulis t PAULI_I) PAULI_I) eqn:He;
        [| reflexivity].
      apply pauli_eqb_eq in He. exfalso. exact (Htags t Ht He).
  - unfold getQubitBitMask. apply for_loop_ext. intros t m Ht.
    destruct (pauli_eqb (arr_get targetPaulis t PAULI_I) PAULI_I) eqn:He;
      [| reflexivity].
    apply pauli_eqb_eq in He. exfalso. exact (Htags t Ht He).
Qed.

(** C1 (the code departs from the claim).  On the targets [0; 1] tagged
    [Z; Identity] the rotation passes the mask 2 to
    [statevec_multiRotateZ]: the bit of the Identity-tagged qubit 1, where
    the mask of the non-Identity targets is 1, the bit of qubit 0.  The
    loop subtracts [1 << targetPaulis[t]], which is [1 << 0], instead of
    [1 << targetQubits[t]]. *)
Theorem multiRotatePauli_mask_at_Z_I (qureg : Qureg) (angle : qreal) :
  multiRotateZ_masks
    (statevec_multiRotatePauli qureg [0; 1] [PAULI_Z; PAULI_I] 2 angle 0 [])
    = [2]
  /\ nonIdentityMask [0; 1] [PAULI_Z; PAULI_I] 2 = 1.
Proof. split; reflexivity. Qed.

(** ** Outcome sampler *)

Section OutcomeSamplerProofs.
Local Open Scope R_scope.

Variable REAL_EPS : qreal.
Variable RngState : Type.
Variable genrand_real1 : RngState -> qreal * RngState.

Local Abbreviation sample :=
  (generateMeasurementOutcome REAL_EPS RngState genrand_real1).

Lemma sample_forced_one (zeroProb : qreal) (rng : RngState) :
  zeroProb < REAL_EPS -> sample zeroProb rng = (1%Z, 1 - zeroProb, rng).
Proof.
  intros H. unfold sample, generateMeasurementOutcome.
  destruct (Rlt_dec zeroProb REAL_EPS); [reflexivity | contradiction].
Qed.

Lemma sample_forced_zero (zeroProb : qreal) (rng : RngState) :
  ~ zeroProb < REAL_EPS -> 1 - zeroProb < REAL_EPS ->
  sample zeroProb rng = (0%Z, zeroProb, rng).
Proof.
  intros H0 H1. unfold sample, generateMeasurementOutcome.
  destruct (Rlt_dec zeroProb REAL_EPS); [contradiction |].
  destruct (Rlt_dec (1 - zeroProb) REAL_EPS); [reflexivity | contradiction].
Qed.

Lemma sample_drawn (zeroProb : qreal) (rng : RngState) :
  ~ zeroProb < REAL_EPS -> ~ 1 - zeroProb < REAL_EPS ->
  sample zeroProb rng =
    (if Rgt_dec (fst (genrand_real1 rng)) zeroProb
     then (1%Z, 1 - zeroProb) else (0%Z, zeroProb),
     snd (genrand_real1 rng)).
Proof.
  intros H0 H1. unfold sample, generateMeasurementOutcome.
  destruct (Rlt_dec zeroProb REAL_EPS); [contradiction |].
  destruct (Rlt_dec (1 - zeroProb) REAL_EPS); [contradiction |].
  destruct (genrand_real1 rng) as [r rng']. simpl.
  destruct (Rgt_dec r zeroProb); reflexivity.
Qed.

(** C5.  With a machine epsilon [0 < REAL_EPS <= 1/2]: a [zeroProb]
    within epsilon of 0 gives outcome 1, one within epsilon of 1 gives
    outcome 0, both with the generator left as it was; at exactly 1 the
    result is outcome 0 with probability 1 and at exactly 0 it is outcome
    1 with probability 1, whatever the generator's state; every other
    probability in [0,1] takes one draw [r] from the generator and gives
    outcome 1 exactly when [r > zeroProb]. *)
Theorem generateMeasurementOutcome_spec (zeroProb : qreal) (rng : RngState) :
  0 < REAL_EPS <= 1 / 2 ->
  (Rabs (zeroProb - 0) < REAL_EPS ->
     generateMeasurementOutcome REAL_EPS RngState genrand_real1 zeroProb rng
     = (1%Z, 1 - zeroProb, rng))
  /\ (Rabs (zeroProb - 1) < REAL_EPS ->
     generateMeasurementOutcome REAL_EPS RngState genrand_real1 zeroProb rng
     = (0%Z, zeroProb, rng))
  /\ generateMeasurementOutcome REAL_EPS RngState genrand_real1 1 rng
     = (0%Z, 1, rng)
  /\ generateMeasurementOutcome REAL_EPS RngState genrand_real1 0 rng
     = (1%Z, 1, rng)
  /\ (0 <= zeroProb <= 1 ->
      ~ Rabs (zeroProb - 0) < REAL_EPS ->
      ~ Rabs (zeroProb - 1) < REAL_EPS ->
      generateMeasurementOutcome REAL_EPS RngState genrand_real1 zeroProb rng
      = (if Rgt_dec (fst (genrand_real1 rng)) zeroProb
         then (1%Z, 1 - zeroProb) else (0%Z, zeroProb),
         snd (genrand_real1 rng))).
Proof.
  intros [Hpos Hhalf]. repeat split.
  - intros H. apply sample_forced_one.
    apply Rabs_def2 in H. lra.
  - intros H. apply Rabs_def2 in H.
    apply sample_forced_zero; lra.
  - rewrite sample_forced_zero; [reflexivity | lra | lra].
  - rewrite sample_forced_one by lra. do 2 f_equal. lra.
  - intros Hr H0 H1. apply sample_drawn.
    + intros Hlt. apply H0. apply Rabs_def1; lra.
    + intros Hlt. apply H1. apply Rabs_def1; lra.
Qed.

End OutcomeSamplerProofs.

(** The sampler of a generator that replays a fixed list of draws, at
    double precision's [REAL_EPS = 1e-13]. *)
Lemma generateMeasurementOutcome_spec_witness :
  (0 < / 10 ^ 13 <= 1 / 2)%R
  /\ generateMeasurementOutcome (/ 10 ^ 13)%R (list R)
       (fun l => (hd 0%R l, tl l)) 1%R [0.25%R; 0.75%R]
     = (0, 1%R, [0.25%R; 0.75%R]).
Proof.
  assert (H : (0 < / 10 ^ 13 <= 1 / 2)%R).
  { split.
    - apply Rinv_0_lt_compat. lra.
    - apply Rmult_le_reg_l with (r := (10 ^ 13)%R); [lra |].
      rewrite Rinv_r by lra. lra. }
  split; [exact H |].
  exact (proj1 (proj2 (proj2
    (generateMeasurementOutcome_spec (/ 10 ^ 13)%R (list R)
       (fun l => (hd 0%R l, tl l)) 1%R [0.25%R; 0.75%R] H)))).
Defined.

(** ** Rotation codec *)

Section RotationCodecProofs.
Local Open Scope R_scope.

Lemma magnitude_sqr (vec : Vector) :
  getVectorMagnitude vec * getVectorMagnitude vec
  = x vec * x vec + y vec * y vec + z vec * z vec.
Proof.
  unfold getVectorMagnitude. apply sqrt_sqrt. nra.
Qed.

Lemma magnitude_pos (vec : Vector) :
  x vec <> 0 \/ y vec <> 0 \/ z vec <> 0 -> 0 < getVectorMagnitude vec.
Proof.
  intros H. unfold getVectorMagnitude. apply sqrt_lt_R0.
  destruct H as [H | [H | H]]; nra.
Qed.

Lemma getUnitVector_unit (vec : Vector) :
  x vec <> 0 \/ y vec <> 0 \/ z vec <> 0 ->
  let u := getUnitVector vec in
  x u * x u + y u * y u + z u * z u = 1.
Proof.
  intros H. pose proof (magnitude_pos vec H) as Hpos.
  pose proof (magnitude_sqr vec) as Hsq.
  simpl. set (m := getVectorMagnitude vec) in *.
  replace (x vec / m * (x vec / m) + y vec / m * (y vec / m)
           + z vec / m * (z vec / m))
    with ((x vec * x vec + y vec * y vec + z vec * z vec) / (m * m))
    by (field; lra).
  rewrite <- Hsq. field. lra.
Qed.

(** C6.  For an axis that is not the zero vector, with [a] the axis
    divided by its length sqrt(x^2 + y^2 + z^2), the encoder gives
    alpha = cos(angle/2) - i sin(angle/2) a_z and
    beta = sin(angle/2) a_y - i sin(angle/2) a_x; [a] has length 1 and
    |alpha|^2 + |beta|^2 = 1. *)
Theorem getComplexPairFromRotation_spec (angle : qreal) (axis : Vector) :
  x axis <> 0 \/ y axis <> 0 \/ z axis <> 0 ->
  let len := sqrt (x axis * x axis + y axis * y axis + z axis * z axis) in
  let a := mkVector (x axis / len) (y axis / len) (z axis / len) in
  let '(alpha, beta) := getComplexPairFromRotation angle axis in
  alpha = mkComplex (cos (angle / 2)) (- (sin (angle / 2) * z a))
  /\ beta = mkComplex (sin (angle / 2) * y a) (- (sin (angle / 2) * x a))
  /\ x a * x a + y a * y a + z a * z a = 1
  /\ cnorm2 alpha + cnorm2 beta = 1.
Proof.
  intros H len a. pose proof (getUnitVector_unit axis H) as Hu.
  cbv zeta in Hu. unfold getComplexPairFromRotation. cbv zeta.
  change (getUnitVector axis) with a in Hu |- *. clearbody a. clear len.
  split; [complex_ring |].
  split; [complex_ring |].
  split; [exact Hu |].
  unfold cnorm2. simpl.
  pose proof (sin2_cos2 (angle / 2)) as Hsc. unfold Rsqr in Hsc.
  set (s := sin (angle / 2)) in *. set (c := cos (angle / 2)) in *.
  transitivity (c * c + s * s * (x a * x a + y a * y a + z a * z a)).
  - ring.
  - rewrite Hu. lra.
Qed.

Lemma getComplexPairFromRotation_spec_witness :
  let len := sqrt (0 * 0 + 0 * 0 + 2 * 2) in
  let a := mkVector (0 / len) (0 / len) (2 / len) in
  let '(alpha, beta) := getComplexPairFromRotation PI (mkVector 0 0 2) in
  alpha = mkComplex (cos (PI / 2)) (- (sin (PI / 2) * z a))
  /\ beta = mkComplex (sin (PI / 2) * y a) (- (sin (PI / 2) * x a))
  /\ x a * x a + y a * y a + z a * z a = 1
  /\ cnorm2 alpha + cnorm2 beta = 1.
Proof.
  apply (getComplexPairFromRotation_spec PI (mkVector 0 0 2)).
  right. right. simpl. lra.
Defined.

End RotationCodecProofs.

(** *** Phases *)

Section PhaseProofs.
Local Open Scope R_scope.

Lemma sqrt_one_plus_sqr_pos (t : R) : 0 < sqrt (1 + t²).
Proof. apply sqrt_lt_R0. unfold Rsqr. nra. Qed.

Lemma magnitude_right (re im : R) :
  0 < re -> sqrt (re * re + im * im) = re * sqrt (1 + (im / re)²).
Proof.
  intros Hre. pose proof (sqrt_one_plus_sqr_pos (im / re)) as Hs.
  apply sqrt_lem_1; [nra | nra |].
  replace (re * sqrt (1 + (im / re)²) * (re * sqrt (1 + (im / re)²)))
    with (re * re * (sqrt (1 + (im / re)²) * sqrt (1 + (im / re)²))) by ring.
  rewrite sqrt_sqrt by (unfold Rsqr; nra).
  unfold Rsqr. field. lra.
Qed.

Lemma magnitude_left (re im : R) :
  re < 0 -> sqrt (re * re + im * im) = - re * sqrt (1 + (im / re)²).
Proof.
  intros Hre. pose proof (sqrt_one_plus_sqr_pos (im / re)) as Hs.
  apply sqrt_lem_1; [nra | nra |].
  replace (- re * sqrt (1 + (im / re)²) * (- re * sqrt (1 + (im / re)²)))
    with (re * re * (sqrt (1 + (im / re)²) * sqrt (1 + (im / re)²))) by ring.
  rewrite sqrt_sqrt by (unfold Rsqr; nra).
  unfold Rsqr. field. lra.
Qed.

(** [atan2] gives the polar angle: a complex number is its magnitude
    times exp(i phase). *)
Lemma atan2_polar (re im : R) :
  sqrt (re * re + im * im) * cos (atan2 im re) = re
  /\ sqrt (re * re + im * im) * sin (atan2 im re) = im.
Proof.
  unfold atan2.
  destruct (Rlt_dec 0 re) as [Hpos | Hnpos].
  - rewrite magnitude_right by assumption.
    rewrite cos_atan, sin_atan.
    pose proof (sqrt_one_plus_sqr_pos (im / re)).
    split; field; lra.
  - destruct (Rlt_dec re 0) as [Hneg | Hnneg].
    + rewrite magnitude_left by assumption.
      pose proof (sqrt_one_plus_sqr_pos (im / re)).
      destruct (Rle_dec 0 im).
      * rewrite neg_cos, neg_sin, cos_atan, sin_atan. split; field; lra.
      * rewrite cos_minus, sin_minus, cos_PI, sin_PI, cos_atan, sin_atan.
        split; field; lra.
    + assert (re = 0) by lra. subst re.
      destruct (Rlt_dec 0 im) as [Hip | Hnip].
      * rewrite cos_PI2, sin_PI2.
        replace (0 * 0 + im * im) with (im * im) by ring.
        rewrite sqrt_square by lra. lra.
      * destruct (Rlt_dec im 0) as [Hin | Hnin].
        -- rewrite cos_neg, sin_neg, cos_PI2, sin_PI2.
           replace (0 * 0 + im * im) with (- im * - im) by ring.
           rewrite sqrt_square by lra. lra.
        -- assert (im = 0) by lra. subst im.
           replace (0 * 0 + 0 * 0) with 0 by ring.
           rewrite sqrt_0. lra.
Qed.

Lemma atan2_origin : atan2 0 0 = 0.
Proof.
  unfold atan2.
  destruct (Rlt_dec 0 0); [lra |].
  destruct (Rlt_dec 0 0); [lra |]. reflexivity.
Qed.

End PhaseProofs.

(** *** The ZYZ decoder *)

Section ZYZProofs.
Local Open Scope R_scope.

Lemma Rz_entries (angle : qreal) :
  Rz angle = mkComplexMatrix2
               (mkComplex (cos (angle / 2)) (- sin (angle / 2))) czero
               czero (mkComplex (cos (angle / 2)) (sin (angle / 2))).
Proof.
  unfold Rz, rotationMatrix, getComplexPairFromRotation, getUnitVector,
    getVectorMagnitude, compactMatrix, getConjugateScalar, copp, czero.
  simpl.
  replace (0 * 0 + 0 * 0 + 1 * 1) with 1 by ring. rewrite sqrt_1.
  f_equal; apply complex_eq; simpl; field.
Qed.

Lemma Ry_entries (angle : qreal) :
  Ry angle = mkComplexMatrix2
               (mkComplex (cos (angle / 2)) 0)
               (mkComplex (- sin (angle / 2)) 0)
               (mkComplex (sin (angle / 2)) 0)
               (mkComplex (cos (angle / 2)) 0).
Proof.
  unfold Ry, rotationMatrix, getComplexPairFromRotation, getUnitVector,
    getVectorMagnitude, compactMatrix, getConjugateScalar, copp.
  simpl.
  replace (0 * 0 + 1 * 1 + 0 * 0) with 1 by ring. rewrite sqrt_1.
  f_equal; apply complex_eq; simpl; field.
Qed.

(** The product Rz Ry Rz in terms of the cosines and sines of the half
    angles, against the polar form of the pair. *)
Lemma zyz_algebra (ar ai br bi A B ca sa cb sb cP sP cQ sQ : R) :
  A * ca = ar -> A * sa = ai -> B * cb = br -> B * sb = bi ->
  cP * cQ - sP * sQ = ca -> sP * cQ + cP * sQ = - sa ->
  cP * cQ + sP * sQ = cb -> sP * cQ - cP * sQ = sb ->
  mat2_mul
    (mkComplexMatrix2 (mkComplex cP (- sP)) czero czero (mkComplex cP sP))
    (mat2_mul
       (mkComplexMatrix2 (mkComplex A 0) (mkComplex (- B) 0)
                         (mkComplex B 0) (mkComplex A 0))
       (mkComplexMatrix2 (mkComplex cQ (- sQ)) czero czero (mkComplex cQ sQ)))
  = compactMatrix (mkComplex ar ai) (mkComplex br bi).
Proof.
  intros <- Hai <- <- <- Hsa <- <-.
  assert (Hai' : ai = - A * (sP * cQ + cP * sQ)) by (rewrite Hsa, <- Hai; ring).
  clear Hai. subst ai.
  unfold mat2_mul, compactMatrix, getConjugateScalar, copp, cadd, cmul, czero.
  simpl. f_equal; apply complex_eq; simpl; ring.
Qed.

Lemma cnorm2_nonneg (c : Complex) : 0 <= cnorm2 c.
Proof. unfold cnorm2. nra. Qed.

Lemma mat2_scale_phase0 (u : ComplexMatrix2) : mat2_scale (cexpi 0) u = u.
Proof.
  unfold mat2_scale, cexpi. rewrite cos_0, sin_0.
  destruct u as [a b c d]. simpl. f_equal; complex_ring.
Qed.

(** The decoder's angles rebuild the operator of the pair exactly. *)
Lemma getZYZRotAnglesFromComplexPair_exact (alpha beta : Complex) :
  cnorm2 alpha + cnorm2 beta = 1 ->
  let '(rz2, ry, rz1) := getZYZRotAnglesFromComplexPair alpha beta in
  mat2_mul (Rz rz2) (mat2_mul (Ry ry) (Rz rz1)) = compactMatrix alpha beta.
Proof.
  intros Hnorm. unfold getZYZRotAnglesFromComplexPair. cbv zeta.
  rewrite !Rz_entries, Ry_entries.
  pose proof (cnorm2_nonneg alpha) as Hna.
  pose proof (cnorm2_nonneg beta) as Hnb.
  destruct alpha as [ar ai], beta as [br bi]. unfold cnorm2 in *. simpl in *.
  destruct (atan2_polar ar ai) as [Har Hai].
  destruct (atan2_polar br bi) as [Hbr Hbi].
  set (A := sqrt (ar * ar + ai * ai)) in *.
  set (B := sqrt (br * br + bi * bi)) in *.
  set (a := atan2 ai ar) in *. set (b := atan2 bi br) in *.
  assert (HA : 0 <= A <= 1).
  { split; [apply sqrt_pos |].
    rewrite <- sqrt_1. apply sqrt_le_1_alt. lra. }
  assert (HAA : A * A = ar * ar + ai * ai) by (apply sqrt_sqrt; lra).
  replace (2 * acos A / 2) with (acos A) by field.
  rewrite cos_acos by lra. rewrite sin_acos by lra.
  replace (1 - A²) with (br * br + bi * bi) by (unfold Rsqr; lra).
  fold B.
  apply zyz_algebra with (ca := cos a) (sa := sin a) (cb := cos b)
                         (sb := sin b); try assumption.
  - rewrite <- cos_plus.
    replace ((- a + b) / 2 + (- a - b) / 2) with (- a) by field.
    apply cos_neg.
  - rewrite <- sin_plus.
    replace ((- a + b) / 2 + (- a - b) / 2) with (- a) by field.
    apply sin_neg.
  - rewrite <- cos_minus.
    replace ((- a + b) / 2 - (- a - b) / 2) with b by field. reflexivity.
  - rewrite <- sin_minus.
    replace ((- a + b) / 2 - (- a - b) / 2) with b by field. reflexivity.
Qed.

(** C7.  For a pair with |alpha|^2 + |beta|^2 = 1 the decoder returns
    ry = 2 acos |alpha|, rz2 = -phase(alpha) + phase(beta) and
    rz1 = -phase(alpha) - phase(beta), and U(alpha, beta) is
    Rz(rz2) Ry(ry) Rz(rz1) up to a global phase (the phase factor is 1),
    with Rz and Ry the operators of [statevec_rotateZ] and
    [statevec_rotateY]. *)
Theorem getZYZRotAnglesFromComplexPair_spec (alpha beta : Complex) :
  cnorm2 alpha + cnorm2 beta = 1 ->
  let '(rz2, ry, rz1) := getZYZRotAnglesFromComplexPair alpha beta in
  ry = 2 * acos (sqrt (cnorm2 alpha))
  /\ rz2 = - phase alpha + phase beta
  /\ rz1 = - phase alpha - phase beta
  /\ equalUpToPhase2 (compactMatrix alpha beta)
       (mat2_mul (Rz rz2) (mat2_mul (Ry ry) (Rz rz1))).
Proof.
  intros Hnorm.
  pose proof (getZYZRotAnglesFromComplexPair_exact alpha beta Hnorm) as Hex.
  unfold getZYZRotAnglesFromComplexPair in *. cbv zeta in *.
  split; [reflexivity |]. split; [reflexivity |]. split; [reflexivity |].
  exists 0. rewrite Hex. symmetry. apply mat2_scale_phase0.
Qed.

Lemma getZYZRotAnglesFromComplexPair_spec_witness :
  cnorm2 cone + cnorm2 czero = 1
  /\ equalUpToPhase2 (compactMatrix cone czero)
       (mat2_mul (Rz (- phase cone + phase czero))
          (mat2_mul (Ry (2 * acos (sqrt (cnorm2 cone))))
                    (Rz (- phase cone - phase czero)))).
Proof.
  assert (H : cnorm2 cone + cnorm2 czero = 1) by (unfold cnorm2; simpl; ring).
  split; [exact H |].
  exact (proj2 (proj2 (proj2
    (getZYZRotAnglesFromComplexPair_spec cone czero H)))).
Defined.

End ZYZProofs.

(** *** The unitary factorization *)

Section FactorizationProofs.
Local Open Scope R_scope.

Lemma pauliXMatrix_unitary : isUnitary2 pauliXMatrix.
Proof.
  unfold isUnitary2, mat2_mul, mat2_dagger, pauliXMatrix, identity2.
  simpl. f_equal; complex_ring.
Qed.

Lemma factorization_of_pauliX :
  getComplexPairAndPhaseFromUnitary pauliXMatrix = (czero, cone, 0).
Proof.
  unfold getComplexPairAndPhaseFromUnitary. cbv zeta. simpl.
  rewrite atan2_origin.
  replace ((0 + 0) / 2) with 0 by field.
  rewrite cos_0, sin_0.
  do 2 f_equal; complex_ring.
Qed.

(** C8 (the code departs from the claim).  Pauli X is unitary and both
    its diagonal entries are 0: their phases are 0, the global phase is 0,
    the pair is (0, 1), and the reconstruction
    exp(i 0) [[0, -conj(1)], [1, conj(0)]] has -1 where X has 1. *)
Theorem getComplexPairAndPhaseFromUnitary_pauliX :
  isUnitary2 pauliXMatrix
  /\ let '(alpha, beta, globalPhase) :=
       getComplexPairAndPhaseFromUnitary pauliXMatrix in
     globalPhase = (phase (r0c0 pauliXMatrix) + phase (r1c1 pauliXMatrix)) / 2
     /\ reconstructUnitary alpha beta globalPhase
        = mkComplexMatrix2 czero (mkComplex (-1) 0) cone czero
     /\ reconstructUnitary alpha beta globalPhase <> pauliXMatrix.
Proof.
  split; [apply pauliXMatrix_unitary |].
  rewrite factorization_of_pauliX.
  assert (Hrec : reconstructUnitary czero cone 0
                 = mkComplexMatrix2 czero (mkComplex (-1) 0) cone czero).
  { unfold reconstructUnitary. rewrite mat2_scale_phase0.
    unfold compactMatrix, getConjugateScalar, copp, czero, cone. simpl.
    f_equal; complex_ring. }
  split.
  - unfold phase. simpl. rewrite atan2_origin. field.
  - split; [exact Hrec |].
    rewrite Hrec. unfold pauliXMatrix, cone. intros Heq.
    injection Heq as Heq. lra.
Qed.

End FactorizationProofs.

(** *** The factorization away from a zero diagonal *)

Section FactorizationRoundTrip.
Local Open Scope R_scope.

(** The real identities behind the round trip: with m2 = |a|^2 > 0,
    E = exp(2 i phi) such that m2 E = a d, and the first column of U
    orthogonal to the second. *)
Lemma roundtrip_algebra (ar ai br bi cr ci dr di Er Ei : R) :
  0 < ar * ar + ai * ai ->
  (ar * ar + ai * ai) * Er = ar * dr - ai * di ->
  (ar * ar + ai * ai) * Ei = ai * dr + ar * di ->
  ar * br + ai * bi + (cr * dr + ci * di) = 0 ->
  ar * bi - ai * br + (cr * di - ci * dr) = 0 ->
  dr = Er * ar + Ei * ai /\ di = Ei * ar - Er * ai
  /\ br = - (Er * cr + Ei * ci) /\ bi = - (Ei * cr - Er * ci).
Proof.
  intros Hm HEr HEi Hre Him.
  set (m2 := ar * ar + ai * ai) in *.
  assert (Hm2 : m2 <> 0) by lra.
  repeat split; apply (Rmult_eq_reg_l m2); try exact Hm2.
  - transitivity (m2 * Er * ar + m2 * Ei * ai); [| ring].
    rewrite HEr, HEi. unfold m2. ring.
  - transitivity (m2 * Ei * ar - m2 * Er * ai); [| ring].
    rewrite HEr, HEi. unfold m2. ring.
  - transitivity (- (m2 * Er * cr + m2 * Ei * ci)); [| ring].
    rewrite HEr, HEi.
    transitivity (ar * (ar * br + ai * bi) - ai * (ar * bi - ai * br));
      [unfold m2; ring |].
    replace (ar * br + ai * bi) with (- (cr * dr + ci * di)) by lra.
    replace (ar * bi - ai * br) with (- (cr * di - ci * dr)) by lra.
    ring.
  - transitivity (- (m2 * Ei * cr - m2 * Er * ci)); [| ring].
    rewrite HEr, HEi.
    transitivity (ar * (ar * bi - ai * br) + ai * (ar * br + ai * bi));
      [unfold m2; ring |].
    replace (ar * br + ai * bi) with (- (cr * dr + ci * di)) by lra.
    replace (ar * bi - ai * br) with (- (cr * di - ci * dr)) by lra.
    ring.
Qed.

(** In a unitary the two diagonal entries have the same magnitude. *)
Lemma unitary_diagonal_norm (ar ai br bi cr ci dr di : R) :
  ar * ar + ai * ai + (cr * cr + ci * ci) = 1 ->
  br * br + bi * bi + (dr * dr + di * di) = 1 ->
  ar * br + ai * bi + (cr * dr + ci * di) = 0 ->
  ar * bi - ai * br + (cr * di - ci * dr) = 0 ->
  ar * ar + ai * ai = dr * dr + di * di.
Proof.
  intros H1 H4 Hre Him.
  assert (Hab : (ar * ar + ai * ai) * (br * br + bi * bi)
                = (cr * cr + ci * ci) * (dr * dr + di * di)).
  { transitivity ((ar * br + ai * bi) * (ar * br + ai * bi)
                  + (ar * bi - ai * br) * (ar * bi - ai * br)); [ring |].
    replace (ar * br + ai * bi) with (- (cr * dr + ci * di)) by lra.
    replace (ar * bi - ai * br) with (- (cr * di - ci * dr)) by lra.
    ring. }
  replace (br * br + bi * bi) with (1 - (dr * dr + di * di)) in Hab by lra.
  replace (cr * cr + ci * ci) with (1 - (ar * ar + ai * ai)) in Hab by lra.
  lra.
Qed.

(** For a unitary whose entry U00 is not 0 the factorization followed
    by the reconstruction gives U back. *)
Lemma getComplexPairAndPhaseFromUnitary_roundtrip (u : ComplexMatrix2) :
  isUnitary2 u -> r0c0 u <> czero ->
  let '(alpha, beta, globalPhase) := getComplexPairAndPhaseFromUnitary u in
  reconstructUnitary alpha beta globalPhase = u.
Proof.
  intros Hu Hnz. unfold isUnitary2, mat2_mul, mat2_dagger, identity2 in Hu.
  destruct u as [[ar ai] [br bi] [cr ci] [dr di]].
  unfold cone, czero, cadd, cmul, getConjugateScalar in Hu. simpl in Hu.
  injection Hu as H00r H00i H01r H01i H10r H10i H11r H11i.
  assert (Hm : 0 < ar * ar + ai * ai).
  { destruct (Req_dec ar 0) as [-> | Har];
      [destruct (Req_dec ai 0) as [-> | Hai] |]; [| nra | nra].
    exfalso. apply Hnz. reflexivity. }
  assert (Hnorm : ar * ar + ai * ai = dr * dr + di * di).
  { apply (unitary_diagonal_norm ar ai br bi cr ci dr di); lra. }
  unfold getComplexPairAndPhaseFromUnitary. cbv zeta. simpl.
  destruct (atan2_polar ar ai) as [Hpar Hpai].
  destruct (atan2_polar dr di) as [Hpdr Hpdi].
  rewrite <- Hnorm in Hpdr, Hpdi.
  assert (Hmm : sqrt (ar * ar + ai * ai) * sqrt (ar * ar + ai * ai)
                = ar * ar + ai * ai) by (apply sqrt_sqrt; lra).
  set (m := sqrt (ar * ar + ai * ai)) in *.
  set (pa := atan2 ai ar) in *. set (pd := atan2 di dr) in *.
  set (phi := (pa + pd) / 2).
  pose proof (sin2_cos2 phi) as Hsc. unfold Rsqr in Hsc.
  assert (Hc2 : cos phi * cos phi - sin phi * sin phi
                = cos pa * cos pd - sin pa * sin pd).
  { rewrite <- cos_2a, <- cos_plus. f_equal. unfold phi. field. }
  assert (Hs2 : 2 * sin phi * cos phi = sin pa * cos pd + cos pa * sin pd).
  { rewrite <- sin_2a, <- sin_plus. f_equal. unfold phi. field. }
  destruct (roundtrip_algebra ar ai br bi cr ci dr di
              (cos phi * cos phi - sin phi * sin phi)
              (2 * sin phi * cos phi))
    as [Hdr [Hdi [Hbr Hbi]]]; try lra.
  { rewrite Hc2, <- Hmm, <- Hpar, <- Hpai, <- Hpdr, <- Hpdi. ring. }
  { rewrite Hs2, <- Hmm, <- Hpar, <- Hpai, <- Hpdr, <- Hpdi. ring. }
  unfold reconstructUnitary, mat2_scale, compactMatrix, cexpi,
    getConjugateScalar, copp, cmul. simpl.
  set (c := cos phi) in *. set (s := sin phi) in *.
  assert (Hone : c * c + s * s = 1) by lra.
  f_equal; apply complex_eq; simpl.
  - transitivity (ar * (c * c + s * s)); [ring | rewrite Hone; ring].
  - transitivity (ai * (c * c + s * s)); [ring | rewrite Hone; ring].
  - rewrite Hbr. ring.
  - rewrite Hbi. ring.
  - transitivity (cr * (c * c + s * s)); [ring | rewrite Hone; ring].
  - transitivity (ci * (c * c + s * s)); [ring | rewrite Hone; ring].
  - rewrite Hdr. ring.
  - rewrite Hdi. ring.
Qed.

End FactorizationRoundTrip.

(** ** Superoperator builder *)

Section SuperoperatorProofs.
Local Open Scope Z_scope.

Lemma csum_succ (n : Z) (f : Z -> Complex) :
  0 <= n -> csum (n + 1) f = cadd (csum n f) (f n).
Proof. intros Hn. unfold csum. rewrite for_loop_succ by lia. reflexivity. Qed.

Lemma csum_nonpos (n : Z) (f : Z -> Complex) : n <= 0 -> csum n f = czero.
Proof. intros Hn. unfold csum. apply for_loop_nonpos. exact Hn. Qed.

Ltac split_index i :=
  let H := fresh in
  assert (H : i = 0 \/ i = 1) by lia; destruct H; subst i.

Lemma getOneQubitKrausSuperoperator_entry (ops : list ComplexMatrix2)
    (numOps i j k l : Z) :
  0 <= i < 2 -> 0 <= j < 2 -> 0 <= k < 2 -> 0 <= l < 2 ->
  mat4_get (getOneQubitKrausSuperoperator ops numOps) (i * 2 + k) (j * 2 + l)
  = tensorSumEntry mat2_at zeroMatrix2 ops numOps i j k l.
Proof.
  intros Hi Hj Hk Hl. unfold tensorSumEntry.
  destruct (Z_lt_le_dec numOps 0) as [Hneg | Hpos].
  { unfold getOneQubitKrausSuperoperator.
    rewrite for_loop_nonpos, csum_nonpos by lia.
    split_index i; split_index j; split_index k; split_index l; reflexivity. }
  revert i j k l Hi Hj Hk Hl. pattern numOps.
  apply natlike_ind; [ | | exact Hpos].
  - intros i j k l Hi Hj Hk Hl. rewrite csum_nonpos by lia.
    split_index i; split_index j; split_index k; split_index l; reflexivity.
  - intros n Hn IH i j k l Hi Hj Hk Hl. change (Z.succ n) with (n + 1).
    rewrite csum_succ by lia. rewrite <- (IH i j k l Hi Hj Hk Hl).
    unfold getOneQubitKrausSuperoperator. rewrite for_loop_succ by lia.
    cbv zeta.
    split_index i; split_index j; split_index k; split_index l;
      apply addConjComplexProd_spec.
Qed.

End SuperoperatorProofs.

(** *** Arrays *)

Section ArrayProofs.

Lemma list_set_length {A : Type} (l : list A) (i : nat) (v : A) :
  length (list_set l i v) = length l.
Proof.
  revert i. induction l as [| h t IH]; intros [| i]; simpl; auto.
Qed.

Lemma nth_list_set {A : Type} (l : list A) (i j : nat) (v d : A) :
  (i < length l)%nat ->
  nth j (list_set l i v) d = if Nat.eqb j i then v else nth j l d.
Proof.
  revert i j. induction l as [| h t IH]; intros i j Hi; simpl in Hi.
  - lia.
  - destruct i as [| i], j as [| j]; simpl; auto.
    apply IH. lia.
Qed.

Lemma squareOf_row (n : nat) (e : list (list Complex)) (r : nat) :
  squareOf n e -> (r < n)%nat -> length (nth r e []) = n.
Proof.
  intros [Hlen Hrows] Hr. rewrite Forall_forall in Hrows.
  apply Hrows. apply nth_In. lia.
Qed.

Lemma elem_set_square (n : nat) (e : list (list Complex)) (r c : Z)
    (v : Complex) :
  squareOf n e -> 0 <= r < Z.of_nat n -> squareOf n (elem_set e r c v).
Proof.
  intros Hsq Hr. pose proof Hsq as [Hlen Hrows]. unfold elem_set. split.
  - rewrite list_set_length. exact Hlen.
  - rewrite Forall_forall. intros row Hin.
    destruct (In_nth _ _ [] Hin) as [m [Hm Hrow]].
    rewrite list_set_length in Hm.
    rewrite nth_list_set in Hrow by lia.
    destruct (Nat.eqb_spec m (Z.to_nat r)).
    + subst row. rewrite list_set_length. unfold arr_get.
      apply squareOf_row; [exact Hsq | lia].
    + subst row. apply squareOf_row; [exact Hsq | lia].
Qed.

Lemma elem_get_set (n : nat) (e : list (list Complex)) (r c r' c' : Z)
    (v : Complex) :
  squareOf n e ->
  0 <= r < Z.of_nat n -> 0 <= c < Z.of_nat n -> 0 <= r' -> 0 <= c' ->
  elem_get (elem_set e r c v) r' c'
  = if (r =? r') && (c =? c') then v else elem_get e r' c'.
Proof.
  intros Hsq Hr Hc Hr' Hc'. pose proof Hsq as [Hlen Hrows].
  unfold elem_get, elem_set, arr_get.
  rewrite nth_list_set by lia.
  destruct (Nat.eqb_spec (Z.to_nat r') (Z.to_nat r)) as [Heq | Hne].
  - assert (r' = r) by lia. subst r'. rewrite Z.eqb_refl. simpl.
    rewrite nth_list_set
      by (rewrite (squareOf_row n e (Z.to_nat r) Hsq); lia).
    destruct (Nat.eqb_spec (Z.to_nat c') (Z.to_nat c)) as [Heqc | Hnec].
    + assert (c' = c) by lia. subst c'. rewrite Z.eqb_refl. reflexivity.
    + destruct (Z.eqb_spec c c'); [lia | reflexivity].
  - destruct (Z.eqb_spec r r'); [lia | reflexivity].
Qed.

End ArrayProofs.

(** *** The two-qubit superoperator *)

Section TwoQubitSuperoperatorProofs.
Local Open Scope Z_scope.

Lemma nest4 {S : Type} (body : Z -> Z -> Z -> Z -> S -> S) (s : S) :
  for_loop 4 (fun i =>
    for_loop 4 (fun j =>
      for_loop 4 (fun k =>
        for_loop 4 (fun l => body i j k l)))) s
  = fold_left (fun s '(i, j, k, l) => body i j k l s) quads s.
Proof. reflexivity. Qed.

Lemma fold_left_ext {A B : Type} (f g : A -> B -> A) (l : list B) (a : A) :
  (forall a b, f a b = g a b) -> fold_left f l a = fold_left g l a.
Proof.
  intros Hfg. revert a. induction l as [| b l IH]; intros a; simpl.
  - reflexivity.
  - rewrite Hfg. apply IH.
Qed.

Lemma populate_as_fold (superOp : ComplexMatrixN) (ops : list ComplexMatrix4)
    (numOps : Z) :
  populateTwoQubitKrausSuperoperator superOp ops numOps
  = for_loop numOps (fun n superOp =>
      fold_left (fun s q =>
        mkComplexMatrixN (numQubits s) (numRows s)
          (krausStep (opArr4 (arr_get ops n zeroMatrix4)) (elems s) q))
        quads superOp) superOp.
Proof.
  unfold populateTwoQubitKrausSuperoperator.
  unfold for_loop at 1 6. apply fold_left_ext. intros s n. cbv zeta.
  rewrite (nest4 (fun i j k l superOp =>
    mkComplexMatrixN (numQubits superOp) (numRows superOp)
      (elem_set (elems superOp) (i * 4 + k) (j * 4 + l)
         (addConjComplexProd (elem_get (elems superOp) (i * 4 + k) (j * 4 + l))
            (elem_get (opArr4 (arr_get ops (Z.of_nat n) zeroMatrix4)) i j)
            (elem_get (opArr4 (arr_get ops (Z.of_nat n) zeroMatrix4)) k l))))).
  apply fold_left_ext. intros a [[[i j] k] l]. reflexivity.
Qed.

Lemma elems_fold_krausStep (opArr : list (list Complex))
    (qs : list (Z * Z * Z * Z)) (s : ComplexMatrixN) :
  elems (fold_left (fun s q =>
           mkComplexMatrixN (numQubits s) (numRows s)
             (krausStep opArr (elems s) q)) qs s)
  = fold_left (krausStep opArr) qs (elems s).
Proof.
  revert s. induction qs as [| q qs IH]; intros s; simpl; [reflexivity |].
  rewrite IH. reflexivity.
Qed.

Lemma fold_krausStep (opArr : list (list Complex))
    (qs : list (Z * Z * Z * Z)) (e : list (list Complex)) (r c : Z) :
  forallb quadInRange qs = true -> squareOf 16 e -> 0 <= r -> 0 <= c ->
  squareOf 16 (fold_left (krausStep opArr) qs e)
  /\ elem_get (fold_left (krausStep opArr) qs e) r c
     = fold_left (fun acc '(i, j, k, l) =>
         addConjComplexProd acc (elem_get opArr i j) (elem_get opArr k l))
         (filter (hits r c) qs) (elem_get e r c).
Proof.
  intros Hrange Hsq Hr Hc. revert e Hsq.
  induction qs as [| [[[i j] k] l] qs IH]; intros e Hsq.
  - simpl. split; [exact Hsq | reflexivity].
  - simpl in Hrange. apply andb_prop in Hrange as [Hq Hrange].
    unfold quadInRange in Hq.
    assert (Hrow : 0 <= i * 4 + k < 16) by lia.
    assert (Hcol : 0 <= j * 4 + l < 16) by lia.
    set (q := (i, j, k, l)) in *.
    change (fold_left (krausStep opArr) (q :: qs) e)
      with (fold_left (krausStep opArr) qs (krausStep opArr e q)).
    assert (Hsq' : squareOf 16 (krausStep opArr e q)).
    { apply elem_set_square; [exact Hsq | lia]. }
    destruct (IH Hrange _ Hsq') as [Hsq'' Hget].
    split; [exact Hsq'' |].
    rewrite Hget.
    change (filter (hits r c) (q :: qs))
      with (if hits r c q then q :: filter (hits r c) qs
            else filter (hits r c) qs).
    assert (Hone : elem_get (krausStep opArr e q) r c
                   = if hits r c q
                     then addConjComplexProd (elem_get e r c)
                            (elem_get opArr i j) (elem_get opArr k l)
                     else elem_get e r c).
    { unfold krausStep, q, hits.
      rewrite (elem_get_set 16) by (assumption || lia).
      destruct ((i * 4 + k =? r) && (j * 4 + l =? c)) eqn:Hhit;
        [| reflexivity].
      apply andb_prop in Hhit as [H1 H2].
      apply Z.eqb_eq in H1, H2. subst r c. reflexivity. }
    rewrite Hone. destruct (hits r c q); reflexivity.
Qed.

Lemma quads_in_range : forallb quadInRange quads = true.
Proof. reflexivity. Qed.

Ltac split_index4 i :=
  let H := fresh in
  assert (H : i = 0 \/ i = 1 \/ i = 2 \/ i = 3) by lia;
  destruct H as [H | [H | [H | H]]]; subst i.

Lemma filter_hits (i j k l : Z) :
  0 <= i < 4 -> 0 <= j < 4 -> 0 <= k < 4 -> 0 <= l < 4 ->
  filter (hits (i * 4 + k) (j * 4 + l)) quads = [(i, j, k, l)].
Proof.
  intros Hi Hj Hk Hl.
  split_index4 i; split_index4 j; split_index4 k; split_index4 l;
    reflexivity.
Qed.

Lemma zeroSuperOp16_square : squareOf 16 (elems zeroSuperOp16).
Proof. split; [reflexivity | repeat constructor]. Qed.

Lemma zeroSuperOp16_entry (i j k l : Z) :
  0 <= i < 4 -> 0 <= j < 4 -> 0 <= k < 4 -> 0 <= l < 4 ->
  elem_get (elems zeroSuperOp16) (i * 4 + k) (j * 4 + l) = czero.
Proof.
  intros Hi Hj Hk Hl.
  split_index4 i; split_index4 j; split_index4 k; split_index4 l;
    reflexivity.
Qed.

(** One pass of the loop nest adds conj(op[i][j]) * op[k][l] to the
    element at row i*4+k, column j*4+l. *)
Lemma krausPass_entry (opArr e : list (list Complex)) (i j k l : Z) :
  squareOf 16 e ->
  0 <= i < 4 -> 0 <= j < 4 -> 0 <= k < 4 -> 0 <= l < 4 ->
  squareOf 16 (fold_left (krausStep opArr) quads e)
  /\ elem_get (fold_left (krausStep opArr) quads e) (i * 4 + k) (j * 4 + l)
     = addConjComplexProd (elem_get e (i * 4 + k) (j * 4 + l))
         (elem_get opArr i j) (elem_get opArr k l).
Proof.
  intros Hsq Hi Hj Hk Hl.
  destruct (fold_krausStep opArr quads e (i * 4 + k) (j * 4 + l)
              quads_in_range Hsq ltac:(lia) ltac:(lia)) as [Hsq' Hget].
  split; [exact Hsq' |].
  rewrite Hget, filter_hits by assumption. reflexivity.
Qed.

Lemma populateTwoQubitKrausSuperoperator_entry (ops : list ComplexMatrix4)
    (numOps i j k l : Z) :
  0 <= i < 4 -> 0 <= j < 4 -> 0 <= k < 4 -> 0 <= l < 4 ->
  elem_get
    (elems (populateTwoQubitKrausSuperoperator zeroSuperOp16 ops numOps))
    (i * 4 + k) (j * 4 + l)
  = tensorSumEntry mat4_get zeroMatrix4 ops numOps i j k l.
Proof.
  intros Hi Hj Hk Hl. rewrite populate_as_fold. unfold tensorSumEntry.
  destruct (Z_lt_le_dec numOps 0) as [Hneg | Hpos].
  { rewrite for_loop_nonpos, csum_nonpos by lia.
    apply zeroSuperOp16_entry; assumption. }
  enough (H : squareOf 16 (elems (for_loop numOps (fun n superOp =>
                fold_left (fun s q =>
                  mkComplexMatrixN (numQubits s) (numRows s)
                    (krausStep (opArr4 (arr_get ops n zeroMatrix4))
                       (elems s) q)) quads superOp) zeroSuperOp16))
              /\ forall i j k l,
                0 <= i < 4 -> 0 <= j < 4 -> 0 <= k < 4 -> 0 <= l < 4 ->
                elem_get (elems (for_loop numOps (fun n superOp =>
                  fold_left (fun s q =>
                    mkComplexMatrixN (numQubits s) (numRows s)
                      (krausStep (opArr4 (arr_get ops n zeroMatrix4))
                         (elems s) q)) quads superOp) zeroSuperOp16))
                  (i * 4 + k) (j * 4 + l)
                = csum numOps (fun n =>
                    let K := arr_get ops n zeroMatrix4 in
                    cmul (getConjugateScalar (mat4_get K i j))
                         (mat4_get K k l)))
    by (apply H; assumption).
  clear i j k l Hi Hj Hk Hl. pattern numOps.
  apply natlike_ind; [ | | exact Hpos].
  - rewrite for_loop_nonpos by lia. split; [apply zeroSuperOp16_square |].
    intros i j k l Hi Hj Hk Hl. rewrite csum_nonpos by lia.
    apply zeroSuperOp16_entry; assumption.
  - intros n Hn [IHsq IH]. change (Z.succ n) with (n + 1).
    rewrite for_loop_succ by lia. rewrite elems_fold_krausStep.
    split.
    + apply (krausPass_entry _ _ 0 0 0 0 IHsq); lia.
    + intros i j k l Hi Hj Hk Hl. rewrite csum_succ by lia.
      rewrite <- (IH i j k l Hi Hj Hk Hl).
      destruct (krausPass_entry (opArr4 (arr_get ops n zeroMatrix4)) _
                  i j k l IHsq Hi Hj Hk Hl) as [_ Hget].
      rewrite Hget. apply addConjComplexProd_spec.
Qed.

End TwoQubitSuperoperatorProofs.

(** ** The kernel on amplitudes *)

Section AmplitudeProofs.
Local Open Scope Z_scope.

Lemma tabulate_length (n : Z) (f : Z -> Complex) :
  length (tabulate n f) = Z.to_nat n.
Proof. unfold tabulate. rewrite length_map, length_seq. reflexivity. Qed.

Lemma getAmp_tabulate (n : Z) (f : Z -> Complex) (i : Z) :
  0 <= i < n -> getAmp (tabulate n f) i = f i.
Proof.
  intros Hi. unfold getAmp, arr_get, tabulate.
  rewrite nth_indep with (d' := f (Z.of_nat 0))
    by (rewrite length_map, length_seq; lia).
  rewrite (map_nth (fun i => f (Z.of_nat i))), seq_nth by lia.
  simpl. rewrite Z2Nat.id by lia. reflexivity.
Qed.

Lemma tabulate_ext (n : Z) (f g : Z -> Complex) :
  (forall i, 0 <= i < n -> f i = g i) -> tabulate n f = tabulate n g.
Proof.
  intros Hfg. unfold tabulate. apply map_ext_in.
  intros i Hi. apply in_seq in Hi. apply Hfg. lia.
Qed.

Lemma tabulate_getAmp (n : Z) (a : amps) :
  length a = Z.to_nat n -> tabulate n (getAmp a) = a.
Proof.
  intros Hlen. apply nth_ext with (d := czero) (d' := czero).
  - rewrite tabulate_length. symmetry. exact Hlen.
  - intros i Hi. rewrite tabulate_length in Hi.
    change (nth i (tabulate n (getAmp a)) czero)
      with (nth i (tabulate n (getAmp a)) czero).
    pose proof (getAmp_tabulate n (getAmp a) (Z.of_nat i) ltac:(lia)) as H.
    unfold getAmp at 1, arr_get at 1 in H. rewrite Nat2Z.id in H.
    rewrite H. unfold getAmp, arr_get. rewrite Nat2Z.id. reflexivity.
Qed.

Lemma store_set_same (st : Store) (h : nat) (a : amps) :
  store_set st h a h = a.
Proof. unfold store_set. rewrite Nat.eqb_refl. reflexivity. Qed.

Lemma store_set_other (st : Store) (h h' : nat) (a : amps) :
  h' <> h -> store_set st h a h' = st h'.
Proof.
  intros Hne. unfold store_set.
  destruct (Nat.eqb_spec h' h); [contradiction | reflexivity].
Qed.

(** *** Bits of indices *)

Lemma testbit_withBit (i q m : Z) (b : bool) :
  0 <= q ->
  Z.testbit (withBit i q b) m = if m =? q then b else Z.testbit i m.
Proof.
  intros Hq. unfold withBit. destruct b.
  - rewrite Z.setbit_eqb by lia.
    destruct (Z.eqb_spec q m), (Z.eqb_spec m q); try lia; reflexivity.
  - rewrite Z.clearbit_eqb.
    destruct (Z.eqb_spec q m), (Z.eqb_spec m q); try lia; simpl;
      rewrite ?andb_true_r, ?andb_false_r; reflexivity.
Qed.

Lemma testbit_flipBit (i q m : Z) :
  0 <= q ->
  Z.testbit (flipBit i q) m
  = if m =? q then negb (Z.testbit i m) else Z.testbit i m.
Proof.
  intros Hq. unfold flipBit. rewrite Z.lxor_spec.
  destruct (Z.eqb_spec m q).
  - subst m. rewrite Z.shiftl_spec by lia. rewrite Z.sub_diag.
    simpl. apply xorb_true_r.
  - destruct (Z_lt_le_dec m 0).
    + rewrite !Z.testbit_neg_r by lia. reflexivity.
    + rewrite Z.shiftl_spec by lia.
      destruct (Z_lt_le_dec (m - q) 0).
      * rewrite (Z.testbit_neg_r 1) by lia. apply xorb_false_r.
      * replace (Z.testbit 1 (m - q)) with false; [apply xorb_false_r |].
        symmetry. apply (Z.bits_above_log2 1); simpl; lia.
Qed.

Lemma flipBit_withBit (i q : Z) :
  0 <= q -> flipBit i q = withBit i q (negb (Z.testbit i q)).
Proof.
  intros Hq. apply Z.bits_inj'. intros m Hm.
  rewrite testbit_flipBit, testbit_withBit by lia.
  destruct (Z.eqb_spec m q); [subst; reflexivity | reflexivity].
Qed.

Lemma withBit_own (i q : Z) : 0 <= q -> withBit i q (Z.testbit i q) = i.
Proof.
  intros Hq. apply Z.bits_inj'. intros m Hm.
  rewrite testbit_withBit by lia.
  destruct (Z.eqb_spec m q); [subst; reflexivity | reflexivity].
Qed.

Lemma range_bits (N i : Z) :
  0 <= N ->
  (0 <= i < 2 ^ N <-> forall m, N <= m -> Z.testbit i m = false).
Proof.
  intros HN. split.
  - intros Hi m Hm. rewrite <- (Z.mod_small i (2 ^ N)) by lia.
    apply Z.mod_pow2_bits_high. lia.
  - intros Hb. assert (Heq : i = i mod 2 ^ N).
    { apply Z.bits_inj'. intros m Hm. destruct (Z_lt_le_dec m N).
      - rewrite Z.mod_pow2_bits_low by lia. reflexivity.
      - rewrite Z.mod_pow2_bits_high by lia. apply Hb. lia. }
    rewrite Heq. apply Z.mod_pos_bound. apply Z.pow_pos_nonneg; lia.
Qed.

Lemma withBit_range (N i q : Z) (b : bool) :
  0 <= q < N -> 0 <= i < 2 ^ N -> 0 <= withBit i q b < 2 ^ N.
Proof.
  intros Hq Hi. apply range_bits; [lia |]. intros m Hm.
  rewrite testbit_withBit by lia.
  destruct (Z.eqb_spec m q); [lia |].
  apply (proj1 (range_bits N i ltac:(lia)) Hi). exact Hm.
Qed.

Lemma flipBit_range (N i q : Z) :
  0 <= q < N -> 0 <= i < 2 ^ N -> 0 <= flipBit i q < 2 ^ N.
Proof.
  intros Hq Hi. rewrite flipBit_withBit by lia.
  apply withBit_range; assumption.
Qed.

End AmplitudeProofs.

(** *** Indices of the doubled register *)

Section DensityIndexProofs.
Local Open Scope Z_scope.

Lemma density_index_range (n r c : Z) :
  0 <= n -> 0 <= r < 2 ^ n -> 0 <= c < 2 ^ n ->
  0 <= r + c * 2 ^ n < 2 ^ (2 * n).
Proof.
  intros Hn Hr Hc. replace (2 * n) with (n + n) by lia.
  rewrite Z.pow_add_r by lia. nia.
Qed.

Lemma density_index_bits (n r c m : Z) :
  0 <= n -> 0 <= r < 2 ^ n -> 0 <= m ->
  Z.testbit (r + c * 2 ^ n) m
  = if m <? n then Z.testbit r m else Z.testbit c (m - n).
Proof.
  intros Hn Hr Hm.
  assert (Hpow : 0 < 2 ^ n) by (apply Z.pow_pos_nonneg; lia).
  destruct (Z.ltb_spec m n) as [Hlt | Hge].
  - rewrite <- (Z.mod_pow2_bits_low (r + c * 2 ^ n) n m) by lia.
    rewrite Z_mod_plus_full, Z.mod_small by lia. reflexivity.
  - replace m with ((m - n) + n) at 1 by lia.
    rewrite <- Z.div_pow2_bits by lia.
    rewrite Z_div_plus_full by lia.
    rewrite Z.div_small by lia. reflexivity.
Qed.

Lemma density_index_withBit (n t r c : Z) (a b : bool) :
  0 <= t < n -> 0 <= r < 2 ^ n ->
  withBit (withBit (r + c * 2 ^ n) t a) (t + n) b
  = withBit r t a + withBit c t b * 2 ^ n.
Proof.
  intros Ht Hr. apply Z.bits_inj'. intros m Hm.
  rewrite !testbit_withBit by lia.
  rewrite !density_index_bits
    by (try apply withBit_range; assumption || lia).
  rewrite !testbit_withBit by lia.
  destruct (Z.eqb_spec m (t + n)), (Z.eqb_spec m t), (Z.ltb_spec m n),
    (Z.eqb_spec (m - n) t); try lia; reflexivity.
Qed.

End DensityIndexProofs.

(** ** Dimension-doubling bridge *)

Section BridgeProofs.
Local Open Scope Z_scope.

(** The linear form of a row of four entries on four amplitudes. *)
Local Abbreviation row4 e0 e1 e2 e3 x0 x1 x2 x3 :=
  (cadd (cadd (cadd (cmul e0 x0) (cmul e1 x1)) (cmul e2 x2)) (cmul e3 x3)).

Lemma ctrlOn_zero (i : Z) : ctrlOn i 0 = true.
Proof. unfold ctrlOn. rewrite Z.land_0_r. reflexivity. Qed.

(** The superoperator applied on the targets (t, t+n), at the entry
    (r, c) of the density matrix. *)
Lemma applyKrausSuperoperator_entry (qureg : Qureg) (st : Store)
    (s : ComplexMatrix4) (target r c : Z) :
  let n := numQubitsRepresented qureg in
  let rho := densityEntry n (st (stateVec qureg)) in
  let row := Z.b2z (Z.testbit r target) + 2 * Z.b2z (Z.testbit c target) in
  numQubitsInStateVec qureg = 2 * n ->
  0 <= target < n -> 0 <= r < 2 ^ n -> 0 <= c < 2 ^ n ->
  densityEntry n
    (densmatr_applyKrausSuperoperator qureg target s st (stateVec qureg)) r c
  = row4 (mat4_get s row 0) (mat4_get s row 1)
         (mat4_get s row 2) (mat4_get s row 3)
         (rho (withBit r target false) (withBit c target false))
         (rho (withBit r target true) (withBit c target false))
         (rho (withBit r target false) (withBit c target true))
         (rho (withBit r target true) (withBit c target true)).
Proof.
  intros n rho row HN Ht Hr Hc.
  unfold densmatr_applyKrausSuperoperator. simpl.
  unfold on_qureg. rewrite store_set_same. fold n. rewrite HN.
  unfold densityEntry at 1. unfold k_twoQubitUnitary.
  rewrite getAmp_tabulate by (apply density_index_range; lia).
  rewrite ctrlOn_zero.
  rewrite !density_index_bits by lia.
  destruct (Z.ltb_spec target n); [| lia].
  destruct (Z.ltb_spec (target + n) n); [lia |].
  replace (target + n - n) with target by lia.
  rewrite !density_index_withBit by lia.
  reflexivity.
Qed.

Lemma csum_ext (n : Z) (f g : Z -> Complex) :
  (forall m, 0 <= m < n -> f m = g m) -> csum n f = csum n g.
Proof.
  intros Hfg. destruct (Z_lt_le_dec n 0) as [Hneg | Hpos].
  { rewrite !csum_nonpos by lia. reflexivity. }
  revert Hfg. pattern n. apply natlike_ind; [ | | exact Hpos].
  - intros _. rewrite !csum_nonpos by lia. reflexivity.
  - intros m Hm IH Hfg. change (Z.succ m) with (m + 1).
    rewrite !csum_succ by lia.
    rewrite IH by (intros; apply Hfg; lia).
    rewrite Hfg by lia. reflexivity.
Qed.

Lemma csum_row4 (n : Z) (f0 f1 f2 f3 : Z -> Complex)
    (x0 x1 x2 x3 : Complex) :
  row4 (csum n f0) (csum n f1) (csum n f2) (csum n f3) x0 x1 x2 x3
  = csum n (fun m => row4 (f0 m) (f1 m) (f2 m) (f3 m) x0 x1 x2 x3).
Proof.
  destruct (Z_lt_le_dec n 0) as [Hneg | Hpos].
  { rewrite !csum_nonpos by lia. complex_ring. }
  pattern n. apply natlike_ind; [ | | exact Hpos].
  - rewrite !csum_nonpos by lia. complex_ring.
  - intros m Hm IH. change (Z.succ m) with (m + 1).
    rewrite !csum_succ by lia. rewrite <- IH. complex_ring.
Qed.

Lemma mat2_at_b2z (K : ComplexMatrix2) (a b : bool) :
  mat2_at K (Z.b2z a) (Z.b2z b) = mat2_get K a b.
Proof. destruct a, b; reflexivity. Qed.

(** Applying the superoperator of a Kraus set is applying the Kraus map. *)
Lemma applyKrausMap_entry (qureg : Qureg) (st : Store)
    (ops : list ComplexMatrix2) (numOps target r c : Z) :
  let n := numQubitsRepresented qureg in
  numQubitsInStateVec qureg = 2 * n ->
  0 <= target < n -> 0 <= r < 2 ^ n -> 0 <= c < 2 ^ n ->
  densityEntry n
    (densmatr_applyKrausMap qureg target ops numOps st (stateVec qureg)) r c
  = krausMapEntry ops numOps target
      (densityEntry n (st (stateVec qureg))) r c.
Proof.
  intros n HN Ht Hr Hc. unfold densmatr_applyKrausMap.
  pose proof (applyKrausSuperoperator_entry qureg st
                (getOneQubitKrausSuperoperator ops numOps) target r c
                HN Ht Hr Hc) as Happ.
  cbv zeta in Happ. fold n in Happ. rewrite Happ. clear Happ.
  set (kb := Z.testbit r target). set (ib := Z.testbit c target).
  set (S := getOneQubitKrausSuperoperator ops numOps).
  set (rho := densityEntry n (st (stateVec qureg))).
  assert (Hentry : forall (jb lb : bool) (col : Z),
    col = Z.b2z lb + 2 * Z.b2z jb ->
    mat4_get S (Z.b2z kb + 2 * Z.b2z ib) col
    = tensorSumEntry mat2_at zeroMatrix2 ops numOps
        (Z.b2z ib) (Z.b2z jb) (Z.b2z kb) (Z.b2z lb)).
  { intros jb lb col ->.
    rewrite <- (getOneQubitKrausSuperoperator_entry ops numOps
              (Z.b2z ib) (Z.b2z jb) (Z.b2z kb) (Z.b2z lb))
      by (destruct ib, jb, kb, lb; simpl; lia).
    fold S. f_equal; lia. }
  rewrite (Hentry false false 0 eq_refl), (Hentry false true 1 eq_refl),
          (Hentry true false 2 eq_refl), (Hentry true true 3 eq_refl).
  unfold tensorSumEntry. rewrite csum_row4.
  unfold krausMapEntry. apply csum_ext. intros m Hm.
  cbv zeta. rewrite !mat2_at_b2z. unfold conjugatedEntry.
  fold kb ib. complex_ring.
Qed.

(** C3.  In the density matrix of a register of n qubits, held as a
    statevector of 2n qubits, applying the Kraus map of a single
    operator K to a target t < n gives K rho K^dagger, entry by entry
    (for every K, unitary or not). *)
Theorem densmatr_applyKrausMap_single (qureg : Qureg) (st : Store)
    (K : ComplexMatrix2) (target r c : Z) :
  let n := numQubitsRepresented qureg in
  numQubitsInStateVec qureg = 2 * n ->
  0 <= target < n -> 0 <= r < 2 ^ n -> 0 <= c < 2 ^ n ->
  densityEntry n
    (densmatr_applyKrausMap qureg target [K] 1 st (stateVec qureg)) r c
  = conjugatedEntry K target (densityEntry n (st (stateVec qureg))) r c.
Proof.
  intros n HN Ht Hr Hc.
  pose proof (applyKrausMap_entry qureg st [K] 1 target r c HN Ht Hr Hc)
    as Happ.
  cbv zeta in Happ. fold n in Happ. rewrite Happ. clear Happ.
  unfold krausMapEntry. change 1 with (0 + 1).
  rewrite csum_succ, csum_nonpos by lia.
  apply cadd_czero_l.
Qed.

Lemma densmatr_applyKrausMap_single_witness :
  densityEntry 1
    (densmatr_applyKrausMap (mkQureg true 1 2 0) 0 [pauliXMatrix] 1
       (fun _ => [cone; czero; czero; czero]) 0%nat) 1 1
  = conjugatedEntry pauliXMatrix 0
      (densityEntry 1 [cone; czero; czero; czero]) 1 1.
Proof.
  apply (densmatr_applyKrausMap_single (mkQureg true 1 2 0)
           (fun _ => [cone; czero; czero; czero]) pauliXMatrix 0 1 1);
    simpl; lia.
Defined.

End BridgeProofs.

(** ** The Pauli-error channel *)

Section PauliErrorProofs.
Local Open Scope Z_scope.

Lemma pauliErrorOps_zero :
  pauliErrorOps 0 0 0 = [identity2; zeroMatrix2; zeroMatrix2; zeroMatrix2].
Proof.
  unfold pauliErrorOps. cbv zeta.
  replace (1 - (0 + 0 + 0))%R with 1%R by ring.
  rewrite sqrt_1, sqrt_0, Ropp_0. reflexivity.
Qed.

Lemma pauliErrorOps_X :
  pauliErrorOps 1 0 0 = [zeroMatrix2; pauliXMatrix; zeroMatrix2; zeroMatrix2].
Proof.
  unfold pauliErrorOps. cbv zeta.
  replace (1 - (1 + 0 + 0))%R with 0%R by ring.
  rewrite sqrt_1, sqrt_0, Ropp_0. reflexivity.
Qed.

Lemma csum_4 (f : Z -> Complex) :
  csum 4 f = cadd (cadd (cadd (cadd czero (f 0)) (f 1)) (f 2)) (f 3).
Proof. reflexivity. Qed.

Lemma addConjComplexProd_zero_a (dest b : Complex) :
  addConjComplexProd dest czero b = dest.
Proof. complex_ring. Qed.

Lemma addConjComplexProd_zero_b (dest a : Complex) :
  addConjComplexProd dest a czero = dest.
Proof. complex_ring. Qed.

Lemma addConjComplexProd_one : addConjComplexProd czero cone cone = cone.
Proof. complex_ring. Qed.

Lemma superoperator_of_identity :
  getOneQubitKrausSuperoperator
    [identity2; zeroMatrix2; zeroMatrix2; zeroMatrix2] 4 = identity4.
Proof.
  unfold getOneQubitKrausSuperoperator, for_loop. simpl.
  rewrite !addConjComplexProd_zero_a, !addConjComplexProd_zero_b,
    !addConjComplexProd_one.
  reflexivity.
Qed.

Lemma conjugatedEntry_zero (t : Z) (rho : Z -> Z -> Complex) (r c : Z) :
  conjugatedEntry zeroMatrix2 t rho r c = czero.
Proof.
  unfold conjugatedEntry.
  destruct (Z.testbit r t), (Z.testbit c t); simpl; complex_ring.
Qed.

Lemma conjugatedEntry_pauliX (t : Z) (rho : Z -> Z -> Complex) (r c : Z) :
  0 <= t ->
  conjugatedEntry pauliXMatrix t rho r c = rho (flipBit r t) (flipBit c t).
Proof.
  intros Ht. rewrite !flipBit_withBit by lia. unfold conjugatedEntry.
  destruct (Z.testbit r t), (Z.testbit c t); simpl; complex_ring.
Qed.

(** The identity superoperator leaves every amplitude as it is. *)
Lemma twoQubitUnitary_identity (N q1 q2 : Z) (a : amps) :
  0 <= q1 -> 0 <= q2 -> q1 <> q2 -> length a = Z.to_nat (2 ^ N) ->
  k_twoQubitUnitary N 0 q1 q2 identity4 a = a.
Proof.
  intros Hq1 Hq2 Hne Hlen. unfold k_twoQubitUnitary.
  transitivity (tabulate (2 ^ N) (getAmp a));
    [| apply tabulate_getAmp; exact Hlen].
  apply tabulate_ext. intros i Hi. rewrite ctrlOn_zero.
  assert (Hown : withBit (withBit i q1 (Z.testbit i q1)) q2 (Z.testbit i q2)
                 = i) by (rewrite !withBit_own by lia; reflexivity).
  cbv beta zeta.
  destruct (Z.testbit i q1), (Z.testbit i q2);
    rewrite Hown; simpl; complex_ring.
Qed.

(** C4.  On a density matrix of n qubits with a target below n: with
    all three probabilities 0 the Kraus operators are the identity and
    three zero matrices, their superoperator is the 4x4 identity, and
    every register of the store is left as it was; with probX = 1 and the
    others 0 the entry (r, c) becomes that of X rho X, the entry at the
    indices with the target bit flipped. *)
Theorem densmatr_oneQubitPauliError_spec (qureg : Qureg) (st : Store)
    (qubit : Z) :
  let n := numQubitsRepresented qureg in
  numQubitsInStateVec qureg = 2 * n ->
  0 <= qubit < n ->
  length (st (stateVec qureg)) = Z.to_nat (2 ^ (2 * n)) ->
  pauliErrorOps 0 0 0 = [identity2; zeroMatrix2; zeroMatrix2; zeroMatrix2]
  /\ getOneQubitKrausSuperoperator (pauliErrorOps 0 0 0) 4 = identity4
  /\ (forall h, densmatr_oneQubitPauliError qureg qubit 0 0 0 st h = st h)
  /\ (forall r c, 0 <= r < 2 ^ n -> 0 <= c < 2 ^ n ->
      let rho := densityEntry n (st (stateVec qureg)) in
      let rho' := densityEntry n
        (densmatr_oneQubitPauliError qureg qubit 1 0 0 st (stateVec qureg)) in
      rho' r c = conjugatedEntry pauliXMatrix qubit rho r c
      /\ rho' r c = rho (flipBit r qubit) (flipBit c qubit)).
Proof.
  intros n HN Hq Hlen.
  split; [apply pauliErrorOps_zero |].
  split; [rewrite pauliErrorOps_zero; apply superoperator_of_identity |].
  split.
  - intros h. unfold densmatr_oneQubitPauliError, densmatr_applyKrausMap.
    rewrite pauliErrorOps_zero, superoperator_of_identity.
    unfold densmatr_applyKrausSuperoperator. simpl. unfold on_qureg.
    destruct (Nat.eq_dec h (stateVec qureg)) as [-> | Hne].
    + rewrite store_set_same. fold n. rewrite HN.
      apply twoQubitUnitary_identity; lia.
    + apply store_set_other. exact Hne.
  - intros r c Hr Hc rho rho'.
    assert (Hrho : rho' r c = conjugatedEntry pauliXMatrix qubit rho r c).
    { unfold rho', densmatr_oneQubitPauliError.
      pose proof (applyKrausMap_entry qureg st (pauliErrorOps 1 0 0) 4
                    qubit r c HN Hq Hr Hc) as Happ.
      cbv zeta in Happ. fold n in Happ. rewrite Happ. clear Happ.
      fold rho. rewrite pauliErrorOps_X. unfold krausMapEntry.
      rewrite csum_4. unfold arr_get. simpl nth.
      rewrite !conjugatedEntry_zero.
      set (e := conjugatedEntry pauliXMatrix qubit rho r c).
      complex_ring. }
    split; [exact Hrho |].
    rewrite Hrho. apply conjugatedEntry_pauliX. lia.
Qed.

Lemma densmatr_oneQubitPauliError_spec_witness :
  densmatr_oneQubitPauliError (mkQureg true 1 2 0) 0 0 0 0
    (fun _ => [cone; czero; czero; czero]) 0%nat
  = [cone; czero; czero; czero].
Proof.
  refine (proj1 (proj2 (proj2
    (densmatr_oneQubitPauliError_spec (mkQureg true 1 2 0)
       (fun _ => [cone; czero; czero; czero]) 0 _ _ _))) 0%nat).
  - reflexivity.
  - simpl. lia.
  - reflexivity.
Defined.

End PauliErrorProofs.

(** ** The superoperator of the two-qubit Kraus map *)

Section RowPointerProofs.
Local Open Scope Z_scope.

Lemma populate_mem_as_fold (superOp : RowMemory)
    (ops : list ComplexMatrix4) (numOps : Z) :
  populateTwoQubitKrausSuperoperator_mem superOp ops numOps
  = for_loop numOps (fun n superOp =>
      fold_left (memStep (opArr4 (arr_get ops n zeroMatrix4))) quads
        superOp) superOp.
Proof.
  unfold populateTwoQubitKrausSuperoperator_mem.
  unfold for_loop at 1 6. apply fold_left_ext. intros s n. cbv zeta.
  rewrite (nest4 (fun i j k l superOp =>
    mem_set superOp (i * 4 + k) (j * 4 + l)
      (addConjComplexProd (mem_get superOp (i * 4 + k) (j * 4 + l))
         (elem_get (opArr4 (arr_get ops (Z.of_nat n) zeroMatrix4)) i j)
         (elem_get (opArr4 (arr_get ops (Z.of_nat n) zeroMatrix4)) k l)))).
  apply fold_left_ext. intros a [[[i j] k] l]. reflexivity.
Qed.

Lemma matr_memStep (opArr : list (list Complex)) (m : RowMemory)
    (q : Z * Z * Z * Z) :
  matr (memStep opArr m q) = matr m.
Proof. destruct q as [[[i j] k] l]. reflexivity. Qed.

Lemma matr_fold_memStep (opArr : list (list Complex))
    (qs : list (Z * Z * Z * Z)) (m : RowMemory) :
  matr (fold_left (memStep opArr) qs m) = matr m.
Proof.
  revert m. induction qs as [| q qs IH]; intros m; simpl; [reflexivity |].
  rewrite IH. apply matr_memStep.
Qed.

(** The row pointers are not written by the builder. *)
Lemma matr_populate (superOp : RowMemory) (ops : list ComplexMatrix4)
    (numOps : Z) :
  matr (populateTwoQubitKrausSuperoperator_mem superOp ops numOps)
  = matr superOp.
Proof.
  rewrite populate_mem_as_fold.
  destruct (Z_lt_le_dec numOps 0) as [Hneg | Hpos];
    [rewrite for_loop_nonpos by lia; reflexivity |].
  apply (for_loop_ind (fun _ m => matr m = matr superOp));
    [reflexivity | | exact Hpos].
  intros n s' _ Hs. rewrite matr_fold_memStep. exact Hs.
Qed.

(** *** Row pointers that hold one address *)

Lemma arr_get_repeat (a : nat) (r : Z) :
  0 <= r < 16 -> arr_get (repeat a 16) r 0%nat = a.
Proof.
  intros Hr. unfold arr_get. apply nth_repeat_lt. lia.
Qed.

Lemma memStep_aliased (opArr : list (list Complex)) (m : RowMemory)
    (a : nat) (q : Z * Z * Z * Z) :
  matr m = repeat a 16%nat -> quadInRange q = true ->
  rowAt (memStep opArr m q) a = rowStep opArr (rowAt m a) q.
Proof.
  intros Hm Hq. destruct q as [[[i j] k] l]. unfold quadInRange in Hq.
  unfold memStep, rowStep, mem_set, mem_get. cbv zeta. cbn [rowAt matr].
  rewrite Hm, arr_get_repeat by lia. rewrite Nat.eqb_refl. reflexivity.
Qed.

Lemma fold_memStep_aliased (opArr : list (list Complex))
    (qs : list (Z * Z * Z * Z)) (m : RowMemory) (a : nat) :
  matr m = repeat a 16%nat -> forallb quadInRange qs = true ->
  rowAt (fold_left (memStep opArr) qs m) a
  = fold_left (rowStep opArr) qs (rowAt m a).
Proof.
  revert m. induction qs as [| q qs IH]; intros m Hm Hqs; simpl;
    [reflexivity |].
  simpl in Hqs. apply andb_prop in Hqs as [Hq Hqs].
  rewrite IH by (rewrite ?matr_memStep; assumption).
  rewrite memStep_aliased by assumption. reflexivity.
Qed.

Lemma fold_rowStep (opArr : list (list Complex))
    (qs : list (Z * Z * Z * Z)) (row : list Complex) (c : Z) :
  forallb quadInRange qs = true -> length row = 16%nat -> 0 <= c ->
  length (fold_left (rowStep opArr) qs row) = 16%nat
  /\ arr_get (fold_left (rowStep opArr) qs row) c czero
     = fold_left (fun acc '(i, j, k, l) =>
         addConjComplexProd acc (elem_get opArr i j) (elem_get opArr k l))
         (filter (hitsCol c) qs) (arr_get row c czero).
Proof.
  intros Hrange Hlen Hc. revert row Hlen.
  induction qs as [| [[[i j] k] l] qs IH]; intros row Hlen.
  - simpl. split; [exact Hlen | reflexivity].
  - simpl in Hrange. apply andb_prop in Hrange as [Hq Hrange].
    unfold quadInRange in Hq.
    assert (Hcol : 0 <= j * 4 + l < 16) by lia.
    set (q := (i, j, k, l)) in *.
    change (fold_left (rowStep opArr) (q :: qs) row)
      with (fold_left (rowStep opArr) qs (rowStep opArr row q)).
    assert (Hlen' : length (rowStep opArr row q) = 16%nat).
    { unfold rowStep, q. rewrite list_set_length. exact Hlen. }
    destruct (IH Hrange _ Hlen') as [Hlen'' Hget].
    split; [exact Hlen'' |].
    rewrite Hget.
    change (filter (hitsCol c) (q :: qs))
      with (if hitsCol c q then q :: filter (hitsCol c) qs
            else filter (hitsCol c) qs).
    assert (Hone : arr_get (rowStep opArr row q) c czero
                   = if hitsCol c q
                     then addConjComplexProd (arr_get row c czero)
                            (elem_get opArr i j) (elem_get opArr k l)
                     else arr_get row c czero).
    { unfold rowStep, q, hitsCol, arr_get.
      rewrite nth_list_set by lia.
      destruct (Z.eqb_spec (j * 4 + l) c) as [Heq | Hne].
      - subst c. rewrite Nat.eqb_refl. reflexivity.
      - destruct (Nat.eqb_spec (Z.to_nat c) (Z.to_nat (j * 4 + l)));
          [lia | reflexivity]. }
    rewrite Hone. destruct (hitsCol c q); reflexivity.
Qed.

(** *** The array of [densmatr_applyTwoQubitKrausMap] *)

Lemma zeroed_matr (indetComplex : Complex) (indetPtr rowAddr : nat) :
  matr (applyTwoQubitKrausMap_zeroed indetComplex indetPtr rowAddr)
  = repeat rowAddr 16%nat.
Proof. reflexivity. Qed.

Lemma zeroed_row (indetComplex : Complex) (indetPtr rowAddr : nat) :
  rowAt (applyTwoQubitKrausMap_zeroed indetComplex indetPtr rowAddr) rowAddr
  = repeat czero 16%nat.
Proof.
  unfold applyTwoQubitKrausMap_zeroed. cbv zeta.
  change (Z.shiftl 1 4) with (15 + 1).
  rewrite (for_loop_succ 15) by lia. cbn [rowAt].
  rewrite Nat.eqb_refl. reflexivity.
Qed.

(** Every row of the array that [densmatr_applyTwoQubitKrausMap] builds
    reads the same sixteen cells, whatever the operators. *)
Lemma applyTwoQubitKrausMap_rows_alike (indetComplex : Complex)
    (indetPtr rowAddr : nat) (ops : list ComplexMatrix4)
    (numOps r r' c : Z) :
  0 <= r < 16 -> 0 <= r' < 16 ->
  mem_get (densmatr_applyTwoQubitKrausMap_superOp indetComplex indetPtr
             rowAddr ops numOps) r c
  = mem_get (densmatr_applyTwoQubitKrausMap_superOp indetComplex indetPtr
               rowAddr ops numOps) r' c.
Proof.
  intros Hr Hr'. unfold mem_get, densmatr_applyTwoQubitKrausMap_superOp.
  rewrite matr_populate, zeroed_matr, !arr_get_repeat by assumption.
  reflexivity.
Qed.

Lemma filter_hitsCol_1 :
  filter (hitsCol 1) quads
  = [(0, 0, 0, 1); (0, 0, 1, 1); (0, 0, 2, 1); (0, 0, 3, 1);
     (1, 0, 0, 1); (1, 0, 1, 1); (1, 0, 2, 1); (1, 0, 3, 1);
     (2, 0, 0, 1); (2, 0, 1, 1); (2, 0, 2, 1); (2, 0, 3, 1);
     (3, 0, 0, 1); (3, 0, 1, 1); (3, 0, 2, 1); (3, 0, 3, 1)].
Proof. reflexivity. Qed.

(** C2.  For d = 4 the superoperator the code builds is not S.  In
    [densmatr_applyTwoQubitKrausMap] the sixteen row pointers of
    [superOp] hold the address of the one array [row], so that
    [populateTwoQubitKrausSuperoperator] adds the products of every row
    into the same sixteen cells.  For the single Kraus operator I4 the
    element at row 0, column 1 is 1, where S has
    conj(K[0][0]) * K[0][1] = 0. *)
Theorem densmatr_applyTwoQubitKrausMap_superOp_identity
    (indetComplex : Complex) (indetPtr rowAddr : nat) :
  mem_get (densmatr_applyTwoQubitKrausMap_superOp indetComplex indetPtr
             rowAddr [identity4] 1) (0 * 4 + 0) (0 * 4 + 1) = cone
  /\ tensorSumEntry mat4_get zeroMatrix4 [identity4] 1 0 0 0 1 = czero
  /\ cone <> czero.
Proof.
  split; [| split].
  - unfold densmatr_applyTwoQubitKrausMap_superOp, mem_get.
    rewrite matr_populate, zeroed_matr, arr_get_repeat by lia.
    rewrite populate_mem_as_fold.
    change 1 with (0 + 1) at 1. rewrite for_loop_succ by lia.
    rewrite for_loop_nonpos by lia.
    change (arr_get [identity4] 0 zeroMatrix4) with identity4.
    rewrite fold_memStep_aliased
      by (try apply zeroed_matr; apply quads_in_range).
    rewrite zeroed_row.
    destruct (fold_rowStep (opArr4 identity4) quads (repeat czero 16)
                (0 * 4 + 1) quads_in_range eq_refl ltac:(lia))
      as [_ Hget].
    rewrite Hget. change (0 * 4 + 1) with 1. rewrite filter_hitsCol_1.
    change (arr_get (repeat czero 16) 1 czero) with czero.
    cbn [fold_left].
    change (elem_get (opArr4 identity4) 0 0) with cone.
    change (elem_get (opArr4 identity4) 1 1) with cone.
    change (elem_get (opArr4 identity4) 0 1) with czero.
    change (elem_get (opArr4 identity4) 1 0) with czero.
    change (elem_get (opArr4 identity4) 2 0) with czero.
    change (elem_get (opArr4 identity4) 3 0) with czero.
    change (elem_get (opArr4 identity4) 2 1) with czero.
    change (elem_get (opArr4 identity4) 3 1) with czero.
    repeat (rewrite addConjComplexProd_zero_a
            || rewrite addConjComplexProd_zero_b).
    apply addConjComplexProd_one.
  - unfold tensorSumEntry.
    change 1 with (0 + 1) at 1. rewrite csum_succ by lia.
    rewrite csum_nonpos by lia. cbv zeta.
    change (arr_get [identity4] 0 zeroMatrix4) with identity4.
    change (mat4_get identity4 0 0) with cone.
    change (mat4_get identity4 0 1) with czero.
    complex_ring.
  - intros H. apply (f_equal real) in H. simpl in H. lra.
Qed.

(** *** Rows of their own *)

(** When the row pointers hold sixteen distinct addresses, the builder
    on the storage is the builder on the array of rows. *)
Lemma memStep_own_rows (opArr : list (list Complex)) (m : RowMemory)
    (q : Z * Z * Z * Z) :
  NoDup (matr m) -> length (matr m) = 16%nat -> quadInRange q = true ->
  readRows (memStep opArr m q) = krausStep opArr (readRows m) q.
Proof.
  intros Hnd Hlen Hq. destruct q as [[[i j] k] l].
  unfold quadInRange in Hq.
  assert (Hr : (Z.to_nat (i * 4 + k) < 16)%nat) by lia.
  unfold memStep, krausStep, readRows, mem_set, mem_get, elem_set,
    elem_get, arr_get. cbn [matr rowAt].
  set (r := Z.to_nat (i * 4 + k)) in *.
  set (c := Z.to_nat (j * 4 + l)).
  assert (Hrow : nth r (map (rowAt m) (matr m)) []
                 = rowAt m (nth r (matr m) 0%nat)).
  { rewrite (nth_indep _ [] (rowAt m 0%nat))
      by (rewrite length_map; lia).
    apply map_nth. }
  rewrite Hrow.
  set (v := addConjComplexProd _ _ _).
  apply (nth_ext _ _ [] []).
  - rewrite list_set_length, !length_map. reflexivity.
  - intros p Hp. rewrite length_map in Hp.
    rewrite nth_list_set by (rewrite length_map; lia).
    rewrite (nth_indep _ [] ((fun a' => if Nat.eqb a' (nth r (matr m) 0%nat)
                                        then list_set
                                               (rowAt m (nth r (matr m) 0%nat))
                                               c v
                                        else rowAt m a') 0%nat))
      by (rewrite length_map; lia).
    rewrite (map_nth (fun a' => if Nat.eqb a' (nth r (matr m) 0%nat)
                                then list_set
                                       (rowAt m (nth r (matr m) 0%nat)) c v
                                else rowAt m a')).
    destruct (Nat.eqb_spec p r) as [-> | Hne].
    + rewrite Nat.eqb_refl. reflexivity.
    + destruct (Nat.eqb_spec (nth p (matr m) 0%nat) (nth r (matr m) 0%nat))
        as [Heq | _].
      * exfalso. apply Hne.
        apply (proj1 (NoDup_nth (matr m) 0%nat) Hnd); [lia | lia | exact Heq].
      * rewrite (nth_indep _ [] (rowAt m 0%nat))
          by (rewrite length_map; lia).
        symmetry. apply map_nth.
Qed.

Lemma populate_mem_own_rows (superOp : RowMemory) (nq nr : Z)
    (ops : list ComplexMatrix4) (numOps : Z) :
  NoDup (matr superOp) -> length (matr superOp) = 16%nat ->
  readRows (populateTwoQubitKrausSuperoperator_mem superOp ops numOps)
  = elems (populateTwoQubitKrausSuperoperator
             (mkComplexMatrixN nq nr (readRows superOp)) ops numOps).
Proof.
  intros Hnd Hlen. rewrite populate_mem_as_fold, populate_as_fold.
  assert (Hfold : forall opArr qs m,
            NoDup (matr m) -> length (matr m) = 16%nat ->
            forallb quadInRange qs = true ->
            readRows (fold_left (memStep opArr) qs m)
            = fold_left (krausStep opArr) qs (readRows m)).
  { intros opArr qs. induction qs as [| q qs IH]; intros m Hn Hl Hqs;
      simpl; [reflexivity |].
    simpl in Hqs. apply andb_prop in Hqs as [Hq Hqs].
    rewrite IH by (rewrite ?matr_memStep; assumption).
    rewrite memStep_own_rows by assumption. reflexivity. }
  destruct (Z_lt_le_dec numOps 0) as [Hneg | Hpos];
    [rewrite !for_loop_nonpos by lia; reflexivity |].
  set (B1 := fun (n : Z) (m : RowMemory) =>
         fold_left (memStep (opArr4 (arr_get ops n zeroMatrix4))) quads m).
  set (B2 := fun (n : Z) (s : ComplexMatrixN) =>
         fold_left (fun s q =>
           mkComplexMatrixN (numQubits s) (numRows s)
             (krausStep (opArr4 (arr_get ops n zeroMatrix4)) (elems s) q))
           quads s).
  set (S0 := mkComplexMatrixN nq nr (readRows superOp)).
  enough (H : matr (for_loop numOps B1 superOp) = matr superOp
              /\ readRows (for_loop numOps B1 superOp)
                 = elems (for_loop numOps B2 S0)) by apply H.
  pattern numOps. apply natlike_ind; [ | | exact Hpos].
  - rewrite !for_loop_nonpos by lia. split; reflexivity.
  - intros n Hn [IHm IHr]. change (Z.succ n) with (n + 1).
    rewrite !for_loop_succ by lia.
    set (m1 := for_loop n B1 superOp) in *.
    set (s2 := for_loop n B2 S0) in *.
    unfold B1 at 1 2, B2 at 1.
    rewrite matr_fold_memStep, elems_fold_krausStep.
    split; [exact IHm |].
    rewrite Hfold by (rewrite ?IHm; try assumption; apply quads_in_range).
    rewrite IHr. reflexivity.
Qed.

End RowPointerProofs.

(** ** Pauli expectation evaluator *)

Section ExpectationProofs.
Local Open Scope Z_scope.

Lemma on_qureg_other (qureg : Qureg) (k : Z -> amps -> amps) (st : Store)
    (h : nat) :
  h <> stateVec qureg -> on_qureg qureg k st h = st h.
Proof. intros Hne. unfold on_qureg. apply store_set_other. exact Hne. Qed.

(** The evaluator writes to the workspace only. *)
Lemma statevec_calcExpecValProd_writes_workspace (qureg : Qureg)
    (targetQubits : list Z) (pauliCodes : list pauliOpType) (numTargets : Z)
    (workspace : Qureg) (st : Store) (h : nat) :
  h <> stateVec workspace ->
  snd (statevec_calcExpecValProd qureg targetQubits pauliCodes numTargets
         workspace st) h = st h.
Proof.
  intros Hne. unfold statevec_calcExpecValProd. simpl snd.
  destruct (Z_lt_le_dec numTargets 0) as [Hneg | Hpos].
  { rewrite for_loop_nonpos by lia. simpl.
    apply store_set_other. exact Hne. }
  apply (for_loop_ind (fun _ st' => st' h = st h)); [ | | exact Hpos].
  - simpl. apply store_set_other. exact Hne.
  - intros n st' Hn IH. unfold seqc, when, skip, statevec_pauliZ.
    destruct (pauli_eqb _ PAULI_Z), (pauli_eqb _ PAULI_Y),
      (pauli_eqb _ PAULI_X); simpl;
      rewrite ?on_qureg_other by exact Hne; exact IH.
Qed.

(** C10, as amended.  When the workspace does not share its amplitudes
    with the register, [statevec_calcExpecValProd] leaves the amplitudes
    of the register as they were. *)
Theorem statevec_calcExpecValProd_frame (qureg : Qureg)
    (targetQubits : list Z) (pauliCodes : list pauliOpType) (numTargets : Z)
    (workspace : Qureg) (st : Store) :
  stateVec workspace <> stateVec qureg ->
  snd (statevec_calcExpecValProd qureg targetQubits pauliCodes numTargets
         workspace st) (stateVec qureg)
  = st (stateVec qureg).
Proof.
  intros Hne. apply statevec_calcExpecValProd_writes_workspace.
  intros Heq. apply Hne. symmetry. exact Heq.
Qed.

Lemma statevec_calcExpecValProd_frame_witness :
  snd (statevec_calcExpecValProd (mkQureg false 1 1 0) [0] [PAULI_X] 1
         (mkQureg false 1 1 1) (fun _ => [cone; czero])) 0%nat
  = [cone; czero].
Proof.
  apply (statevec_calcExpecValProd_frame (mkQureg false 1 1 0) [0]
           [PAULI_X] 1 (mkQureg false 1 1 1) (fun _ => [cone; czero])).
  simpl. discriminate.
Defined.

(** C10, as stated, fails when the workspace is the register itself:
    the clone is then a copy onto itself and the Pauli X is applied to
    the register.  On the one-qubit state (1, 0) the register ends as
    (0, 1). *)
Lemma statevec_calcExpecValProd_alias_counterexample :
  snd (statevec_calcExpecValProd (mkQureg false 1 1 0) [0] [PAULI_X] 1
         (mkQureg false 1 1 0) (fun _ => [cone; czero])) 0%nat
  = [czero; cone]
  /\ snd (statevec_calcExpecValProd (mkQureg false 1 1 0) [0] [PAULI_X] 1
            (mkQureg false 1 1 0) (fun _ => [cone; czero])) 0%nat
     <> (fun _ : nat => [cone; czero]) 0%nat.
Proof.
  assert (H : snd (statevec_calcExpecValProd (mkQureg false 1 1 0) [0]
                     [PAULI_X] 1 (mkQureg false 1 1 0)
                     (fun _ => [cone; czero])) 0%nat = [czero; cone])
    by reflexivity.
  split; [exact H |].
  rewrite H. unfold cone, czero. intros Heq.
  injection Heq as Heq. lra.
Qed.

(** The sum over Pauli strings calls the evaluator term by term and
    writes to the workspace only as well. *)
Lemma statevec_calcExpecValSum_writes_workspace (qureg : Qureg)
    (allCodes : list pauliOpType) (termCoeffs : list qreal)
    (numSumTerms : Z) (workspace : Qureg) (st : Store) (h : nat) :
  h <> stateVec workspace ->
  snd (statevec_calcExpecValSum qureg allCodes termCoeffs numSumTerms
         workspace st) h = st h.
Proof.
  intros Hne. unfold statevec_calcExpecValSum.
  destruct (Z_lt_le_dec numSumTerms 0) as [Hneg | Hpos].
  { rewrite for_loop_nonpos by lia. reflexivity. }
  apply (for_loop_ind (fun _ (p : qreal * Store) => snd p h = st h));
    [ | | exact Hpos].
  - reflexivity.
  - intros n [value st'] Hn IH. simpl in IH.
    destruct (statevec_calcExpecValProd qureg _ _ _ workspace st')
      as [v st''] eqn:Hprod.
    simpl. rewrite <- IH.
    change st'' with (snd (v, st'')). rewrite <- Hprod.
    apply statevec_calcExpecValProd_writes_workspace. exact Hne.
Qed.

End ExpectationProofs.

(** ** The square root of SWAP *)

Section SqrtSwapProofs.
Local Open Scope Z_scope.

Lemma ctrlOn_single (i c : Z) :
  0 <= c -> ctrlOn i (Z.shiftl 1 c) = Z.testbit i c.
Proof.
  intros Hc. unfold ctrlOn.
  assert (Hbit : forall m, 0 <= m ->
            Z.testbit (Z.shiftl 1 c) m = (m =? c)).
  { intros m Hm. rewrite Z.shiftl_spec by lia.
    destruct (Z.eqb_spec m c).
    - subst. rewrite Z.sub_diag. reflexivity.
    - destruct (Z_lt_le_dec (m - c) 0).
      + apply Z.testbit_neg_r. lia.
      + apply (Z.bits_above_log2 1); simpl; lia. }
  destruct (Z.testbit i c) eqn:Hic.
  - apply Z.eqb_eq. apply Z.bits_inj'. intros m Hm.
    rewrite Z.land_spec, Hbit by lia.
    destruct (Z.eqb_spec m c); [subst; rewrite Hic; reflexivity |].
    apply andb_false_r.
  - apply Z.eqb_neq. intros Heq.
    assert (Hc1 : Z.testbit (Z.land i (Z.shiftl 1 c)) c = true).
    { rewrite Heq, Hbit by lia. apply Z.eqb_refl. }
    rewrite Z.land_spec, Hic in Hc1. discriminate.
Qed.

Variables (N qb1 qb2 : Z).
Hypothesis Hqb1 : 0 <= qb1 < N.
Hypothesis Hqb2 : 0 <= qb2 < N.
Hypothesis Hdistinct : qb1 <> qb2.

Lemma idx2_range (i : Z) (x1 x2 : bool) :
  0 <= i < 2 ^ N -> 0 <= idx2 qb1 qb2 i x1 x2 < 2 ^ N.
Proof.
  intros Hi. unfold idx2. apply withBit_range; [lia |].
  apply withBit_range; [lia | exact Hi].
Qed.

Lemma idx2_bits (i m : Z) (x1 x2 : bool) :
  Z.testbit (idx2 qb1 qb2 i x1 x2) m
  = if m =? qb2 then x2 else if m =? qb1 then x1 else Z.testbit i m.
Proof. unfold idx2. rewrite !testbit_withBit by lia. reflexivity. Qed.

Lemma idx2_bit1 (i : Z) (x1 x2 : bool) :
  Z.testbit (idx2 qb1 qb2 i x1 x2) qb1 = x1.
Proof.
  rewrite idx2_bits. destruct (Z.eqb_spec qb1 qb2); [lia |].
  rewrite Z.eqb_refl. reflexivity.
Qed.

Lemma idx2_bit2 (i : Z) (x1 x2 : bool) :
  Z.testbit (idx2 qb1 qb2 i x1 x2) qb2 = x2.
Proof. rewrite idx2_bits. rewrite Z.eqb_refl. reflexivity. Qed.

Lemma idx2_own (i : Z) :
  idx2 qb1 qb2 i (Z.testbit i qb1) (Z.testbit i qb2) = i.
Proof.
  apply Z.bits_inj'. intros m Hm. rewrite idx2_bits.
  destruct (Z.eqb_spec m qb2); [subst; reflexivity |].
  destruct (Z.eqb_spec m qb1); [subst; reflexivity | reflexivity].
Qed.

Lemma idx2_flip2 (i : Z) (x1 x2 : bool) :
  flipBit (idx2 qb1 qb2 i x1 x2) qb2 = idx2 qb1 qb2 i x1 (negb x2).
Proof.
  apply Z.bits_inj'. intros m Hm.
  rewrite testbit_flipBit, !idx2_bits by lia.
  destruct (Z.eqb_spec m qb2); reflexivity.
Qed.

Lemma idx2_set1 (i : Z) (x1 x2 b : bool) :
  withBit (idx2 qb1 qb2 i x1 x2) qb1 b = idx2 qb1 qb2 i b x2.
Proof.
  apply Z.bits_inj'. intros m Hm.
  rewrite testbit_withBit, !idx2_bits by lia.
  destruct (Z.eqb_spec m qb1), (Z.eqb_spec m qb2); try lia; reflexivity.
Qed.

Lemma idx2_idx2 (i : Z) (x1 x2 y1 y2 : bool) :
  idx2 qb1 qb2 (idx2 qb1 qb2 i x1 x2) y1 y2 = idx2 qb1 qb2 i y1 y2.
Proof.
  apply Z.bits_inj'. intros m Hm. rewrite !idx2_bits.
  destruct (Z.eqb_spec m qb2), (Z.eqb_spec m qb1); reflexivity.
Qed.

Lemma fiber_controlledNot (a : amps) (i : Z) (x1 x2 : bool) :
  0 <= i < 2 ^ N ->
  fiber qb1 qb2 (k_controlledNot N qb1 qb2 a) i x1 x2
  = if x1 then fiber qb1 qb2 a i x1 (negb x2) else fiber qb1 qb2 a i x1 x2.
Proof.
  intros Hi. unfold fiber, k_controlledNot.
  rewrite getAmp_tabulate by (apply idx2_range; exact Hi).
  rewrite idx2_bit1, idx2_flip2. reflexivity.
Qed.

Lemma fiber_controlledUnitary (u : ComplexMatrix2) (a : amps) (i : Z)
    (x1 x2 : bool) :
  0 <= i < 2 ^ N ->
  fiber qb1 qb2 (k_unitary N (Z.shiftl 1 qb2) qb1 u a) i x1 x2
  = if x2
    then cadd (cmul (mat2_get u x1 false) (fiber qb1 qb2 a i false x2))
              (cmul (mat2_get u x1 true) (fiber qb1 qb2 a i true x2))
    else fiber qb1 qb2 a i x1 x2.
Proof.
  intros Hi. unfold fiber, k_unitary.
  rewrite getAmp_tabulate by (apply idx2_range; exact Hi).
  rewrite ctrlOn_single by lia.
  rewrite idx2_bit1, idx2_bit2, !idx2_set1. reflexivity.
Qed.

Lemma fiber_sqrtSwap (u : ComplexMatrix2) (a : amps) (i : Z) (x1 x2 : bool) :
  0 <= i < 2 ^ N ->
  fiber qb1 qb2 (k_sqrtSwap N qb1 qb2 u a) i x1 x2
  = sqrtSwapFiber u (fiber qb1 qb2 a i) x1 x2.
Proof.
  intros Hi. unfold k_sqrtSwap.
  rewrite fiber_controlledNot by exact Hi.
  destruct x1, x2; simpl;
    rewrite fiber_controlledUnitary by exact Hi;
    rewrite ?fiber_controlledNot by exact Hi; reflexivity.
Qed.

Lemma sqrtSwapFiber_twice (u : ComplexMatrix2) (v : bool -> bool -> Complex)
    (x1 x2 : bool) :
  mat2_mul u u = pauliXMatrix ->
  sqrtSwapFiber u (sqrtSwapFiber u v) x1 x2 = v x2 x1.
Proof.
  intros Hu. unfold mat2_mul, pauliXMatrix in Hu.
  injection Hu as H00r H00i H01r H01i H10r H10i H11r H11i.
  destruct u as [[ar ai] [br bi] [cr ci] [dr di]]. simpl in *.
  destruct x1, x2; simpl; try reflexivity.
  - destruct (v false true) as [xr xi], (v true false) as [yr yi].
    apply complex_eq; simpl.
    + transitivity ((cr * ar - ci * ai + (dr * cr - di * ci)) * xr
                    - (cr * ai + ci * ar + (dr * ci + di * cr)) * xi
                    + ((cr * br - ci * bi + (dr * dr - di * di)) * yr
                       - (cr * bi + ci * br + (dr * di + di * dr)) * yi))%R;
        [ring |].
      rewrite H10r, H10i, H11r, H11i. ring.
    + transitivity ((cr * ar - ci * ai + (dr * cr - di * ci)) * xi
                    + (cr * ai + ci * ar + (dr * ci + di * cr)) * xr
                    + ((cr * br - ci * bi + (dr * dr - di * di)) * yi
                       + (cr * bi + ci * br + (dr * di + di * dr)) * yr))%R;
        [ring |].
      rewrite H10r, H10i, H11r, H11i. ring.
  - destruct (v false true) as [xr xi], (v true false) as [yr yi].
    apply complex_eq; simpl.
    + transitivity ((ar * ar - ai * ai + (br * cr - bi * ci)) * xr
                    - (ar * ai + ai * ar + (br * ci + bi * cr)) * xi
                    + ((ar * br - ai * bi + (br * dr - bi * di)) * yr
                       - (ar * bi + ai * br + (br * di + bi * dr)) * yi))%R;
        [ring |].
      rewrite H00r, H00i, H01r, H01i. ring.
    + transitivity ((ar * ar - ai * ai + (br * cr - bi * ci)) * xi
                    + (ar * ai + ai * ar + (br * ci + bi * cr)) * xr
                    + ((ar * br - ai * bi + (br * dr - bi * di)) * yi
                       + (ar * bi + ai * br + (br * di + bi * dr)) * yr))%R;
        [ring |].
      rewrite H00r, H00i, H01r, H01i. ring.
Qed.

Lemma sqrtSwapFiber_ext (u : ComplexMatrix2) (v w : bool -> bool -> Complex)
    (x1 x2 : bool) :
  (forall y1 y2, v y1 y2 = w y1 y2) ->
  sqrtSwapFiber u v x1 x2 = sqrtSwapFiber u w x1 x2.
Proof.
  intros Hvw. unfold sqrtSwapFiber. rewrite !Hvw. reflexivity.
Qed.

(** Two square roots of SWAP exchange the two bits of the index. *)
Lemma k_sqrtSwap_twice (u : ComplexMatrix2) (a : amps) (i : Z) :
  mat2_mul u u = pauliXMatrix -> 0 <= i < 2 ^ N ->
  getAmp (k_sqrtSwap N qb1 qb2 u (k_sqrtSwap N qb1 qb2 u a)) i
  = fiber qb1 qb2 a i (Z.testbit i qb2) (Z.testbit i qb1).
Proof.
  intros Hu Hi.
  rewrite <- (idx2_own i) at 1.
  change (getAmp ?b (idx2 qb1 qb2 i ?x1 ?x2)) with (fiber qb1 qb2 b i x1 x2).
  rewrite fiber_sqrtSwap by exact Hi.
  rewrite (sqrtSwapFiber_ext u _ (sqrtSwapFiber u (fiber qb1 qb2 a i)))
    by (intros; apply fiber_sqrtSwap; exact Hi).
  apply sqrtSwapFiber_twice. exact Hu.
Qed.

(** So does the closed-form SWAP matrix, applied as a two-qubit
    operator. *)
Lemma k_twoQubitUnitary_swap (a : amps) (i : Z) :
  0 <= i < 2 ^ N ->
  getAmp (k_twoQubitUnitary N 0 qb1 qb2 swapMatrix a) i
  = fiber qb1 qb2 a i (Z.testbit i qb2) (Z.testbit i qb1).
Proof.
  intros Hi. unfold k_twoQubitUnitary.
  rewrite getAmp_tabulate by exact Hi. rewrite ctrlOn_zero.
  unfold fiber, idx2.
  destruct (Z.testbit i qb1), (Z.testbit i qb2); simpl; complex_ring.
Qed.

End SqrtSwapProofs.

Section SqrtSwapGateProofs.
Local Open Scope Z_scope.

Lemma sqrtSwapU_squared : mat2_mul sqrtSwapU sqrtSwapU = pauliXMatrix.
Proof.
  unfold mat2_mul, sqrtSwapU, pauliXMatrix, cone, czero. simpl.
  f_equal; apply complex_eq; simpl; field.
Qed.

Lemma sqrtSwapUConj_squared :
  mat2_mul sqrtSwapUConj sqrtSwapUConj = pauliXMatrix.
Proof.
  unfold mat2_mul, sqrtSwapUConj, pauliXMatrix, cone, czero. simpl.
  f_equal; apply complex_eq; simpl; field.
Qed.

Lemma statevec_sqrtSwapGate_amps (qureg : Qureg) (qb1 qb2 : Z) (st : Store) :
  statevec_sqrtSwapGate qureg qb1 qb2 st (stateVec qureg)
  = k_sqrtSwap (numQubitsInStateVec qureg) qb1 qb2 sqrtSwapU
      (st (stateVec qureg)).
Proof.
  unfold statevec_sqrtSwapGate, seqc. simpl. unfold on_qureg.
  rewrite !store_set_same. reflexivity.
Qed.

Lemma statevec_sqrtSwapGateConj_amps (qureg : Qureg) (qb1 qb2 : Z)
    (st : Store) :
  statevec_sqrtSwapGateConj qureg qb1 qb2 st (stateVec qureg)
  = k_sqrtSwap (numQubitsInStateVec qureg) qb1 qb2 sqrtSwapUConj
      (st (stateVec qureg)).
Proof.
  unfold statevec_sqrtSwapGateConj, seqc. simpl. unfold on_qureg.
  rewrite !store_set_same. reflexivity.
Qed.

Lemma k_sqrtSwap_length (N qb1 qb2 : Z) (u : ComplexMatrix2) (a : amps) :
  length (k_sqrtSwap N qb1 qb2 u a) = Z.to_nat (2 ^ N).
Proof. unfold k_sqrtSwap, k_controlledNot. apply tabulate_length. Qed.

(** The gate applied twice gives exactly the amplitudes of SWAP. *)
Lemma k_sqrtSwap_twice_is_swap (N qb1 qb2 : Z) (u : ComplexMatrix2)
    (a : amps) :
  0 <= qb1 < N -> 0 <= qb2 < N -> qb1 <> qb2 ->
  mat2_mul u u = pauliXMatrix ->
  k_sqrtSwap N qb1 qb2 u (k_sqrtSwap N qb1 qb2 u a)
  = k_twoQubitUnitary N 0 qb1 qb2 swapMatrix a.
Proof.
  intros H1 H2 Hne Hu.
  rewrite <- (tabulate_getAmp (2 ^ N) (k_sqrtSwap N qb1 qb2 u _))
    by apply k_sqrtSwap_length.
  rewrite <- (tabulate_getAmp (2 ^ N) (k_twoQubitUnitary N 0 qb1 qb2 _ _))
    by (unfold k_twoQubitUnitary; apply tabulate_length).
  apply tabulate_ext. intros i Hi.
  rewrite k_sqrtSwap_twice, k_twoQubitUnitary_swap by assumption.
  reflexivity.
Qed.

Lemma ampsEqualUpToPhase_refl (a : amps) : ampsEqualUpToPhase a a.
Proof.
  exists 0%R. unfold cexpi. rewrite cos_0, sin_0.
  rewrite <- (map_id a) at 1. apply map_ext. intros c.
  symmetry. apply cmul_cone_l.
Qed.

(** C9.  On a register of N qubits (N = 2 in particular) and distinct
    qubits qb1, qb2 below N, [statevec_sqrtSwapGate] applied twice gives
    the amplitudes that the closed-form SWAP matrix gives when applied to
    qb1 and qb2, up to a global phase (the phase factor is 1). *)
Theorem statevec_sqrtSwapGate_twice (qureg : Qureg) (st : Store)
    (qb1 qb2 : Z) :
  let N := numQubitsInStateVec qureg in
  0 <= qb1 < N -> 0 <= qb2 < N -> qb1 <> qb2 ->
  ampsEqualUpToPhase
    (statevec_sqrtSwapGate qureg qb1 qb2
       (statevec_sqrtSwapGate qureg qb1 qb2 st) (stateVec qureg))
    (statevec_twoQubitUnitary qureg qb1 qb2 swapMatrix st (stateVec qureg)).
Proof.
  intros N H1 H2 Hne.
  rewrite !statevec_sqrtSwapGate_amps. fold N.
  rewrite (k_sqrtSwap_twice_is_swap N qb1 qb2 sqrtSwapU _ H1 H2 Hne
             sqrtSwapU_squared).
  unfold statevec_twoQubitUnitary. simpl. unfold on_qureg.
  rewrite store_set_same. fold N. apply ampsEqualUpToPhase_refl.
Qed.

Lemma statevec_sqrtSwapGate_twice_witness :
  ampsEqualUpToPhase
    (statevec_sqrtSwapGate (mkQureg false 2 2 0) 0 1
       (statevec_sqrtSwapGate (mkQureg false 2 2 0) 0 1
          (fun _ => [czero; cone; czero; czero])) 0%nat)
    (statevec_twoQubitUnitary (mkQureg false 2 2 0) 0 1 swapMatrix
       (fun _ => [czero; cone; czero; czero]) 0%nat).
Proof.
  apply (statevec_sqrtSwapGate_twice (mkQureg false 2 2 0)
           (fun _ => [czero; cone; czero; czero]) 0 1); simpl; lia.
Defined.

(** The conjugate gate applied twice is SWAP as well. *)
Lemma statevec_sqrtSwapGateConj_twice (qureg : Qureg) (st : Store)
    (qb1 qb2 : Z) :
  let N := numQubitsInStateVec qureg in
  0 <= qb1 < N -> 0 <= qb2 < N -> qb1 <> qb2 ->
  statevec_sqrtSwapGateConj qureg qb1 qb2
    (statevec_sqrtSwapGateConj qureg qb1 qb2 st) (stateVec qureg)
  = statevec_twoQubitUnitary qureg qb1 qb2 swapMatrix st (stateVec qureg).
Proof.
  intros N H1 H2 Hne.
  rewrite !statevec_sqrtSwapGateConj_amps. fold N.
  rewrite (k_sqrtSwap_twice_is_swap N qb1 qb2 sqrtSwapUConj _ H1 H2 Hne
             sqrtSwapUConj_squared).
  unfold statevec_twoQubitUnitary. simpl. unfold on_qureg.
  rewrite store_set_same. reflexivity.
Qed.

(** On a register of two qubits SWAP exchanges the amplitudes of 01 and
    10, whichever of the two qubits comes first. *)
Lemma swap_on_two_qubits (a0 a1 a2 a3 : Complex) :
  k_twoQubitUnitary 2 0 0 1 swapMatrix [a0; a1; a2; a3] = [a0; a2; a1; a3]
  /\ k_twoQubitUnitary 2 0 1 0 swapMatrix [a0; a1; a2; a3]
     = [a0; a2; a1; a3].
Proof.
  split; unfold k_twoQubitUnitary, tabulate; simpl;
    unfold getAmp, arr_get; simpl;
    repeat (apply f_equal2; [complex_ring |]); reflexivity.
Qed.

(** The gate applied twice to a register of two qubits (a0, a1, a2, a3)
    gives (a0, a2, a1, a3). *)
Lemma sqrtSwapGate_twice_on_two_qubits (qureg : Qureg) (st : Store)
    (qb1 qb2 : Z) (a0 a1 a2 a3 : Complex) :
  numQubitsInStateVec qureg = 2 ->
  st (stateVec qureg) = [a0; a1; a2; a3] ->
  0 <= qb1 < 2 -> 0 <= qb2 < 2 -> qb1 <> qb2 ->
  statevec_sqrtSwapGate qureg qb1 qb2
    (statevec_sqrtSwapGate qureg qb1 qb2 st) (stateVec qureg)
  = [a0; a2; a1; a3].
Proof.
  intros HN Hst H1 H2 Hne.
  rewrite !statevec_sqrtSwapGate_amps, HN, Hst.
  rewrite (k_sqrtSwap_twice_is_swap 2 qb1 qb2 sqrtSwapU _ H1 H2 Hne
             sqrtSwapU_squared).
  assert (Hcase : (qb1 = 0 /\ qb2 = 1) \/ (qb1 = 1 /\ qb2 = 0)) by lia.
  destruct Hcase as [[-> ->] | [-> ->]]; apply swap_on_two_qubits.
Qed.

End SqrtSwapGateProofs.

(** * Further properties of the code *)

(** ** Bit masks *)

Section MaskProofs.
Local Open Scope Z_scope.

Lemma wrap_ll_small (v : Z) : - 2 ^ 63 <= v < 2 ^ 63 -> wrap_ll v = v.
Proof.
  intros Hv. unfold wrap_ll. rewrite Z.mod_small by lia. lia.
Qed.

Lemma ll_shl_one (q : Z) : 0 <= q < 63 -> ll_shl 1 q = 2 ^ q.
Proof.
  intros Hq. unfold ll_shl. rewrite Z.shiftl_1_l.
  apply wrap_ll_small.
  assert (0 < 2 ^ q) by (apply Z.pow_pos_nonneg; lia).
  assert (2 ^ q < 2 ^ 63) by (apply Z.pow_lt_mono_r; lia). lia.
Qed.

Lemma testbit_ll_shl_one (q m : Z) :
  0 <= q < 63 -> Z.testbit (ll_shl 1 q) m = (q =? m).
Proof.
  intros Hq. rewrite ll_shl_one by exact Hq.
  apply Z.pow2_bits_eqb. lia.
Qed.

Lemma getQubitBitMask_testbit (qubits : list Z) (numQubits m : Z) :
  0 <= numQubits ->
  (forall i, 0 <= i < numQubits -> 0 <= arr_get qubits i 0 < 63) ->
  Z.testbit (getQubitBitMask qubits numQubits) m = true
  <-> exists i, 0 <= i < numQubits /\ arr_get qubits i 0 = m.
Proof.
  intros Hn Hrange. revert Hrange m. unfold getQubitBitMask.
  pattern numQubits. apply natlike_ind; [ | | exact Hn].
  - intros _ m'. rewrite for_loop_nonpos by lia.
    rewrite Z.bits_0. split; [discriminate |].
    intros [i [Hi _]]. lia.
  - intros n Hn' IH Hrange m'. change (Z.succ n) with (n + 1).
    rewrite for_loop_succ by lia. unfold ll_or.
    rewrite Z.lor_spec, orb_true_iff.
    rewrite IH by (intros; apply Hrange; lia).
    rewrite testbit_ll_shl_one by (apply Hrange; lia).
    rewrite Z.eqb_eq. split.
    + intros [[i [Hi Hq]] | Hq].
      * exists i. split; [lia | exact Hq].
      * exists n. split; [lia | exact Hq].
    + intros [i [Hi Hq]].
      destruct (Z.eq_dec i n) as [-> | Hne]; [right; exact Hq |].
      left. exists i. split; [lia | exact Hq].
Qed.

(** X1.  For qubit indices in [0, 63) the bit [m] of the mask built by
    [getQubitBitMask] is 1 exactly when [m] is one of the first
    [numQubits] qubits of the list; the mask is a non-negative
    [long long int] (no wrap-around). *)
Theorem getQubitBitMask_bits (qubits : list Z) (numQubits m : Z) :
  0 <= numQubits <= Z.of_nat (length qubits) ->
  (forall i, 0 <= i < numQubits -> 0 <= arr_get qubits i 0 < 63) ->
  (Z.testbit (getQubitBitMask qubits numQubits) m = true
   <-> exists i, 0 <= i < numQubits /\ arr_get qubits i 0 = m)
  /\ 0 <= getQubitBitMask qubits numQubits < 2 ^ 63.
Proof.
  intros [Hn _] Hrange.
  split; [apply getQubitBitMask_testbit; assumption |].
  apply range_bits; [lia |]. intros m' Hm'.
  destruct (Z.testbit _ m') eqn:Hb; [| reflexivity].
  apply (getQubitBitMask_testbit qubits numQubits m' Hn Hrange) in Hb.
  destruct Hb as [i [Hi Hq]].
  specialize (Hrange i Hi). lia.
Qed.

Lemma getQubitBitMask_bits_witness :
  Z.testbit (getQubitBitMask [4; 1] 2) 1 = true
  <-> exists i, 0 <= i < 2 /\ arr_get [4; 1] i 0 = 1.
Proof.
  refine (proj1 (getQubitBitMask_bits [4; 1] 2 1 _ _)).
  - simpl. lia.
  - intros i Hi. assert (Hc : i = 0 \/ i = 1) by lia.
    destruct Hc as [-> | ->]; unfold arr_get; simpl; lia.
Defined.

(** X2.  For control qubits in [0, 63) the bit [m] of the mask built by
    [getControlFlipMask] is 1 exactly when [m] is a control qubit whose
    control state is 0, and every bit of it is a bit of the mask of all
    the control qubits. *)
Theorem getControlFlipMask_bits (controlQubits controlState : list Z)
    (numControlQubits m : Z) :
  0 <= numControlQubits <= Z.of_nat (length controlQubits) ->
  (forall i, 0 <= i < numControlQubits ->
     0 <= arr_get controlQubits i 0 < 63) ->
  (Z.testbit (getControlFlipMask controlQubits controlState numControlQubits)
     m = true
   <-> exists i, 0 <= i < numControlQubits
                 /\ arr_get controlState i 0 = 0
                 /\ arr_get controlQubits i 0 = m)
  /\ Z.land (getControlFlipMask controlQubits controlState numControlQubits)
            (getQubitBitMask controlQubits numControlQubits)
     = getControlFlipMask controlQubits controlState numControlQubits.
Proof.
  intros Hn Hrange.
  assert (Hbits : forall m,
    Z.testbit (getControlFlipMask controlQubits controlState
                 numControlQubits) m = true
    <-> exists i, 0 <= i < numControlQubits
                  /\ arr_get controlState i 0 = 0
                  /\ arr_get controlQubits i 0 = m).
  { destruct Hn as [Hn _]. revert Hrange. unfold getControlFlipMask.
    pattern numControlQubits. apply natlike_ind; [ | | exact Hn].
    - intros _ m'. rewrite for_loop_nonpos by lia.
      rewrite Z.bits_0. split; [discriminate |].
      intros [i [Hi _]]. lia.
    - intros n Hn' IH Hrange m'. change (Z.succ n) with (n + 1).
      rewrite for_loop_succ by lia.
      specialize (IH ltac:(intros; apply Hrange; lia) m').
      destruct (Z.eqb_spec (arr_get controlState n 0) 0) as [Hs | Hs].
      + unfold ll_or. rewrite Z.lor_spec, orb_true_iff, IH.
        rewrite testbit_ll_shl_one by (apply Hrange; lia).
        rewrite Z.eqb_eq. split.
        * intros [[i [Hi Hq]] | Hq].
          -- exists i. split; [lia | exact Hq].
          -- exists n. split; [lia |]. split; assumption.
        * intros [i [Hi [Hsi Hq]]].
          destruct (Z.eq_dec i n) as [-> | Hne]; [right; exact Hq |].
          left. exists i. split; [lia |]. split; assumption.
      + rewrite IH. split.
        * intros [i [Hi Hq]]. exists i. split; [lia | exact Hq].
        * intros [i [Hi [Hsi Hq]]].
          destruct (Z.eq_dec i n) as [-> | Hne]; [contradiction |].
          exists i. split; [lia |]. split; assumption. }
  split; [apply Hbits |].
  apply Z.bits_inj'. intros m' Hm'. rewrite Z.land_spec.
  destruct (Z.testbit (getControlFlipMask _ _ _) m') eqn:Hb;
    [| reflexivity].
  apply Hbits in Hb. destruct Hb as [i [Hi [_ Hq]]].
  simpl. apply (getQubitBitMask_testbit controlQubits numControlQubits
                  m' (proj1 Hn) Hrange).
  exists i. split; assumption.
Qed.

Lemma getControlFlipMask_bits_witness :
  Z.land (getControlFlipMask [4; 1] [0; 1] 2) (getQubitBitMask [4; 1] 2)
  = getControlFlipMask [4; 1] [0; 1] 2.
Proof.
  refine (proj2 (getControlFlipMask_bits [4; 1] [0; 1] 2 0 _ _)).
  - simpl. lia.
  - intros i Hi. assert (Hc : i = 0 \/ i = 1) by lia.
    destruct Hc as [-> | ->]; unfold arr_get; simpl; lia.
Defined.

(** X3.  [ensureIndsIncrease] leaves the smaller of the two indices in
    [*ind1] and the larger in [*ind2]. *)
Theorem ensureIndsIncrease_sorted (ind1 ind2 : Z) :
  ensureIndsIncrease ind1 ind2 = (Z.min ind1 ind2, Z.max ind1 ind2)
  /\ fst (ensureIndsIncrease ind1 ind2) <= snd (ensureIndsIncrease ind1 ind2).
Proof.
  unfold ensureIndsIncrease.
  destruct (Z.gtb_spec ind1 ind2); cbv zeta; simpl; split;
    try lia; f_equal; lia.
Qed.

End MaskProofs.

(** ** Conjugation *)

Section ConjugationProofs.
Local Open Scope R_scope.

Lemma getConjugateScalar_involutive (c : Complex) :
  getConjugateScalar (getConjugateScalar c) = c.
Proof. destruct c. unfold getConjugateScalar. simpl. f_equal. ring. Qed.

Lemma getConjugateScalar_cmul (a b : Complex) :
  getConjugateScalar (cmul a b)
  = cmul (getConjugateScalar a) (getConjugateScalar b).
Proof. complex_ring. Qed.

Lemma getConjugateScalar_cadd (a b : Complex) :
  getConjugateScalar (cadd a b)
  = cadd (getConjugateScalar a) (getConjugateScalar b).
Proof. complex_ring. Qed.

Lemma mat2_ext (a b : ComplexMatrix2) :
  r0c0 a = r0c0 b -> r0c1 a = r0c1 b -> r1c0 a = r1c0 b ->
  r1c1 a = r1c1 b -> a = b.
Proof. destruct a, b. simpl. intros -> -> -> ->. reflexivity. Qed.

(** X4.  [getConjugateMatrix2] is an involution and commutes with the
    matrix product: the conjugate of a product of operators is the
    product of their conjugates. *)
Theorem getConjugateMatrix2_product (a b : ComplexMatrix2) :
  getConjugateMatrix2 (getConjugateMatrix2 a) = a
  /\ getConjugateMatrix2 (mat2_mul a b)
     = mat2_mul (getConjugateMatrix2 a) (getConjugateMatrix2 b).
Proof.
  split.
  - apply mat2_ext; apply getConjugateScalar_involutive.
  - apply mat2_ext; simpl;
      rewrite getConjugateScalar_cadd, !getConjugateScalar_cmul;
      reflexivity.
Qed.

End ConjugationProofs.

Section Conjugation4Proofs.
Local Open Scope Z_scope.

Lemma mat4_ext (a b : ComplexMatrix4) :
  (forall r c, (0 <= r < 4) -> (0 <= c < 4) ->
     mat4_get a r c = mat4_get b r c) ->
  a = b.
Proof.
  intros H. destruct a, b.
  pose proof (H 0 0 ltac:(lia) ltac:(lia)) as H00.
  pose proof (H 0 1 ltac:(lia) ltac:(lia)) as H01.
  pose proof (H 0 2 ltac:(lia) ltac:(lia)) as H02.
  pose proof (H 0 3 ltac:(lia) ltac:(lia)) as H03.
  pose proof (H 1 0 ltac:(lia) ltac:(lia)) as H10.
  pose proof (H 1 1 ltac:(lia) ltac:(lia)) as H11.
  pose proof (H 1 2 ltac:(lia) ltac:(lia)) as H12.
  pose proof (H 1 3 ltac:(lia) ltac:(lia)) as H13.
  pose proof (H 2 0 ltac:(lia) ltac:(lia)) as H20.
  pose proof (H 2 1 ltac:(lia) ltac:(lia)) as H21.
  pose proof (H 2 2 ltac:(lia) ltac:(lia)) as H22.
  pose proof (H 2 3 ltac:(lia) ltac:(lia)) as H23.
  pose proof (H 3 0 ltac:(lia) ltac:(lia)) as H30.
  pose proof (H 3 1 ltac:(lia) ltac:(lia)) as H31.
  pose proof (H 3 2 ltac:(lia) ltac:(lia)) as H32.
  pose proof (H 3 3 ltac:(lia) ltac:(lia)) as H33.
  clear H. unfold mat4_get, elem_get, arr_get in *. simpl in *.
  subst. reflexivity.
Qed.

Lemma getConjugateMatrix4_entry (u : ComplexMatrix4) (r c : Z) :
  (0 <= r < 4) -> (0 <= c < 4) ->
  mat4_get (getConjugateMatrix4 u) r c = getConjugateScalar (mat4_get u r c).
Proof.
  intros Hr Hc.
  assert (Hr' : r = 0 \/ r = 1 \/ r = 2 \/ r = 3) by lia.
  assert (Hc' : c = 0 \/ c = 1 \/ c = 2 \/ c = 3) by lia.
  destruct Hr' as [-> | [-> | [-> | ->]]];
    destruct Hc' as [-> | [-> | [-> | ->]]];
    unfold mat4_get, elem_get, arr_get; simpl; complex_ring.
Qed.

(** X5.  [getConjugateMatrix4] conjugates every entry, is an
    involution, and the superoperator of the conjugated Kraus operators
    is the conjugate of the superoperator. *)
Theorem getConjugateMatrix4_spec (u : ComplexMatrix4)
    (ops : list ComplexMatrix2) (numOps : Z) :
  (forall r c, (0 <= r < 4) -> (0 <= c < 4) ->
     mat4_get (getConjugateMatrix4 u) r c
     = getConjugateScalar (mat4_get u r c))
  /\ getConjugateMatrix4 (getConjugateMatrix4 u) = u
  /\ getOneQubitKrausSuperoperator (map getConjugateMatrix2 ops) numOps
     = getConjugateMatrix4 (getOneQubitKrausSuperoperator ops numOps).
Proof.
  split; [apply getConjugateMatrix4_entry |]. split.
  - apply mat4_ext. intros r c Hr Hc.
    rewrite !getConjugateMatrix4_entry by assumption.
    apply getConjugateScalar_involutive.
  - apply mat4_ext. intros r c Hr Hc.
    rewrite getConjugateMatrix4_entry by assumption.
    assert (Hrc : exists i j k l,
              (0 <= i < 2 /\ 0 <= j < 2 /\ 0 <= k < 2 /\ 0 <= l < 2
               /\ r = i * 2 + k /\ c = j * 2 + l)).
    { exists (r / 2), (c / 2), (r mod 2), (c mod 2).
      pose proof (Z.div_mod r 2 ltac:(lia)).
      pose proof (Z.div_mod c 2 ltac:(lia)).
      pose proof (Z.mod_pos_bound r 2 ltac:(lia)).
      pose proof (Z.mod_pos_bound c 2 ltac:(lia)).
      repeat split; try lia;
        try (apply Z.div_pos; lia);
        try (apply Z.div_lt_upper_bound; lia). }
    destruct Hrc as [i [j [k [l [Hi [Hj [Hk [Hl [-> ->]]]]]]]]].
    rewrite !getOneQubitKrausSuperoperator_entry by assumption.
    unfold tensorSumEntry.
    destruct (Z_lt_le_dec numOps 0) as [Hneg | Hpos].
    { rewrite !csum_nonpos by lia. complex_ring. }
    pattern numOps. apply natlike_ind; [ | | exact Hpos].
    + rewrite !csum_nonpos by lia. complex_ring.
    + intros n Hn IH. change (Z.succ n) with (n + 1).
      rewrite !csum_succ by lia. rewrite IH.
      rewrite getConjugateScalar_cadd. f_equal. cbv zeta.
      rewrite getConjugateScalar_cmul.
      assert (Hget : arr_get (map getConjugateMatrix2 ops) n zeroMatrix2
                     = getConjugateMatrix2 (arr_get ops n zeroMatrix2)).
      { unfold arr_get.
        rewrite <- (map_nth getConjugateMatrix2 ops zeroMatrix2 (Z.to_nat n)).
        replace (getConjugateMatrix2 zeroMatrix2) with zeroMatrix2;
          [reflexivity |].
        apply mat2_ext; complex_ring. }
      rewrite Hget.
      assert (Hat : forall (K : ComplexMatrix2) (p q : Z),
                (0 <= p < 2) -> (0 <= q < 2) ->
                mat2_at (getConjugateMatrix2 K) p q
                = getConjugateScalar (mat2_at K p q)).
      { intros K p q Hp Hq.
        assert (Hp' : p = 0 \/ p = 1) by lia.
        assert (Hq' : q = 0 \/ q = 1) by lia.
        destruct Hp' as [-> | ->]; destruct Hq' as [-> | ->]; reflexivity. }
      rewrite !Hat by assumption. reflexivity.
Qed.

Lemma getConjugateMatrix4_spec_witness :
  mat4_get (getConjugateMatrix4 swapMatrix) 1 2
  = getConjugateScalar (mat4_get swapMatrix 1 2).
Proof.
  apply (proj1 (getConjugateMatrix4_spec swapMatrix [] 0)); lia.
Defined.

End Conjugation4Proofs.

(** ** Index arrays *)

Section ShiftIndicesProofs.
Local Open Scope Z_scope.

Lemma wrap_int_small (v : Z) : - 2 ^ 31 <= v < 2 ^ 31 -> wrap_int v = v.
Proof.
  intros Hv. unfold wrap_int. rewrite Z.mod_small by lia. lia.
Qed.

Lemma wrap_int_cancel (v s : Z) :
  - 2 ^ 31 <= v < 2 ^ 31 -> wrap_int (wrap_int (v + s) - s) = v.
Proof.
  intros Hv. unfold wrap_int.
  replace ((v + s + 2 ^ 31) mod 2 ^ 32 - 2 ^ 31 - s + 2 ^ 31)
    with ((v + s + 2 ^ 31) mod 2 ^ 32 - s) by lia.
  rewrite Zminus_mod_idemp_l.
  replace (v + s + 2 ^ 31 - s) with (v + 2 ^ 31) by lia.
  rewrite Z.mod_small by lia. lia.
Qed.

Lemma shiftIndices_loop (indices : list Z) (n shift : Z) :
  0 <= n <= Z.of_nat (length indices) ->
  length (shiftIndices indices n shift) = length indices
  /\ forall j, 0 <= j ->
       arr_get (shiftIndices indices n shift) j 0
       = if j <? n then wrap_int (arr_get indices j 0 + shift)
         else arr_get indices j 0.
Proof.
  intros [Hn Hlen]. revert Hlen. unfold shiftIndices. pattern n.
  apply natlike_ind; [ | | exact Hn].
  - intros _. rewrite for_loop_nonpos by lia. split; [reflexivity |].
    intros j Hj. destruct (Z.ltb_spec j 0); [lia | reflexivity].
  - intros m Hm IH Hlen. change (Z.succ m) with (m + 1).
    rewrite for_loop_succ by lia.
    destruct (IH ltac:(lia)) as [IHlen IHget].
    split; [rewrite list_set_length; exact IHlen |].
    intros j Hj. unfold arr_get at 1.
    rewrite nth_list_set by lia.
    destruct (Nat.eqb_spec (Z.to_nat j) (Z.to_nat m)) as [Heq | Hne].
    + assert (j = m) by lia. subst j.
      rewrite IHget by lia.
      destruct (Z.ltb_spec m m); [lia |].
      destruct (Z.ltb_spec m (m + 1)); [reflexivity | lia].
    + fold (arr_get (for_loop m
        (fun j0 ind => list_set ind (Z.to_nat j0)
                         (wrap_int (arr_get ind j0 0 + shift))) indices) j 0).
      rewrite IHget by lia.
      destruct (Z.ltb_spec j m), (Z.ltb_spec j (m + 1));
        try lia; reflexivity.
Qed.

(** X6.  [shiftIndices] adds [shift] (in [int] arithmetic) to the first
    [numIndices] entries and leaves the others and the length as they
    were; shifting back by [-shift] restores an array of [int] values. *)
Theorem shiftIndices_spec (indices : list Z) (numIndices shift : Z) :
  0 <= numIndices <= Z.of_nat (length indices) ->
  Forall (fun v => - 2 ^ 31 <= v < 2 ^ 31) indices ->
  length (shiftIndices indices numIndices shift) = length indices
  /\ (forall j, 0 <= j ->
        arr_get (shiftIndices indices numIndices shift) j 0
        = if j <? numIndices then wrap_int (arr_get indices j 0 + shift)
          else arr_get indices j 0)
  /\ shiftIndices (shiftIndices indices numIndices shift) numIndices (- shift)
     = indices.
Proof.
  intros Hn Hint.
  destruct (shiftIndices_loop indices numIndices shift Hn) as [Hlen Hget].
  split; [exact Hlen |]. split; [exact Hget |].
  destruct (shiftIndices_loop (shiftIndices indices numIndices shift)
              numIndices (- shift) ltac:(lia)) as [Hlen2 Hget2].
  apply nth_ext with (d := 0) (d' := 0); [lia |].
  intros k Hk. rewrite Hlen2, Hlen in Hk.
  pose proof (Hget2 (Z.of_nat k) ltac:(lia)) as H2.
  pose proof (Hget (Z.of_nat k) ltac:(lia)) as H1.
  unfold arr_get in H1, H2. rewrite Nat2Z.id in H1, H2.
  rewrite H2, H1.
  destruct (Z.ltb_spec (Z.of_nat k) numIndices); [| reflexivity].
  replace (wrap_int (nth k indices 0 + shift) + - shift)
    with (wrap_int (nth k indices 0 + shift) - shift) by lia.
  apply wrap_int_cancel.
  rewrite Forall_forall in Hint. apply Hint. apply nth_In. exact Hk.
Qed.

Lemma shiftIndices_spec_witness :
  shiftIndices (shiftIndices [0; 2; 5] 2 3) 2 (- 3) = [0; 2; 5].
Proof.
  refine (proj2 (proj2 (shiftIndices_spec [0; 2; 5] 2 3 _ _))).
  - simpl. lia.
  - repeat constructor; lia.
Defined.

End ShiftIndicesProofs.

(** ** Conjugation of a matrix of any dimension *)

Section ConjugateMatrixNProofs.
Local Open Scope Z_scope.

Lemma square_ext (N : nat) (e e' : list (list Complex)) :
  squareOf N e -> squareOf N e' ->
  (forall r c, 0 <= r < Z.of_nat N -> 0 <= c < Z.of_nat N ->
     elem_get e r c = elem_get e' r c) ->
  e = e'.
Proof.
  intros Hsq Hsq' Hget. pose proof Hsq as [Hlen _].
  pose proof Hsq' as [Hlen' _].
  apply nth_ext with (d := []) (d' := []); [lia |].
  intros r Hr.
  apply nth_ext with (d := czero) (d' := czero).
  - rewrite (squareOf_row N e r Hsq), (squareOf_row N e' r Hsq') by lia.
    reflexivity.
  - intros c Hc. rewrite (squareOf_row N e r Hsq) in Hc by lia.
    pose proof (Hget (Z.of_nat r) (Z.of_nat c) ltac:(lia) ltac:(lia)) as H.
    unfold elem_get, arr_get in H. rewrite !Nat2Z.id in H. exact H.
Qed.

Lemma matrixN_ext (N : nat) (a b : ComplexMatrixN) :
  numQubits a = numQubits b -> numRows a = numRows b ->
  squareOf N (elems a) -> squareOf N (elems b) ->
  (forall r c, 0 <= r < Z.of_nat N -> 0 <= c < Z.of_nat N ->
     elem_get (elems a) r c = elem_get (elems b) r c) ->
  a = b.
Proof.
  destruct a, b. simpl. intros -> -> Hsa Hsb Hget. f_equal.
  apply (square_ext N); assumption.
Qed.

(** The element with its imaginary part negated, as the loop body
    computes it. *)
Local Abbreviation negIm e := (mkComplex (real e) (imag e * -1)).

Lemma conjugate_row (N : nat) (u : ComplexMatrixN) (r m : Z) :
  squareOf N (elems u) -> 0 <= r < Z.of_nat N -> 0 <= m <= Z.of_nat N ->
  let u' := for_loop m (fun c u =>
              let e := elem_get (elems u) r c in
              mkComplexMatrixN (numQubits u) (numRows u)
                (elem_set (elems u) r c
                   (mkComplex (real e) (imag e * -1)))) u in
  numQubits u' = numQubits u /\ numRows u' = numRows u
  /\ squareOf N (elems u')
  /\ forall r' c', 0 <= r' -> 0 <= c' ->
       elem_get (elems u') r' c'
       = if (r' =? r) && (c' <? m) then negIm (elem_get (elems u) r' c')
         else elem_get (elems u) r' c'.
Proof.
  intros Hsq Hr [Hm Hle]. cbv zeta. revert Hle. pattern m.
  apply natlike_ind; [ | | exact Hm].
  - intros _. rewrite for_loop_nonpos by lia.
    split; [reflexivity |]. split; [reflexivity |]. split; [exact Hsq |].
    intros r' c' Hr' Hc'.
    destruct (Z.ltb_spec c' 0); [lia |]. rewrite andb_false_r. reflexivity.
  - intros k Hk IH Hle. change (Z.succ k) with (k + 1).
    rewrite for_loop_succ by lia.
    destruct (IH ltac:(lia)) as [IHq [IHn [IHsq IHget]]].
    cbv zeta. simpl.
    split; [exact IHq |]. split; [exact IHn |].
    split; [apply elem_set_square; [exact IHsq | lia] |].
    { intros r' c' Hr' Hc'.
      rewrite (elem_get_set N) by (assumption || lia).
      rewrite !IHget by lia.
      destruct (Z.eqb_spec r r') as [<- | Hrr];
        destruct (Z.eqb_spec k c') as [<- | Hkc]; simpl;
        repeat match goal with
               | |- context [Z.eqb ?a ?b] => destruct (Z.eqb_spec a b)
               | |- context [Z.ltb ?a ?b] => destruct (Z.ltb_spec a b)
               end; simpl; try lia; reflexivity. }
Qed.

Lemma conjugate_rows (N : nat) (u : ComplexMatrixN) (n m : Z) :
  squareOf N (elems u) -> n = Z.of_nat N -> 0 <= m <= n ->
  let u' := for_loop m (fun r =>
              for_loop n (fun c u =>
                let e := elem_get (elems u) r c in
                mkComplexMatrixN (numQubits u) (numRows u)
                  (elem_set (elems u) r c
                     (mkComplex (real e) (imag e * -1))))) u in
  numQubits u' = numQubits u /\ numRows u' = numRows u
  /\ squareOf N (elems u')
  /\ forall r' c', 0 <= r' -> 0 <= c' < n ->
       elem_get (elems u') r' c'
       = if r' <? m then negIm (elem_get (elems u) r' c')
         else elem_get (elems u) r' c'.
Proof.
  intros Hsq HN [Hm Hle]. cbv zeta. revert Hle. pattern m.
  apply natlike_ind; [ | | exact Hm].
  - intros _. rewrite for_loop_nonpos by lia.
    split; [reflexivity |]. split; [reflexivity |]. split; [exact Hsq |].
    intros r' c' Hr' Hc'. destruct (Z.ltb_spec r' 0); [lia | reflexivity].
  - intros k Hk IH Hle. change (Z.succ k) with (k + 1).
    rewrite for_loop_succ by lia.
    destruct (IH ltac:(lia)) as [IHq [IHn [IHsq IHget]]].
    pose proof (conjugate_row N _ k n IHsq ltac:(lia) ltac:(lia)) as Hrow.
    cbv zeta in Hrow. destruct Hrow as [Hq [Hn [Hsq' Hget]]].
    split; [rewrite Hq; exact IHq |]. split; [rewrite Hn; exact IHn |].
    split; [exact Hsq' |].
    intros r' c' Hr' Hc'. rewrite Hget by lia.
    rewrite !IHget by lia.
    destruct (Z.eqb_spec r' k), (Z.ltb_spec c' n), (Z.ltb_spec r' k),
      (Z.ltb_spec r' (k + 1)); simpl; try lia; reflexivity.
Qed.

Lemma negIm_conj (e : Complex) : negIm e = getConjugateScalar e.
Proof. complex_ring. Qed.

(** X7.  On a matrix whose [elems] hold [numRows] rows of [numRows]
    elements, [conjugateMatrixN] replaces every element by its complex
    conjugate, keeps the dimensions, and applied twice gives the matrix
    back. *)
Theorem conjugateMatrixN_spec (u : ComplexMatrixN) :
  0 <= numRows u ->
  squareOf (Z.to_nat (numRows u)) (elems u) ->
  numQubits (conjugateMatrixN u) = numQubits u
  /\ numRows (conjugateMatrixN u) = numRows u
  /\ squareOf (Z.to_nat (numRows u)) (elems (conjugateMatrixN u))
  /\ (forall r c, 0 <= r < numRows u -> 0 <= c < numRows u ->
        elem_get (elems (conjugateMatrixN u)) r c
        = getConjugateScalar (elem_get (elems u) r c))
  /\ conjugateMatrixN (conjugateMatrixN u) = u.
Proof.
  intros Hn Hsq.
  assert (Hone : forall v : ComplexMatrixN,
    0 <= numRows v -> squareOf (Z.to_nat (numRows v)) (elems v) ->
    numQubits (conjugateMatrixN v) = numQubits v
    /\ numRows (conjugateMatrixN v) = numRows v
    /\ squareOf (Z.to_nat (numRows v)) (elems (conjugateMatrixN v))
    /\ forall r c, 0 <= r < numRows v -> 0 <= c < numRows v ->
         elem_get (elems (conjugateMatrixN v)) r c
         = getConjugateScalar (elem_get (elems v) r c)).
  { intros v Hv Hsqv.
    pose proof (conjugate_rows (Z.to_nat (numRows v)) v (numRows v)
                  (numRows v) Hsqv ltac:(lia) ltac:(lia)) as Hrows.
    cbv zeta in Hrows. destruct Hrows as [Hq [Hr [Hs Hget]]].
    split; [exact Hq |]. split; [exact Hr |]. split; [exact Hs |].
    intros r c Hr' Hc'. unfold conjugateMatrixN. rewrite Hget by lia.
    destruct (Z.ltb_spec r (numRows v)); [| lia]. apply negIm_conj. }
  destruct (Hone u Hn Hsq) as [Hq [Hr [Hs Hget]]].
  split; [exact Hq |]. split; [exact Hr |]. split; [exact Hs |].
  split; [exact Hget |].
  destruct (Hone (conjugateMatrixN u)) as [Hq2 [Hr2 [Hs2 Hget2]]].
  { rewrite Hr. exact Hn. }
  { rewrite Hr. exact Hs. }
  rewrite Hr in Hs2, Hget2.
  apply (matrixN_ext (Z.to_nat (numRows u))); try assumption.
  - congruence.
  - congruence.
  - intros r c Hr' Hc'. rewrite Hget2, Hget by lia.
    apply getConjugateScalar_involutive.
Qed.

Lemma conjugateMatrixN_spec_witness :
  conjugateMatrixN (conjugateMatrixN
    (mkComplexMatrixN 1 2 [[cone; mkComplex 0 1]; [czero; cone]]))
  = mkComplexMatrixN 1 2 [[cone; mkComplex 0 1]; [czero; cone]].
Proof.
  refine (proj2 (proj2 (proj2 (proj2 (conjugateMatrixN_spec
    (mkComplexMatrixN 1 2 [[cone; mkComplex 0 1]; [czero; cone]]) _ _))))).
  - simpl. lia.
  - split; [reflexivity | repeat constructor].
Defined.

End ConjugateMatrixNProofs.

(** ** The string hash *)

Section HashProofs.
Local Open Scope Z_scope.

Variable ulong_bits : Z.

Lemma hashString_from_app (hash : Z) (s rest : list Z) :
  Forall (fun c => c <> 0) s ->
  hashString_from ulong_bits hash (s ++ rest)
  = hashString_from ulong_bits (hashString_from ulong_bits hash s) rest.
Proof.
  intros Hs. revert hash. induction Hs as [| c s Hc Hs IH]; intros hash.
  - reflexivity.
  - simpl. destruct (Z.eqb_spec c 0); [contradiction |]. apply IH.
Qed.

Lemma hashString_from_range (hash : Z) (s : list Z) :
  0 <= hash < 2 ^ ulong_bits ->
  0 <= hashString_from ulong_bits hash s < 2 ^ ulong_bits.
Proof.
  revert hash. induction s as [| c s IH]; intros hash Hh; simpl.
  - exact Hh.
  - destruct (c =? 0); [exact Hh |].
    apply IH. apply Z.mod_pos_bound. lia.
Qed.

(** X8.  [hashString] is the hash "times 33 plus c" of its comment, in
    the arithmetic of [unsigned long]: the empty string hashes to 5381,
    appending a character [c] to a string takes the hash [h] to
    [(h * 33 + c) mod 2^ulong_bits], whatever follows a NUL is ignored,
    and the hash lies in the range of [unsigned long]. *)
Theorem hashString_spec (s rest : list Z) (c : Z) :
  13 <= ulong_bits ->
  Forall (fun c => c <> 0) s -> c <> 0 ->
  hashString ulong_bits [] = 5381
  /\ hashString ulong_bits (s ++ [c])
     = (hashString ulong_bits s * 33 + c) mod 2 ^ ulong_bits
  /\ hashString ulong_bits (s ++ 0 :: rest) = hashString ulong_bits s
  /\ 0 <= hashString ulong_bits (s ++ rest) < 2 ^ ulong_bits.
Proof.
  intros Hw Hs Hc. unfold hashString. cbv zeta.
  split; [reflexivity |]. split; [| split].
  - rewrite hashString_from_app by exact Hs. cbn [hashString_from].
    destruct (Z.eqb_spec c 0); [contradiction |].
    rewrite Z.shiftl_mul_pow2 by lia. f_equal. lia.
  - rewrite hashString_from_app by exact Hs. reflexivity.
  - apply hashString_from_range.
    assert (2 ^ 13 <= 2 ^ ulong_bits) by (apply Z.pow_le_mono_r; lia).
    lia.
Qed.

End HashProofs.

Lemma hashString_spec_witness :
  hashString 64 ([104] ++ [105]) = (hashString 64 [104] * 33 + 105) mod 2 ^ 64.
Proof.
  refine (proj1 (proj2 (hashString_spec 64 [104] [] 105 _ _ _))).
  - lia.
  - repeat constructor. discriminate.
  - discriminate.
Defined.

(** ** The calls of the multi-qubit Pauli rotation *)

Section PauliRotationCallProofs.
Local Open Scope Z_scope.

Lemma basisRotationCalls_succ (qureg : Qureg) (uRy uRx : Complex * Complex)
    (targetQubits : list Z) (targetPaulis : list pauliOpType) (n : Z) :
  0 <= n ->
  basisRotationCalls qureg uRy uRx targetQubits targetPaulis (n + 1)
  = basisRotationCalls qureg uRy uRx targetQubits targetPaulis n
    ++ (if pauli_eqb (arr_get targetPaulis n PAULI_I) PAULI_X
        then [CompactUnitary qureg (arr_get targetQubits n 0)
                (fst uRy) (snd uRy)] else [])
    ++ (if pauli_eqb (arr_get targetPaulis n PAULI_I) PAULI_Y
        then [CompactUnitary qureg (arr_get targetQubits n 0)
                (fst uRx) (snd uRx)] else []).
Proof.
  intros Hn. unfold basisRotationCalls. rewrite for_loop_succ by lia.
  reflexivity.
Qed.

Lemma basis_loop (qureg : Qureg) (uRy uRx : Complex * Complex)
    (targetQubits : list Z) (targetPaulis : list pauliOpType) (n : Z)
    (log : list KernelCall) :
  0 <= n ->
  for_loop n (fun t st =>
    let p := arr_get targetPaulis t PAULI_I in
    let q := arr_get targetQubits t 0 in
    let st :=
      when (pauli_eqb p PAULI_X)
        (statevec_compactUnitary qureg q (fst uRy) (snd uRy)) st in
    when (pauli_eqb p PAULI_Y)
      (statevec_compactUnitary qureg q (fst uRx) (snd uRx)) st) log
  = log ++ basisRotationCalls qureg uRy uRx targetQubits targetPaulis n.
Proof.
  intros Hn. pattern n. apply natlike_ind; [ | | exact Hn].
  - rewrite for_loop_nonpos by lia. unfold basisRotationCalls.
    rewrite for_loop_nonpos by lia. symmetry. apply app_nil_r.
  - intros k Hk IH. change (Z.succ k) with (k + 1).
    rewrite for_loop_succ by lia. rewrite IH.
    rewrite basisRotationCalls_succ by lia. cbv zeta.
    destruct (pauli_eqb (arr_get targetPaulis k PAULI_I) PAULI_X),
      (pauli_eqb (arr_get targetPaulis k PAULI_I) PAULI_Y);
      unfold when, skip; simpl; unfold log_call;
      rewrite <- ?app_assoc; simpl;
      rewrite ?app_nil_r; reflexivity.
Qed.

Lemma uRy_undone :
  mat2_mul (compactMatrix (fst uRy_after) (snd uRy_after))
           (compactMatrix (fst uRy_before) (snd uRy_before)) = identity2.
Proof.
  assert (Hhalf : (1 / sqrt 2 * (1 / sqrt 2) = 1 / 2)%R).
  { pose proof (sqrt_sqrt 2 ltac:(lra)) as Hs.
    assert (sqrt 2 <> 0)%R by (intros H0; rewrite H0 in Hs; lra).
    field_simplify_eq; [| assumption]. lra. }
  unfold uRy_after, uRy_before, mat2_mul, compactMatrix, identity2,
    getConjugateScalar, copp, cadd, cmul, cone, czero. simpl.
  set (f := (1 / sqrt 2)%R) in *.
  apply mat2_ext; apply complex_eq; simpl; nra.
Qed.

Lemma uRx_undone (applyConj : Z) :
  mat2_mul (compactMatrix (fst (uRx_after applyConj))
                          (snd (uRx_after applyConj)))
           (compactMatrix (fst (uRx_before applyConj))
                          (snd (uRx_before applyConj))) = identity2.
Proof.
  assert (Hhalf : (1 / sqrt 2 * (1 / sqrt 2) = 1 / 2)%R).
  { pose proof (sqrt_sqrt 2 ltac:(lra)) as Hs.
    assert (sqrt 2 <> 0)%R by (intros H0; rewrite H0 in Hs; lra).
    field_simplify_eq; [| assumption]. lra. }
  unfold uRx_after, uRx_before, mat2_mul, compactMatrix, identity2,
    getConjugateScalar, copp, cadd, cmul, cone, czero. simpl.
  set (f := (1 / sqrt 2)%R) in *.
  destruct (applyConj =? 0);
    apply mat2_ext; apply complex_eq; simpl; nra.
Qed.

Lemma multiRotatePauli_log (qureg : Qureg) (targetQubits : list Z)
    (targetPaulis : list pauliOpType) (numTargets : Z) (angle : qreal)
    (applyConj : Z) (log : list KernelCall) :
  0 <= numTargets ->
  statevec_multiRotatePauli qureg targetQubits targetPaulis numTargets
    angle applyConj log
  = log
    ++ basisRotationCalls qureg uRy_before (uRx_before applyConj)
         targetQubits targetPaulis numTargets
    ++ [MultiRotateZ qureg (passedMask targetQubits targetPaulis numTargets)
          (if applyConj =? 0 then angle else (- angle)%R)]
    ++ basisRotationCalls qureg uRy_after (uRx_after applyConj)
         targetQubits targetPaulis numTargets.
Proof.
  intros Hn.
  unfold statevec_multiRotatePauli. cbv zeta.
  match goal with
  | |- context [for_loop numTargets ?body (?m0, log)] =>
      assert (Hloop :
        for_loop numTargets body (m0, log)
        = (passedMask targetQubits targetPaulis numTargets,
           log ++ basisRotationCalls qureg uRy_before (uRx_before applyConj)
                    targetQubits targetPaulis numTargets))
  end.
  { unfold passedMask.
    generalize (getQubitBitMask targetQubits numTargets). intros m0.
    apply (for_loop_ind (fun n (p : Z * list KernelCall) =>
             p = (for_loop n (fun t mask =>
                    let p := arr_get targetPaulis t PAULI_I in
                    if pauli_eqb p PAULI_I
                    then ll_sub mask (ll_shl 1 (pauli_code p))
                    else mask) m0,
                  log ++ basisRotationCalls qureg uRy_before
                           (uRx_before applyConj) targetQubits targetPaulis
                           n))); [ | | exact Hn].
    - rewrite for_loop_nonpos by lia. unfold basisRotationCalls.
      rewrite for_loop_nonpos by lia. rewrite app_nil_r. reflexivity.
    - intros n p' Hn' ->. rewrite for_loop_succ by lia.
      rewrite basisRotationCalls_succ by lia. cbv zeta. f_equal.
      destruct (pauli_eqb (arr_get targetPaulis n PAULI_I) PAULI_X),
        (pauli_eqb (arr_get targetPaulis n PAULI_I) PAULI_Y);
        unfold when, skip; simpl; unfold log_call;
      rewrite <- ?app_assoc; simpl;
        rewrite ?app_nil_r; reflexivity. }
  rewrite Hloop.
  pose proof (basis_loop qureg uRy_after (uRx_after applyConj) targetQubits
                targetPaulis numTargets) as Hundo.
  unfold uRy_after, uRx_after, uRy_before, uRx_before in Hundo |- *.
  simpl fst in Hundo |- *. simpl snd in Hundo |- *.
  rewrite Hundo by exact Hn. simpl. unfold log_call.
  rewrite <- !app_assoc. reflexivity.
Qed.

(** X9.  The calls of [statevec_multiRotatePauli], in order: the basis
    rotations of the X- and Y-tagged targets, one
    [statevec_multiRotateZ] (with the angle negated when [applyConj] is
    set), and the basis rotations again with the pairs that undo them:
    the operator after times the operator before is the identity. *)
Theorem multiRotatePauli_calls (qureg : Qureg) (targetQubits : list Z)
    (targetPaulis : list pauliOpType) (numTargets : Z) (angle : qreal)
    (applyConj : Z) (log : list KernelCall) :
  0 <= numTargets ->
  statevec_multiRotatePauli qureg targetQubits targetPaulis numTargets
    angle applyConj log
  = log
    ++ basisRotationCalls qureg uRy_before (uRx_before applyConj)
         targetQubits targetPaulis numTargets
    ++ [MultiRotateZ qureg (passedMask targetQubits targetPaulis numTargets)
          (if applyConj =? 0 then angle else (- angle)%R)]
    ++ basisRotationCalls qureg uRy_after (uRx_after applyConj)
         targetQubits targetPaulis numTargets
  /\ mat2_mul (compactMatrix (fst uRy_after) (snd uRy_after))
              (compactMatrix (fst uRy_before) (snd uRy_before)) = identity2
  /\ mat2_mul (compactMatrix (fst (uRx_after applyConj))
                             (snd (uRx_after applyConj)))
              (compactMatrix (fst (uRx_before applyConj))
                             (snd (uRx_before applyConj))) = identity2.
Proof.
  intros Hn. split; [| split; [apply uRy_undone | apply uRx_undone]].
  apply multiRotatePauli_log. exact Hn.
Qed.

Lemma multiRotatePauli_calls_witness :
  statevec_multiRotatePauli (mkQureg false 2 2 0) [0; 1]
    [PAULI_X; PAULI_Z] 2 PI 0 []
  = []
    ++ basisRotationCalls (mkQureg false 2 2 0) uRy_before (uRx_before 0)
         [0; 1] [PAULI_X; PAULI_Z] 2
    ++ [MultiRotateZ (mkQureg false 2 2 0)
          (passedMask [0; 1] [PAULI_X; PAULI_Z] 2) PI]
    ++ basisRotationCalls (mkQureg false 2 2 0) uRy_after (uRx_after 0)
         [0; 1] [PAULI_X; PAULI_Z] 2.
Proof.
  refine (proj1 (multiRotatePauli_calls (mkQureg false 2 2 0) [0; 1]
                   [PAULI_X; PAULI_Z] 2 PI 0 [] _)).
  lia.
Defined.

Lemma basisRotationCalls_none (qureg : Qureg) (uRy uRx : Complex * Complex)
    (targetQubits : list Z) (targetPaulis : list pauliOpType) (n : Z) :
  (forall t, 0 <= t < n ->
     arr_get targetPaulis t PAULI_I <> PAULI_X
     /\ arr_get targetPaulis t PAULI_I <> PAULI_Y) ->
  basisRotationCalls qureg uRy uRx targetQubits targetPaulis n = [].
Proof.
  intros Htags. destruct (Z_lt_le_dec n 0) as [Hneg | Hpos].
  { unfold basisRotationCalls. apply for_loop_nonpos. lia. }
  revert Htags. pattern n. apply natlike_ind; [ | | exact Hpos].
  - intros _. unfold basisRotationCalls. apply for_loop_nonpos. lia.
  - intros k Hk IH Htags. change (Z.succ k) with (k + 1).
    rewrite basisRotationCalls_succ by lia.
    rewrite IH by (intros; apply Htags; lia).
    destruct (Htags k ltac:(lia)) as [HX HY].
    destruct (pauli_eqb (arr_get targetPaulis k PAULI_I) PAULI_X) eqn:EX;
      [apply pauli_eqb_eq in EX; contradiction |].
    destruct (pauli_eqb (arr_get targetPaulis k PAULI_I) PAULI_Y) eqn:EY;
      [apply pauli_eqb_eq in EY; contradiction |].
    reflexivity.
Qed.

Lemma passedMask_full (targetQubits : list Z)
    (targetPaulis : list pauliOpType) (n : Z) :
  (forall t, 0 <= t < n -> arr_get targetPaulis t PAULI_I <> PAULI_I) ->
  passedMask targetQubits targetPaulis n = getQubitBitMask targetQubits n.
Proof.
  intros Htags. unfold passedMask.
  destruct (Z_lt_le_dec n 0) as [Hneg | Hpos].
  { rewrite for_loop_nonpos by lia. reflexivity. }
  revert Htags. generalize (getQubitBitMask targetQubits n).
  intros m0 Htags.
  rewrite (for_loop_ext n _ (fun _ mask => mask)).
  - apply (for_loop_ind (fun _ m => m = m0));
      [reflexivity | intros; assumption | exact Hpos].
  - intros t m Ht. cbv zeta.
    destruct (pauli_eqb (arr_get targetPaulis t PAULI_I) PAULI_I) eqn:He;
      [| reflexivity].
    apply pauli_eqb_eq in He. exfalso. exact (Htags t Ht He).
Qed.

(** X10.  On a string of Z tags only, [statevec_multiRotatePauli] makes
    one kernel call: [statevec_multiRotateZ] on the mask of all the
    targets, with the angle negated when [applyConj] is set. *)
Theorem multiRotatePauli_all_Z (qureg : Qureg) (targetQubits : list Z)
    (targetPaulis : list pauliOpType) (numTargets : Z) (angle : qreal)
    (applyConj : Z) (log : list KernelCall) :
  0 <= numTargets ->
  (forall t, 0 <= t < numTargets ->
     arr_get targetPaulis t PAULI_I = PAULI_Z) ->
  statevec_multiRotatePauli qureg targetQubits targetPaulis numTargets
    angle applyConj log
  = log ++ [MultiRotateZ qureg (getQubitBitMask targetQubits numTargets)
              (if applyConj =? 0 then angle else (- angle)%R)].
Proof.
  intros Hn Htags. rewrite multiRotatePauli_log by exact Hn.
  rewrite !basisRotationCalls_none
    by (intros t Ht; rewrite (Htags t Ht); split; discriminate).
  rewrite passedMask_full
    by (intros t Ht; rewrite (Htags t Ht); discriminate).
  reflexivity.
Qed.

Lemma multiRotatePauli_all_Z_witness :
  statevec_multiRotatePauli (mkQureg false 2 2 0) [0; 1]
    [PAULI_Z; PAULI_Z] 2 PI 1 []
  = [] ++ [MultiRotateZ (mkQureg false 2 2 0) (getQubitBitMask [0; 1] 2)
             (- PI)%R].
Proof.
  apply (multiRotatePauli_all_Z (mkQureg false 2 2 0) [0; 1]
           [PAULI_Z; PAULI_Z] 2 PI 1 []).
  - lia.
  - intros t Ht. assert (Hc : t = 0 \/ t = 1) by lia.
    destruct Hc as [-> | ->]; reflexivity.
Defined.

End PauliRotationCallProofs.

(** ** Phase gates on the amplitudes *)

Section PhaseGateProofs.
Local Open Scope Z_scope.

Lemma on_qureg_compose (qureg : Qureg) (k1 k2 : Z -> amps -> amps)
    (st : Store) (h : nat) :
  on_qureg qureg k2 (on_qureg qureg k1 st) h
  = on_qureg qureg (fun N a => k2 N (k1 N a)) st h.
Proof.
  unfold on_qureg.
  destruct (Nat.eq_dec h (stateVec qureg)) as [-> | Hne].
  - rewrite !store_set_same. reflexivity.
  - rewrite !store_set_other by exact Hne. reflexivity.
Qed.

Lemma on_qureg_identity (qureg : Qureg) (k : Z -> amps -> amps)
    (st : Store) (h : nat) :
  k (numQubitsInStateVec qureg) (st (stateVec qureg)) = st (stateVec qureg) ->
  on_qureg qureg k st h = st h.
Proof.
  intros Hk. unfold on_qureg.
  destruct (Nat.eq_dec h (stateVec qureg)) as [-> | Hne].
  - rewrite store_set_same. exact Hk.
  - apply store_set_other. exact Hne.
Qed.

Lemma k_phaseShift_compose (N t : Z) (a b : Complex) (x : amps) :
  k_phaseShiftByTerm N t b (k_phaseShiftByTerm N t a x)
  = k_phaseShiftByTerm N t (cmul b a) x.
Proof.
  unfold k_phaseShiftByTerm. apply tabulate_ext. intros i Hi.
  rewrite getAmp_tabulate by exact Hi.
  destruct (Z.testbit i t); [complex_ring | reflexivity].
Qed.

Lemma k_phaseShift_one (N t : Z) (x : amps) :
  length x = Z.to_nat (2 ^ N) -> k_phaseShiftByTerm N t cone x = x.
Proof.
  intros Hlen. unfold k_phaseShiftByTerm.
  transitivity (tabulate (2 ^ N) (getAmp x));
    [| apply tabulate_getAmp; exact Hlen].
  apply tabulate_ext. intros i Hi.
  destruct (Z.testbit i t); [apply cmul_cone_l | reflexivity].
Qed.

Lemma phaseShiftByTerm_compose (qureg : Qureg) (t : Z) (a b c : Complex)
    (st : Store) (h : nat) :
  cmul b a = c ->
  statevec_phaseShiftByTerm qureg t b
    (statevec_phaseShiftByTerm qureg t a st) h
  = statevec_phaseShiftByTerm qureg t c st h.
Proof.
  intros <-. simpl. rewrite on_qureg_compose. unfold on_qureg.
  rewrite k_phaseShift_compose. reflexivity.
Qed.

Lemma phaseShiftByTerm_inverse (qureg : Qureg) (t : Z) (a b : Complex)
    (st : Store) (h : nat) :
  cmul b a = cone ->
  length (st (stateVec qureg)) = Z.to_nat (2 ^ numQubitsInStateVec qureg) ->
  statevec_phaseShiftByTerm qureg t b
    (statevec_phaseShiftByTerm qureg t a st) h
  = st h.
Proof.
  intros Hba Hlen. rewrite (phaseShiftByTerm_compose _ _ _ _ cone) by exact Hba.
  simpl. apply on_qureg_identity. apply k_phaseShift_one. exact Hlen.
Qed.

Lemma inv_sqrt2_sqr : (1 / sqrt 2 * (1 / sqrt 2) = 1 / 2)%R.
Proof.
  pose proof (sqrt_sqrt 2 ltac:(lra)) as Hs.
  assert (sqrt 2 <> 0)%R by (intros H0; rewrite H0 in Hs; lra).
  field_simplify_eq; [| assumption]. lra.
Qed.

(** X11.  On the amplitudes: two S gates are a Z gate, two T gates are
    an S gate, a phase shift by [a] followed by one by [b] is the phase
    shift by [a + b], and the phase shifts by PI, PI/2 and PI/4 are the Z,
    S and T gates. *)
Theorem phase_gates_compose (qureg : Qureg) (t : Z) (a b : qreal)
    (st : Store) (h : nat) :
  statevec_sGate qureg t (statevec_sGate qureg t st) h
  = statevec_pauliZ qureg t st h
  /\ statevec_tGate qureg t (statevec_tGate qureg t st) h
     = statevec_sGate qureg t st h
  /\ statevec_phaseShift qureg t b (statevec_phaseShift qureg t a st) h
     = statevec_phaseShift qureg t (a + b) st h
  /\ statevec_phaseShift qureg t PI st h = statevec_pauliZ qureg t st h
  /\ statevec_phaseShift qureg t (PI / 2) st h = statevec_sGate qureg t st h
  /\ statevec_phaseShift qureg t (PI / 4) st h = statevec_tGate qureg t st h.
Proof.
  pose proof inv_sqrt2_sqr as Hhalf.
  unfold statevec_sGate, statevec_tGate, statevec_pauliZ,
    statevec_phaseShift. cbv zeta.
  split; [| split; [| split; [| split; [| split]]]].
  - apply phaseShiftByTerm_compose. complex_ring.
  - apply phaseShiftByTerm_compose.
    set (f := (1 / sqrt 2)%R) in *. apply complex_eq; simpl; nra.
  - apply phaseShiftByTerm_compose. rewrite cos_plus, sin_plus.
    complex_ring.
  - rewrite cos_PI, sin_PI. reflexivity.
  - rewrite cos_PI2, sin_PI2. reflexivity.
  - rewrite cos_PI4, sin_PI4. reflexivity.
Qed.

(** X12.  On a register that holds 2^N amplitudes the conjugate gates
    undo the gates: S then its conjugate, T then its conjugate, and Z
    twice leave every register of the store as it was. *)
Theorem phase_gates_inverse (qureg : Qureg) (t : Z) (st : Store) (h : nat) :
  length (st (stateVec qureg)) = Z.to_nat (2 ^ numQubitsInStateVec qureg) ->
  statevec_sGateConj qureg t (statevec_sGate qureg t st) h = st h
  /\ statevec_tGateConj qureg t (statevec_tGate qureg t st) h = st h
  /\ statevec_pauliZ qureg t (statevec_pauliZ qureg t st) h = st h.
Proof.
  intros Hlen. pose proof inv_sqrt2_sqr as Hhalf.
  unfold statevec_sGateConj, statevec_tGateConj, statevec_sGate,
    statevec_tGate, statevec_pauliZ. cbv zeta.
  split; [| split]; apply phaseShiftByTerm_inverse; try exact Hlen.
  - unfold cone. complex_ring.
  - assert (Hm : (- 1 / sqrt 2 = - (1 / sqrt 2))%R) by (unfold Rdiv; ring).
    rewrite Hm. set (f := (1 / sqrt 2)%R) in *.
    unfold cone. apply complex_eq; simpl; nra.
  - unfold cone. complex_ring.
Qed.

Lemma phase_gates_inverse_witness :
  statevec_sGateConj (mkQureg false 1 1 0) 0
    (statevec_sGate (mkQureg false 1 1 0) 0 (fun _ => [cone; cone])) 0%nat
  = [cone; cone].
Proof.
  refine (proj1 (phase_gates_inverse (mkQureg false 1 1 0) 0
                   (fun _ => [cone; cone]) 0%nat _)).
  reflexivity.
Defined.

End PhaseGateProofs.

(** ** Rotations on the amplitudes *)

Section RotationGateProofs.
Local Open Scope Z_scope.

Lemma withBit_withBit (i t : Z) (a b : bool) :
  0 <= t -> withBit (withBit i t a) t b = withBit i t b.
Proof.
  intros Ht. apply Z.bits_inj'. intros m Hm.
  rewrite !testbit_withBit by lia.
  destruct (Z.eqb_spec m t); reflexivity.
Qed.

Lemma testbit_withBit_same (i t : Z) (a : bool) :
  0 <= t -> Z.testbit (withBit i t a) t = a.
Proof.
  intros Ht. rewrite testbit_withBit by lia.
  rewrite Z.eqb_refl. reflexivity.
Qed.

Lemma ctrlOn_withBit (i t m : Z) (b : bool) :
  0 <= t -> Z.testbit m t = false ->
  ctrlOn (withBit i t b) m = ctrlOn i m.
Proof.
  intros Ht Hm. unfold ctrlOn. f_equal.
  apply Z.bits_inj'. intros k Hk.
  rewrite !Z.land_spec, testbit_withBit by lia.
  destruct (Z.eqb_spec k t); [| reflexivity].
  subst k. rewrite Hm, !andb_false_r. reflexivity.
Qed.

(** Two operators on the same target, one after the other, are their
    product. *)
Lemma k_unitary_compose (N m t : Z) (A B : ComplexMatrix2) (x : amps) :
  0 <= t < N -> Z.testbit m t = false ->
  k_unitary N m t B (k_unitary N m t A x)
  = k_unitary N m t (mat2_mul B A) x.
Proof.
  intros Ht Hm. unfold k_unitary at 1 3. apply tabulate_ext. intros i Hi.
  destruct (ctrlOn i m) eqn:Hc.
  - unfold k_unitary.
    rewrite !getAmp_tabulate by (apply withBit_range; assumption).
    rewrite !ctrlOn_withBit, Hc by (assumption || lia).
    rewrite !testbit_withBit_same, !withBit_withBit by lia.
    destruct (Z.testbit i t); simpl; complex_ring.
  - unfold k_unitary. rewrite getAmp_tabulate by exact Hi.
    rewrite Hc. reflexivity.
Qed.

Lemma k_unitary_identity (N m t : Z) (x : amps) :
  0 <= t -> length x = Z.to_nat (2 ^ N) ->
  k_unitary N m t identity2 x = x.
Proof.
  intros Ht Hlen. unfold k_unitary.
  transitivity (tabulate (2 ^ N) (getAmp x));
    [| apply tabulate_getAmp; exact Hlen].
  apply tabulate_ext. intros i Hi.
  destruct (ctrlOn i m); [| reflexivity].
  pose proof (withBit_own i t Ht) as Hown.
  destruct (Z.testbit i t); rewrite Hown; simpl; complex_ring.
Qed.

Lemma rotateAroundAxis_amps (qureg : Qureg) (t : Z) (angle : qreal)
    (axis : Vector) (st : Store) :
  statevec_rotateAroundAxis qureg t angle axis st
  = on_qureg qureg (fun N => k_unitary N 0 t (rotationMatrix angle axis)) st.
Proof. reflexivity. Qed.

Lemma rotationMatrix_zero (axis : Vector) : rotationMatrix 0 axis = identity2.
Proof.
  unfold rotationMatrix, getComplexPairFromRotation, compactMatrix,
    identity2, getConjugateScalar, copp, cone, czero. cbv zeta.
  replace (0 / 2)%R with 0%R by field. rewrite cos_0, sin_0.
  apply mat2_ext; apply complex_eq; simpl; ring.
Qed.

Lemma rotationMatrix_compose (angle1 angle2 : qreal) (axis : Vector) :
  (x axis <> 0 \/ y axis <> 0 \/ z axis <> 0)%R ->
  mat2_mul (rotationMatrix angle2 axis) (rotationMatrix angle1 axis)
  = rotationMatrix (angle1 + angle2) axis.
Proof.
  intros Hax. pose proof (getUnitVector_unit axis Hax) as Hu.
  cbv zeta in Hu.
  unfold rotationMatrix, getComplexPairFromRotation. cbv zeta.
  set (u := getUnitVector axis) in *. clearbody u.
  replace ((angle1 + angle2) / 2)%R with (angle1 / 2 + angle2 / 2)%R
    by field.
  rewrite cos_plus, sin_plus.
  set (c1 := cos (angle1 / 2)). set (s1 := sin (angle1 / 2)).
  set (c2 := cos (angle2 / 2)). set (s2 := sin (angle2 / 2)).
  assert (Hss : (s1 * s2 * (x u * x u + y u * y u + z u * z u)
                 = s1 * s2)%R) by (rewrite Hu; ring).
  unfold mat2_mul, compactMatrix, getConjugateScalar, copp, cadd, cmul.
  simpl. apply mat2_ext; apply complex_eq; simpl; lra || nra.
Qed.

(** X13.  Rotations about one axis add up: on a target below N and an
    axis that is not the zero vector, a rotation by [angle1] followed by
    one by [angle2] is the rotation by [angle1 + angle2]; on a register
    that holds 2^N amplitudes the rotation by [- angle] undoes the
    rotation by [angle]. *)
Theorem rotateAroundAxis_compose (qureg : Qureg) (t : Z)
    (angle1 angle2 : qreal) (axis : Vector) (st : Store) (h : nat) :
  0 <= t < numQubitsInStateVec qureg ->
  (x axis <> 0 \/ y axis <> 0 \/ z axis <> 0)%R ->
  statevec_rotateAroundAxis qureg t angle2 axis
    (statevec_rotateAroundAxis qureg t angle1 axis st) h
  = statevec_rotateAroundAxis qureg t (angle1 + angle2) axis st h
  /\ (length (st (stateVec qureg))
      = Z.to_nat (2 ^ numQubitsInStateVec qureg) ->
      statevec_rotateAroundAxis qureg t (- angle1) axis
        (statevec_rotateAroundAxis qureg t angle1 axis st) h
      = st h).
Proof.
  intros Ht Hax.
  assert (Hcomp : forall a1 a2,
    statevec_rotateAroundAxis qureg t a2 axis
      (statevec_rotateAroundAxis qureg t a1 axis st) h
    = statevec_rotateAroundAxis qureg t (a1 + a2) axis st h).
  { intros a1 a2. rewrite !rotateAroundAxis_amps, on_qureg_compose.
    unfold on_qureg.
    rewrite k_unitary_compose by (assumption || apply Z.bits_0).
    rewrite rotationMatrix_compose by exact Hax. reflexivity. }
  split; [apply Hcomp |].
  intros Hlen. rewrite Hcomp.
  replace (angle1 + - angle1)%R with 0%R by ring.
  rewrite rotateAroundAxis_amps, rotationMatrix_zero.
  apply on_qureg_identity. apply k_unitary_identity; [lia | exact Hlen].
Qed.

Lemma rotateAroundAxis_compose_witness :
  statevec_rotateAroundAxis (mkQureg false 1 1 0) 0 PI (mkVector 0 0 2)
    (statevec_rotateAroundAxis (mkQureg false 1 1 0) 0 PI (mkVector 0 0 2)
       (fun _ => [cone; czero])) 0%nat
  = statevec_rotateAroundAxis (mkQureg false 1 1 0) 0 (PI + PI)
      (mkVector 0 0 2) (fun _ => [cone; czero]) 0%nat.
Proof.
  refine (proj1 (rotateAroundAxis_compose (mkQureg false 1 1 0) 0 PI PI
                   (mkVector 0 0 2) (fun _ => [cone; czero]) 0%nat _ _)).
  - simpl. lia.
  - right. right. simpl. lra.
Defined.

Lemma compactMatrix_conj (alpha beta : Complex) :
  compactMatrix (mkComplex (real alpha) (imag alpha * -1))
                (mkComplex (real beta) (imag beta * -1))
  = getConjugateMatrix2 (compactMatrix alpha beta).
Proof.
  unfold compactMatrix, getConjugateMatrix2, getConjugateScalar, copp.
  apply mat2_ext; apply complex_eq; simpl; ring.
Qed.

(** X14.  The conjugate rotations apply the entrywise conjugate of the
    operator of the rotation, uncontrolled and controlled. *)
Theorem rotateAroundAxisConj_conjugates (qureg : Qureg)
    (controlQubit targetQubit : Z) (angle : qreal) (axis : Vector)
    (st : Store) :
  statevec_rotateAroundAxisConj qureg targetQubit angle axis st
  = on_qureg qureg (fun N =>
      k_unitary N 0 targetQubit
        (getConjugateMatrix2 (rotationMatrix angle axis))) st
  /\ statevec_controlledRotateAroundAxis qureg controlQubit targetQubit
       angle axis st
     = on_qureg qureg (fun N =>
         k_unitary N (Z.shiftl 1 controlQubit) targetQubit
           (rotationMatrix angle axis)) st
  /\ statevec_controlledRotateAroundAxisConj qureg controlQubit targetQubit
       angle axis st
     = on_qureg qureg (fun N =>
         k_unitary N (Z.shiftl 1 controlQubit) targetQubit
           (getConjugateMatrix2 (rotationMatrix angle axis))) st.
Proof.
  unfold statevec_rotateAroundAxisConj, statevec_controlledRotateAroundAxis,
    statevec_controlledRotateAroundAxisConj, rotationMatrix.
  destruct (getComplexPairFromRotation angle axis) as [alpha beta].
  simpl. rewrite compactMatrix_conj. repeat split.
Qed.

End RotationGateProofs.

(** ** The conjugate square root of SWAP *)

Section SqrtSwapInverseProofs.
Local Open Scope Z_scope.

Lemma sqrtSwapFiber_inverse (u uc : ComplexMatrix2)
    (v : bool -> bool -> Complex) (x1 x2 : bool) :
  mat2_mul uc u = identity2 ->
  sqrtSwapFiber uc (sqrtSwapFiber u v) x1 x2 = v x1 x2.
Proof.
  intros Hu. unfold mat2_mul, identity2 in Hu.
  injection Hu as H00r H00i H01r H01i H10r H10i H11r H11i.
  destruct u as [[ar ai] [br bi] [cr ci] [dr di]].
  destruct uc as [[pr pi] [qr qi] [rr ri] [sr si]]. simpl in *.
  destruct x1, x2; simpl; try reflexivity.
  - destruct (v false true) as [xr xi], (v true false) as [yr yi].
    apply complex_eq; simpl.
    + transitivity ((rr * ar - ri * ai + (sr * cr - si * ci)) * xr
                    - (rr * ai + ri * ar + (sr * ci + si * cr)) * xi
                    + ((rr * br - ri * bi + (sr * dr - si * di)) * yr
                       - (rr * bi + ri * br + (sr * di + si * dr)) * yi))%R;
        [ring |].
      rewrite H10r, H10i, H11r, H11i. ring.
    + transitivity ((rr * ar - ri * ai + (sr * cr - si * ci)) * xi
                    + (rr * ai + ri * ar + (sr * ci + si * cr)) * xr
                    + ((rr * br - ri * bi + (sr * dr - si * di)) * yi
                       + (rr * bi + ri * br + (sr * di + si * dr)) * yr))%R;
        [ring |].
      rewrite H10r, H10i, H11r, H11i. ring.
  - destruct (v false true) as [xr xi], (v true false) as [yr yi].
    apply complex_eq; simpl.
    + transitivity ((pr * ar - pi * ai + (qr * cr - qi * ci)) * xr
                    - (pr * ai + pi * ar + (qr * ci + qi * cr)) * xi
                    + ((pr * br - pi * bi + (qr * dr - qi * di)) * yr
                       - (pr * bi + pi * br + (qr * di + qi * dr)) * yi))%R;
        [ring |].
      rewrite H00r, H00i, H01r, H01i. ring.
    + transitivity ((pr * ar - pi * ai + (qr * cr - qi * ci)) * xi
                    + (pr * ai + pi * ar + (qr * ci + qi * cr)) * xr
                    + ((pr * br - pi * bi + (qr * dr - qi * di)) * yi
                       + (pr * bi + pi * br + (qr * di + qi * dr)) * yr))%R;
        [ring |].
      rewrite H00r, H00i, H01r, H01i. ring.
Qed.

Lemma k_sqrtSwap_inverse (N qb1 qb2 : Z) (u uc : ComplexMatrix2) (a : amps) :
  0 <= qb1 < N -> 0 <= qb2 < N -> qb1 <> qb2 ->
  mat2_mul uc u = identity2 -> length a = Z.to_nat (2 ^ N) ->
  k_sqrtSwap N qb1 qb2 uc (k_sqrtSwap N qb1 qb2 u a) = a.
Proof.
  intros H1 H2 Hne Hu Hlen.
  rewrite <- (tabulate_getAmp (2 ^ N) (k_sqrtSwap N qb1 qb2 uc _))
    by apply k_sqrtSwap_length.
  transitivity (tabulate (2 ^ N) (getAmp a));
    [| apply tabulate_getAmp; exact Hlen].
  apply tabulate_ext. intros i Hi.
  pose proof (idx2_own N qb1 qb2 H1 H2 i) as Hown.
  assert (Hfib : forall b : amps,
            getAmp b i
            = fiber qb1 qb2 b i (Z.testbit i qb1) (Z.testbit i qb2))
    by (intros b; unfold fiber; rewrite Hown; reflexivity).
  rewrite (Hfib a), (Hfib (k_sqrtSwap N qb1 qb2 uc _)).
  rewrite (fiber_sqrtSwap N qb1 qb2 H1 H2 Hne) by exact Hi.
  rewrite (sqrtSwapFiber_ext uc _ (sqrtSwapFiber u (fiber qb1 qb2 a i)))
    by (intros; apply (fiber_sqrtSwap N qb1 qb2 H1 H2 Hne); exact Hi).
  apply sqrtSwapFiber_inverse. exact Hu.
Qed.

Lemma sqrtSwapUConj_inverse : mat2_mul sqrtSwapUConj sqrtSwapU = identity2.
Proof.
  unfold mat2_mul, sqrtSwapUConj, sqrtSwapU, identity2, cone, czero. simpl.
  apply mat2_ext; apply complex_eq; simpl; field.
Qed.

Lemma sqrtSwapGate_other (qureg : Qureg) (qb1 qb2 : Z) (st : Store)
    (h : nat) :
  h <> stateVec qureg ->
  statevec_sqrtSwapGate qureg qb1 qb2 st h = st h
  /\ statevec_sqrtSwapGateConj qureg qb1 qb2 st h = st h.
Proof.
  intros Hne. unfold statevec_sqrtSwapGate, statevec_sqrtSwapGateConj, seqc.
  simpl. rewrite !on_qureg_other by exact Hne. split; reflexivity.
Qed.

(** X15.  [statevec_sqrtSwapGateConj] is the inverse of
    [statevec_sqrtSwapGate]: on distinct qubits below N and a register
    that holds 2^N amplitudes, the gate followed by its conjugate leaves
    every register of the store as it was; and the conjugate gate
    applied twice is SWAP, like the gate itself. *)
Theorem sqrtSwapGateConj_inverse (qureg : Qureg) (st : Store) (qb1 qb2 : Z)
    (h : nat) :
  let N := numQubitsInStateVec qureg in
  0 <= qb1 < N -> 0 <= qb2 < N -> qb1 <> qb2 ->
  length (st (stateVec qureg)) = Z.to_nat (2 ^ N) ->
  statevec_sqrtSwapGateConj qureg qb1 qb2
    (statevec_sqrtSwapGate qureg qb1 qb2 st) h = st h
  /\ statevec_sqrtSwapGateConj qureg qb1 qb2
       (statevec_sqrtSwapGateConj qureg qb1 qb2 st) (stateVec qureg)
     = statevec_twoQubitUnitary qureg qb1 qb2 swapMatrix st (stateVec qureg).
Proof.
  intros N H1 H2 Hne Hlen. split.
  - destruct (Nat.eq_dec h (stateVec qureg)) as [-> | Hh].
    + rewrite statevec_sqrtSwapGateConj_amps, statevec_sqrtSwapGate_amps.
      fold N. apply k_sqrtSwap_inverse;
        try assumption. apply sqrtSwapUConj_inverse.
    + rewrite (proj2 (sqrtSwapGate_other qureg qb1 qb2 _ h Hh)).
      apply (proj1 (sqrtSwapGate_other qureg qb1 qb2 st h Hh)).
  - apply statevec_sqrtSwapGateConj_twice; assumption.
Qed.

Lemma sqrtSwapGateConj_inverse_witness :
  statevec_sqrtSwapGateConj (mkQureg false 2 2 0) 0 1
    (statevec_sqrtSwapGate (mkQureg false 2 2 0) 0 1
       (fun _ => [czero; cone; czero; czero])) 0%nat
  = [czero; cone; czero; czero].
Proof.
  refine (proj1 (sqrtSwapGateConj_inverse (mkQureg false 2 2 0)
                   (fun _ => [czero; cone; czero; czero]) 0 1 0%nat
                   _ _ _ _)).
  - simpl. lia.
  - simpl. lia.
  - lia.
  - reflexivity.
Defined.

End SqrtSwapInverseProofs.

(** ** Measurement *)

Section MeasurementProofs.
Local Open Scope R_scope.

Variable REAL_EPS : qreal.
Variable RngState : Type.
Variable genrand_real1 : RngState -> qreal * RngState.

Lemma generateMeasurementOutcome_cases (zeroProb : qreal) (rng : RngState) :
  0 < REAL_EPS <= 1 / 2 ->
  exists outcome outcomeProb rng',
    generateMeasurementOutcome REAL_EPS RngState genrand_real1 zeroProb rng
    = (outcome, outcomeProb, rng')
    /\ (outcome = 0%Z /\ outcomeProb = zeroProb
        \/ outcome = 1%Z /\ outcomeProb = 1 - zeroProb)
    /\ REAL_EPS <= outcomeProb
    /\ (rng' = rng \/ rng' = snd (genrand_real1 rng)).
Proof.
  intros [Hpos Hhalf]. unfold generateMeasurementOutcome.
  destruct (Rlt_dec zeroProb REAL_EPS) as [H0 | H0].
  { exists 1%Z, (1 - zeroProb), rng. simpl.
    repeat split; [right; split; reflexivity | lra | left; reflexivity]. }
  destruct (Rlt_dec (1 - zeroProb) REAL_EPS) as [H1 | H1].
  { exists 0%Z, zeroProb, rng. simpl.
    repeat split; [left; split; reflexivity | lra | left; reflexivity]. }
  destruct (genrand_real1 rng) as [r rng'] eqn:Hgen. simpl.
  destruct (Rgt_dec r zeroProb).
  - exists 1%Z, (1 - zeroProb), rng'. simpl.
    repeat split; [right; split; reflexivity | lra | right; reflexivity].
  - exists 0%Z, zeroProb, rng'. simpl.
    repeat split; [left; split; reflexivity | lra | right; reflexivity].
Qed.

(** X16.  With [0 < REAL_EPS <= 1/2], whatever the probability and the
    generator: the outcome is 0 or 1, [*outcomeProb] is the probability
    of that outcome, it is never below [REAL_EPS], and the generator is
    left as it was or advanced by one draw. *)
Theorem generateMeasurementOutcome_prob_bound (zeroProb : qreal)
    (rng : RngState) :
  0 < REAL_EPS <= 1 / 2 ->
  exists outcome outcomeProb rng',
    generateMeasurementOutcome REAL_EPS RngState genrand_real1 zeroProb rng
    = (outcome, outcomeProb, rng')
    /\ (outcome = 0%Z /\ outcomeProb = zeroProb
        \/ outcome = 1%Z /\ outcomeProb = 1 - zeroProb)
    /\ REAL_EPS <= outcomeProb
    /\ (rng' = rng \/ rng' = snd (genrand_real1 rng)).
Proof. apply generateMeasurementOutcome_cases. Qed.

Context {St : Type} `{MK : MeasureKernel St}.

(** X17.  [statevec_measureWithStats] and [densmatr_measureWithStats]
    collapse the register onto the outcome they return, with the
    probability they return: that probability is the kernel's
    probability of outcome 0 when the outcome is 0 and one minus it when
    the outcome is 1, and it is never below [REAL_EPS]. *)
Theorem measureWithStats_collapse (qureg : Qureg) (measureQubit : Z)
    (st : St) (rng : RngState) :
  0 < REAL_EPS <= 1 / 2 ->
  (exists outcome outcomeProb rng',
     statevec_measureWithStats REAL_EPS RngState genrand_real1 qureg
       measureQubit st rng
     = (outcome, outcomeProb,
        statevec_collapseToKnownProbOutcome qureg measureQubit outcome
          outcomeProb st, rng')
     /\ (outcome = 0%Z
         /\ outcomeProb = statevec_calcProbOfOutcome qureg measureQubit 0 st
         \/ outcome = 1%Z
            /\ outcomeProb
               = 1 - statevec_calcProbOfOutcome qureg measureQubit 0 st)
     /\ REAL_EPS <= outcomeProb)
  /\ (exists outcome outcomeProb rng',
     densmatr_measureWithStats REAL_EPS RngState genrand_real1 qureg
       measureQubit st rng
     = (outcome, outcomeProb,
        densmatr_collapseToKnownProbOutcome qureg measureQubit outcome
          outcomeProb st, rng')
     /\ (outcome = 0%Z
         /\ outcomeProb = densmatr_calcProbOfOutcome qureg measureQubit 0 st
         \/ outcome = 1%Z
            /\ outcomeProb
               = 1 - densmatr_calcProbOfOutcome qureg measureQubit 0 st)
     /\ REAL_EPS <= outcomeProb).
Proof.
  intros Heps. split.
  - destruct (generateMeasurementOutcome_cases
                (statevec_calcProbOfOutcome qureg measureQubit 0 st) rng Heps)
      as [o [p [rng' [Hgen [Hcase [Hbound _]]]]]].
    exists o, p, rng'. unfold statevec_measureWithStats. cbv zeta.
    rewrite Hgen. repeat split; assumption.
  - destruct (generateMeasurementOutcome_cases
                (densmatr_calcProbOfOutcome qureg measureQubit 0 st) rng Heps)
      as [o [p [rng' [Hgen [Hcase [Hbound _]]]]]].
    exists o, p, rng'. unfold densmatr_measureWithStats. cbv zeta.
    rewrite Hgen. repeat split; assumption.
Qed.

End MeasurementProofs.

Lemma generateMeasurementOutcome_prob_bound_witness :
  exists outcome outcomeProb rng',
    generateMeasurementOutcome (/ 4)%R (list R) (fun l => (hd 0%R l, tl l))
      (3 / 10)%R [0.5%R]
    = (outcome, outcomeProb, rng')
    /\ (outcome = 0 /\ outcomeProb = (3 / 10)%R
        \/ outcome = 1 /\ outcomeProb = (1 - 3 / 10)%R)
    /\ (/ 4 <= outcomeProb)%R
    /\ (rng' = [0.5%R] \/ rng' = snd (hd 0%R [0.5%R], tl [0.5%R])).
Proof.
  apply (generateMeasurementOutcome_prob_bound (/ 4)%R (list R)
           (fun l => (hd 0%R l, tl l)) (3 / 10)%R [0.5%R]).
  lra.
Defined.

Lemma measureWithStats_collapse_witness :
  exists outcome outcomeProb rng',
    @statevec_measureWithStats (list (Z * R))
      (Build_MeasureKernel (list (Z * R))
         (fun _ _ _ _ => (3 / 10)%R) (fun _ _ _ _ => (3 / 10)%R)
         (fun _ _ o p log => (o, p) :: log)
         (fun _ _ o p log => (o, p) :: log))
      (/ 4)%R (list R) (fun l => (hd 0%R l, tl l))
      (mkQureg false 1 1 0) 0 [] [0.5%R]
    = (outcome, outcomeProb, [(outcome, outcomeProb)], rng')
    /\ (outcome = 0 /\ outcomeProb = (3 / 10)%R
        \/ outcome = 1 /\ outcomeProb = (1 - 3 / 10)%R)
    /\ (/ 4 <= outcomeProb)%R.
Proof.
  refine (proj1 (@measureWithStats_collapse (/ 4)%R (list R)
           (fun l => (hd 0%R l, tl l)) (list (Z * R))
           (Build_MeasureKernel (list (Z * R))
              (fun _ _ _ _ => (3 / 10)%R) (fun _ _ _ _ => (3 / 10)%R)
              (fun _ _ o p log => (o, p) :: log)
              (fun _ _ o p log => (o, p) :: log))
           (mkQureg false 1 1 0) 0 [] [0.5%R] _)).
  lra.
Defined.

(** ** Kraus maps *)

Section KrausMapProofs.
Local Open Scope Z_scope.

Lemma applyKrausMap_other (qureg : Qureg) (target : Z)
    (ops : list ComplexMatrix2) (numOps : Z) (st : Store) (h : nat) :
  h <> stateVec qureg ->
  densmatr_applyKrausMap qureg target ops numOps st h = st h.
Proof.
  intros Hne. unfold densmatr_applyKrausMap, densmatr_applyKrausSuperoperator.
  simpl. apply on_qureg_other. exact Hne.
Qed.

(** X18.  For any list of Kraus operators, [densmatr_applyKrausMap] on a
    target below n takes the density matrix rho to the sum over the
    operators of K rho K^dagger, entry by entry, and leaves the other
    registers of the store as they were. *)
Theorem densmatr_applyKrausMap_sum (qureg : Qureg) (st : Store)
    (ops : list ComplexMatrix2) (numOps target r c : Z) (h : nat) :
  let n := numQubitsRepresented qureg in
  numQubitsInStateVec qureg = 2 * n ->
  0 <= target < n -> 0 <= r < 2 ^ n -> 0 <= c < 2 ^ n ->
  densityEntry n
    (densmatr_applyKrausMap qureg target ops numOps st (stateVec qureg)) r c
  = krausMapEntry ops numOps target
      (densityEntry n (st (stateVec qureg))) r c
  /\ (h <> stateVec qureg ->
      densmatr_applyKrausMap qureg target ops numOps st h = st h).
Proof.
  intros n HN Ht Hr Hc. split.
  - apply applyKrausMap_entry; assumption.
  - apply applyKrausMap_other.
Qed.

Lemma densmatr_applyKrausMap_sum_witness :
  densityEntry 1
    (densmatr_applyKrausMap (mkQureg true 1 2 0) 0
       [pauliXMatrix; pauliZMatrix] 2
       (fun _ => [cone; czero; czero; czero]) 0%nat) 1 1
  = krausMapEntry [pauliXMatrix; pauliZMatrix] 2 0
      (densityEntry 1 [cone; czero; czero; czero]) 1 1.
Proof.
  refine (proj1 (densmatr_applyKrausMap_sum (mkQureg true 1 2 0)
           (fun _ => [cone; czero; czero; czero])
           [pauliXMatrix; pauliZMatrix] 2 0 1 1 0%nat _ _ _ _));
    simpl; lia.
Defined.

End KrausMapProofs.

(** ** The Pauli-error channel as a mixture *)

Section PauliMixtureProofs.
Local Open Scope R_scope.

(** X19.  For probabilities that are not negative and sum to at most 1,
    the four Kraus operators of [densmatr_oneQubitPauliError] satisfy
    the completeness relation: the sum of K^dagger K is the identity (the
    channel preserves the trace). *)
Theorem pauliErrorOps_complete (probX probY probZ : qreal) :
  0 <= probX -> 0 <= probY -> 0 <= probZ -> probX + probY + probZ <= 1 ->
  krausCompleteness (pauliErrorOps probX probY probZ) = identity2.
Proof.
  intros HX HY HZ Hsum.
  pose proof (sqrt_sqrt probX HX) as SX.
  pose proof (sqrt_sqrt probY HY) as SY.
  pose proof (sqrt_sqrt probZ HZ) as SZ.
  pose proof (sqrt_sqrt (1 - (probX + probY + probZ)) ltac:(lra)) as SI.
  unfold krausCompleteness, pauliErrorOps. cbv zeta. simpl.
  set (f0 := sqrt (1 - (probX + probY + probZ))) in *.
  set (f1 := sqrt probX) in *. set (f2 := sqrt probY) in *.
  set (f3 := sqrt probZ) in *.
  apply mat2_ext; apply complex_eq; simpl; nra.
Qed.

Lemma pauliErrorOps_complete_witness :
  krausCompleteness (pauliErrorOps (1 / 4) (1 / 4) (1 / 4)) = identity2.
Proof.
  apply (pauliErrorOps_complete (1 / 4) (1 / 4) (1 / 4)); lra.
Defined.

End PauliMixtureProofs.

Section PauliMixtureEntryProofs.
Local Open Scope Z_scope.

Lemma cadd_left4 (a b c d : Complex) :
  cadd (cadd (cadd (cadd czero a) b) c) d = cadd (cadd (cadd a b) c) d.
Proof. complex_ring. Qed.

Lemma conjugatedEntry_scaled (f : R) (P : ComplexMatrix2) (t : Z)
    (rho : Z -> Z -> Complex) (r c : Z) :
  conjugatedEntry (mat2_scale (mkComplex f 0) P) t rho r c
  = cscale (f * f) (conjugatedEntry P t rho r c).
Proof.
  unfold conjugatedEntry, mat2_scale, cscale.
  destruct P as [p00 p01 p10 p11].
  destruct (Z.testbit r t), (Z.testbit c t); simpl; complex_ring.
Qed.

Lemma conjugatedEntry_identity (t : Z) (rho : Z -> Z -> Complex) (r c : Z) :
  0 <= t -> conjugatedEntry identity2 t rho r c = rho r c.
Proof.
  intros Ht. unfold conjugatedEntry.
  pose proof (withBit_own r t Ht) as Hr.
  pose proof (withBit_own c t Ht) as Hc.
  destruct (Z.testbit r t), (Z.testbit c t); rewrite Hr, Hc;
    simpl; complex_ring.
Qed.

Lemma pauliErrorOps_scaled (probX probY probZ : qreal) :
  pauliErrorOps probX probY probZ
  = [ mat2_scale (mkComplex (sqrt (1 - (probX + probY + probZ))) 0)
        identity2;
      mat2_scale (mkComplex (sqrt probX) 0) pauliXMatrix;
      mat2_scale (mkComplex (sqrt probY) 0) pauliYMatrix;
      mat2_scale (mkComplex (sqrt probZ) 0) pauliZMatrix ].
Proof.
  unfold pauliErrorOps. cbv zeta.
  repeat (apply f_equal2;
          [apply mat2_ext; apply complex_eq; simpl; ring |]).
  reflexivity.
Qed.

(** X20.  For probabilities that are not negative and sum to at most 1,
    [densmatr_oneQubitPauliError] on a target below n takes rho to
    (1 - probX - probY - probZ) rho + probX X rho X + probY Y rho Y
    + probZ Z rho Z, entry by entry. *)
Theorem densmatr_oneQubitPauliError_mixture (qureg : Qureg) (st : Store)
    (qubit : Z) (probX probY probZ : qreal) (r c : Z) :
  let n := numQubitsRepresented qureg in
  let rho := densityEntry n (st (stateVec qureg)) in
  numQubitsInStateVec qureg = 2 * n ->
  0 <= qubit < n -> 0 <= r < 2 ^ n -> 0 <= c < 2 ^ n ->
  (0 <= probX)%R -> (0 <= probY)%R -> (0 <= probZ)%R ->
  (probX + probY + probZ <= 1)%R ->
  densityEntry n
    (densmatr_oneQubitPauliError qureg qubit probX probY probZ st
       (stateVec qureg)) r c
  = cadd (cadd (cadd
       (cscale (1 - (probX + probY + probZ)) (rho r c))
       (cscale probX (conjugatedEntry pauliXMatrix qubit rho r c)))
       (cscale probY (conjugatedEntry pauliYMatrix qubit rho r c)))
       (cscale probZ (conjugatedEntry pauliZMatrix qubit rho r c)).
Proof.
  intros n rho HN Hq Hr Hc HX HY HZ Hsum.
  unfold densmatr_oneQubitPauliError.
  pose proof (applyKrausMap_entry qureg st
                (pauliErrorOps probX probY probZ) 4 qubit r c HN Hq Hr Hc)
    as Happ.
  cbv zeta in Happ. fold n in Happ. fold rho in Happ. rewrite Happ.
  rewrite pauliErrorOps_scaled. unfold krausMapEntry.
  rewrite csum_4. unfold arr_get. simpl nth.
  rewrite !conjugatedEntry_scaled, conjugatedEntry_identity by lia.
  rewrite (sqrt_sqrt probX HX), (sqrt_sqrt probY HY), (sqrt_sqrt probZ HZ).
  rewrite (sqrt_sqrt (1 - (probX + probY + probZ))) by lra.
  apply cadd_left4.
Qed.

Lemma densmatr_oneQubitPauliError_mixture_witness :
  densityEntry 1
    (densmatr_oneQubitPauliError (mkQureg true 1 2 0) 0
       (1 / 4) (1 / 4) (1 / 4)
       (fun _ => [cone; czero; czero; czero]) 0%nat) 0 0
  = cadd (cadd (cadd
       (cscale (1 - (1 / 4 + 1 / 4 + 1 / 4))
          (densityEntry 1 [cone; czero; czero; czero] 0 0))
       (cscale (1 / 4) (conjugatedEntry pauliXMatrix 0
          (densityEntry 1 [cone; czero; czero; czero]) 0 0)))
       (cscale (1 / 4) (conjugatedEntry pauliYMatrix 0
          (densityEntry 1 [cone; czero; czero; czero]) 0 0)))
       (cscale (1 / 4) (conjugatedEntry pauliZMatrix 0
          (densityEntry 1 [cone; czero; czero; czero]) 0 0)).
Proof.
  apply (densmatr_oneQubitPauliError_mixture (mkQureg true 1 2 0)
           (fun _ => [cone; czero; czero; czero]) 0
           (1 / 4)%R (1 / 4)%R (1 / 4)%R 0 0);
    simpl; lia || lra.
Defined.

End PauliMixtureEntryProofs.

(** ** More on the expectation evaluator *)

Section ExpectationKernelProofs.
Context {St : Type} `{GK : GateKernel St} `{QK : QueryKernel St}.
Local Open Scope Z_scope.

(** X21.  Whatever the kernel: on a string of Identity tags only (or an
    empty string) [statevec_calcExpecValProd] clones the register into
    the workspace, applies no operator, and returns the kernel's total
    probability of the workspace (density matrix) or the real part of
    its inner product with the register (statevector). *)
Theorem statevec_calcExpecValProd_identity_string (qureg : Qureg)
    (targetQubits : list Z) (pauliCodes : list pauliOpType) (numTargets : Z)
    (workspace : Qureg) (st : St) :
  (forall t, 0 <= t < numTargets -> arr_get pauliCodes t PAULI_I = PAULI_I) ->
  statevec_calcExpecValProd qureg targetQubits pauliCodes numTargets
    workspace st
  = ((if isDensityMatrix qureg
      then densmatr_calcTotalProb workspace
             (statevec_cloneQureg workspace qureg st)
      else real (statevec_calcInnerProduct workspace qureg
                   (statevec_cloneQureg workspace qureg st))),
     statevec_cloneQureg workspace qureg st).
Proof.
  intros Htags. unfold statevec_calcExpecValProd.
  rewrite (for_loop_ext numTargets _ (fun _ s => s)).
  - assert (Hid : for_loop numTargets (fun (_ : Z) (s : St) => s)
                    (statevec_cloneQureg workspace qureg st)
                  = statevec_cloneQureg workspace qureg st).
    { destruct (Z_lt_le_dec numTargets 0) as [Hneg | Hpos].
      - apply for_loop_nonpos. lia.
      - apply (for_loop_ind (fun _ s => s = _));
          [reflexivity | intros; assumption | exact Hpos]. }
    rewrite Hid. reflexivity.
  - intros t s Ht. rewrite (Htags t Ht). reflexivity.
Qed.

End ExpectationKernelProofs.

Lemma statevec_calcExpecValProd_identity_string_witness :
  statevec_calcExpecValProd (mkQureg false 1 1 0) [0] [PAULI_I] 1
    (mkQureg false 1 1 1) (fun _ : nat => [cone; czero])
  = (real (statevec_calcInnerProduct (mkQureg false 1 1 1)
             (mkQureg false 1 1 0)
             (statevec_cloneQureg (mkQureg false 1 1 1)
                (mkQureg false 1 1 0) (fun _ : nat => [cone; czero]))),
     statevec_cloneQureg (mkQureg false 1 1 1) (mkQureg false 1 1 0)
       (fun _ : nat => [cone; czero])).
Proof.
  apply (@statevec_calcExpecValProd_identity_string Store AmpKernel
           AmpQueries (mkQureg false 1 1 0) [0] [PAULI_I] 1
           (mkQureg false 1 1 1) (fun _ : nat => [cone; czero])).
  intros t Ht. assert (t = 0)%Z by lia. subst t. reflexivity.
Defined.

Section ExpectationSumProofs.
Local Open Scope Z_scope.

(** X22.  [statevec_calcExpecValSum] writes to the workspace only:
    every other register of the store, the input register included when
    it is not the workspace, is left as it was; with no terms the value
    is 0 and nothing is written. *)
Theorem statevec_calcExpecValSum_frame (qureg : Qureg)
    (allCodes : list pauliOpType) (termCoeffs : list qreal)
    (numSumTerms : Z) (workspace : Qureg) (st : Store) (h : nat) :
  (h <> stateVec workspace ->
   snd (statevec_calcExpecValSum qureg allCodes termCoeffs numSumTerms
          workspace st) h = st h)
  /\ (numSumTerms <= 0 ->
      statevec_calcExpecValSum qureg allCodes termCoeffs numSumTerms
        workspace st = (0%R, st)).
Proof.
  split.
  - apply statevec_calcExpecValSum_writes_workspace.
  - intros Hn. unfold statevec_calcExpecValSum.
    apply for_loop_nonpos. exact Hn.
Qed.

Lemma statevec_calcExpecValSum_frame_witness :
  snd (statevec_calcExpecValSum (mkQureg false 1 1 0) [PAULI_X] [1%R] 1
         (mkQureg false 1 1 1) (fun _ => [cone; czero])) 0%nat
  = [cone; czero].
Proof.
  apply (proj1 (statevec_calcExpecValSum_frame (mkQureg false 1 1 0)
                  [PAULI_X] [1%R] 1 (mkQureg false 1 1 1)
                  (fun _ => [cone; czero]) 0%nat)).
  simpl. discriminate.
Defined.

(** *** Fidelity *)

Lemma csum_conj (n : Z) (f : Z -> Complex) :
  csum n (fun i => getConjugateScalar (f i)) = getConjugateScalar (csum n f).
Proof.
  destruct (Z_lt_le_dec n 0) as [Hneg | Hpos].
  { rewrite !csum_nonpos by lia. complex_ring. }
  pattern n. apply natlike_ind; [ | | exact Hpos].
  - rewrite !csum_nonpos by lia. complex_ring.
  - intros m Hm IH. change (Z.succ m) with (m + 1).
    rewrite !csum_succ by lia. rewrite IH.
    symmetry. apply getConjugateScalar_cadd.
Qed.

Lemma getConjComplexProd_swap (a b : Complex) :
  getConjComplexProd b a = getConjugateScalar (getConjComplexProd a b).
Proof. complex_ring. Qed.

(** X23.  The fidelity is not negative, and for two registers of the
    same number of qubits it is symmetric: swapping the register and the
    pure state gives the same value. *)
Theorem statevec_calcFidelity_symmetric (qureg pureState : Qureg)
    (st : Store) :
  (0 <= statevec_calcFidelity qureg pureState st)%R
  /\ (numQubitsInStateVec qureg = numQubitsInStateVec pureState ->
      statevec_calcFidelity qureg pureState st
      = statevec_calcFidelity pureState qureg st).
Proof.
  unfold statevec_calcFidelity. cbv zeta. split; [nra |].
  intros HN. simpl. rewrite <- HN.
  rewrite (csum_ext _ (fun i =>
             getConjComplexProd (getAmp (st (stateVec pureState)) i)
                                (getAmp (st (stateVec qureg)) i))
             (fun i => getConjugateScalar
                (getConjComplexProd (getAmp (st (stateVec qureg)) i)
                                    (getAmp (st (stateVec pureState)) i))))
    by (intros; apply getConjComplexProd_swap).
  rewrite csum_conj. simpl. ring.
Qed.

Lemma statevec_calcFidelity_symmetric_witness :
  statevec_calcFidelity (mkQureg false 1 1 0) (mkQureg false 1 1 1)
    (fun h => if Nat.eqb h 0 then [cone; czero] else [czero; cone])
  = statevec_calcFidelity (mkQureg false 1 1 1) (mkQureg false 1 1 0)
      (fun h => if Nat.eqb h 0 then [cone; czero] else [czero; cone]).
Proof.
  apply (proj2 (statevec_calcFidelity_symmetric (mkQureg false 1 1 0)
                  (mkQureg false 1 1 1)
                  (fun h => if Nat.eqb h 0 then [cone; czero]
                            else [czero; cone]))).
  reflexivity.
Defined.

End ExpectationSumProofs.

(** ** The two-qubit builder accumulates *)

Section PopulateAccumulateProofs.
Local Open Scope Z_scope.

Lemma fold_krausStep_fields (opArr : list (list Complex))
    (qs : list (Z * Z * Z * Z)) (s : ComplexMatrixN) :
  numQubits (fold_left (fun s q =>
               mkComplexMatrixN (numQubits s) (numRows s)
                 (krausStep opArr (elems s) q)) qs s) = numQubits s
  /\ numRows (fold_left (fun s q =>
               mkComplexMatrixN (numQubits s) (numRows s)
                 (krausStep opArr (elems s) q)) qs s) = numRows s.
Proof.
  revert s. induction qs as [| q qs IH]; intros s; simpl.
  - split; reflexivity.
  - destruct (IH (mkComplexMatrixN (numQubits s) (numRows s)
                    (krausStep opArr (elems s) q))) as [Hq Hr].
    simpl in Hq, Hr. split; assumption.
Qed.

(** X24.  [populateTwoQubitKrausSuperoperator] adds to what [superOp]
    holds and does not reset it: on a 16 x 16 array, the element at row
    i*4+k and column j*4+l ends as its initial value plus, for each
    operator in turn, conj(K_n[i][j]) * K_n[k][l]; the dimensions of
    [superOp] are kept. *)
Theorem populateTwoQubitKrausSuperoperator_accumulates
    (superOp : ComplexMatrixN) (ops : list ComplexMatrix4)
    (numOps i j k l : Z) :
  squareOf 16 (elems superOp) -> 0 <= numOps ->
  0 <= i < 4 -> 0 <= j < 4 -> 0 <= k < 4 -> 0 <= l < 4 ->
  elem_get (elems (populateTwoQubitKrausSuperoperator superOp ops numOps))
    (i * 4 + k) (j * 4 + l)
  = for_loop numOps (fun n acc =>
      cadd acc (cmul (getConjugateScalar
                        (mat4_get (arr_get ops n zeroMatrix4) i j))
                     (mat4_get (arr_get ops n zeroMatrix4) k l)))
      (elem_get (elems superOp) (i * 4 + k) (j * 4 + l))
  /\ squareOf 16
       (elems (populateTwoQubitKrausSuperoperator superOp ops numOps))
  /\ numQubits (populateTwoQubitKrausSuperoperator superOp ops numOps)
     = numQubits superOp
  /\ numRows (populateTwoQubitKrausSuperoperator superOp ops numOps)
     = numRows superOp.
Proof.
  intros Hsq Hn Hi Hj Hk Hl. rewrite populate_as_fold.
  set (step := fun (n : Z) (superOp : ComplexMatrixN) =>
         fold_left (fun s q =>
           mkComplexMatrixN (numQubits s) (numRows s)
             (krausStep (opArr4 (arr_get ops n zeroMatrix4)) (elems s) q))
           quads superOp).
  enough (H : squareOf 16 (elems (for_loop numOps step superOp))
              /\ numQubits (for_loop numOps step superOp) = numQubits superOp
              /\ numRows (for_loop numOps step superOp) = numRows superOp
              /\ forall i j k l,
                0 <= i < 4 -> 0 <= j < 4 -> 0 <= k < 4 -> 0 <= l < 4 ->
                elem_get (elems (for_loop numOps step superOp))
                  (i * 4 + k) (j * 4 + l)
                = for_loop numOps (fun n acc =>
                    cadd acc (cmul (getConjugateScalar
                                      (mat4_get (arr_get ops n zeroMatrix4) i j))
                                   (mat4_get (arr_get ops n zeroMatrix4) k l)))
                    (elem_get (elems superOp) (i * 4 + k) (j * 4 + l))).
  { destruct H as [H1 [H2 [H3 H4]]].
    split; [apply H4; assumption |]. split; [exact H1 |].
    split; assumption. }
  clear i j k l Hi Hj Hk Hl. pattern numOps.
  apply natlike_ind; [ | | exact Hn].
  - rewrite for_loop_nonpos by lia.
    split; [exact Hsq |]. split; [reflexivity |]. split; [reflexivity |].
    intros i j k l _ _ _ _. rewrite for_loop_nonpos by lia. reflexivity.
  - intros n Hn' [IHsq [IHq [IHr IH]]]. change (Z.succ n) with (n + 1).
    rewrite for_loop_succ by lia.
    set (s := for_loop n step superOp) in *. unfold step.
    destruct (fold_krausStep_fields (opArr4 (arr_get ops n zeroMatrix4))
                quads s) as [Hq Hr].
    rewrite Hq, Hr, elems_fold_krausStep.
    split; [apply (krausPass_entry _ _ 0 0 0 0 IHsq); lia |].
    split; [exact IHq |]. split; [exact IHr |].
    intros i j k l Hi Hj Hk Hl.
    rewrite for_loop_succ by lia. rewrite <- (IH i j k l Hi Hj Hk Hl).
    destruct (krausPass_entry (opArr4 (arr_get ops n zeroMatrix4)) (elems s)
                i j k l IHsq Hi Hj Hk Hl) as [_ Hget].
    rewrite Hget. unfold mat4_get. apply addConjComplexProd_spec.
Qed.

Lemma populateTwoQubitKrausSuperoperator_accumulates_witness :
  elem_get (elems (populateTwoQubitKrausSuperoperator zeroSuperOp16
                     [swapMatrix] 1)) (1 * 4 + 2) (2 * 4 + 1)
  = for_loop 1 (fun n acc =>
      cadd acc (cmul (getConjugateScalar
                        (mat4_get (arr_get [swapMatrix] n zeroMatrix4) 1 2))
                     (mat4_get (arr_get [swapMatrix] n zeroMatrix4) 2 1)))
      (elem_get (elems zeroSuperOp16) (1 * 4 + 2) (2 * 4 + 1))
  /\ numRows (populateTwoQubitKrausSuperoperator zeroSuperOp16
                [swapMatrix] 1)
     = numRows zeroSuperOp16.
Proof.
  destruct (populateTwoQubitKrausSuperoperator_accumulates zeroSuperOp16
              [swapMatrix] 1 1 2 2 1) as [He [_ [_ Hr]]];
    try lia; [apply zeroSuperOp16_square |].
  split; [exact He | exact Hr].
Defined.

End PopulateAccumulateProofs.

(** ** More on the rotation codec *)

Section RotationCodecMoreProofs.
Local Open Scope R_scope.

Lemma rotation_pair_norm (angle : qreal) (axis : Vector) :
  x axis <> 0 \/ y axis <> 0 \/ z axis <> 0 ->
  cnorm2 (fst (getComplexPairFromRotation angle axis))
  + cnorm2 (snd (getComplexPairFromRotation angle axis)) = 1.
Proof.
  intros H. pose proof (getUnitVector_unit axis H) as Hu.
  cbv zeta in Hu. unfold getComplexPairFromRotation. cbv zeta.
  set (a := getUnitVector axis) in *. clearbody a.
  unfold cnorm2. simpl.
  pose proof (sin2_cos2 (angle / 2)) as Hsc. unfold Rsqr in Hsc.
  set (s := sin (angle / 2)) in *. set (c := cos (angle / 2)) in *.
  transitivity (c * c + s * s * (x a * x a + y a * y a + z a * z a)).
  - ring.
  - rewrite Hu. lra.
Qed.

Lemma compactMatrix_unitary (alpha beta : Complex) :
  cnorm2 alpha + cnorm2 beta = 1 -> isUnitary2 (compactMatrix alpha beta).
Proof.
  intros Hn. destruct alpha as [ar ai], beta as [br bi].
  unfold cnorm2 in Hn. simpl in Hn.
  unfold isUnitary2, mat2_mul, mat2_dagger, compactMatrix, identity2,
    getConjugateScalar, copp, cadd, cmul, cone, czero. simpl.
  apply mat2_ext; apply complex_eq; simpl; nra.
Qed.

(** X25.  Encoding a rotation and decoding the pair gives the rotation
    back: for an axis that is not the zero vector, the ZYZ angles of the
    pair of (angle, axis) satisfy Rz(rz2) Ry(ry) Rz(rz1) = the operator
    of the rotation, and that operator is unitary. *)
Theorem rotation_encode_decode (angle : qreal) (axis : Vector) :
  x axis <> 0 \/ y axis <> 0 \/ z axis <> 0 ->
  let '(alpha, beta) := getComplexPairFromRotation angle axis in
  let '(rz2, ry, rz1) := getZYZRotAnglesFromComplexPair alpha beta in
  mat2_mul (Rz rz2) (mat2_mul (Ry ry) (Rz rz1)) = rotationMatrix angle axis
  /\ isUnitary2 (rotationMatrix angle axis).
Proof.
  intros Hax. pose proof (rotation_pair_norm angle axis Hax) as Hn.
  unfold rotationMatrix.
  destruct (getComplexPairFromRotation angle axis) as [alpha beta].
  simpl in Hn.
  pose proof (getZYZRotAnglesFromComplexPair_exact alpha beta Hn) as Hex.
  destruct (getZYZRotAnglesFromComplexPair alpha beta) as [[rz2 ry] rz1].
  split; [exact Hex | apply compactMatrix_unitary; exact Hn].
Qed.

Lemma rotation_encode_decode_witness :
  let '(alpha, beta) := getComplexPairFromRotation PI (mkVector 0 0 2) in
  let '(rz2, ry, rz1) := getZYZRotAnglesFromComplexPair alpha beta in
  mat2_mul (Rz rz2) (mat2_mul (Ry ry) (Rz rz1))
  = rotationMatrix PI (mkVector 0 0 2)
  /\ isUnitary2 (rotationMatrix PI (mkVector 0 0 2)).
Proof.
  apply (rotation_encode_decode PI (mkVector 0 0 2)).
  right. right. simpl. lra.
Defined.

(** X26.  For a unitary U the pair of the factorization has
    |alpha|^2 + |beta|^2 = 1, and when U00 is not 0 the reconstruction
    exp(i globalPhase) [[alpha, -conj(beta)], [beta, conj(alpha)]] is
    U. *)
Theorem getComplexPairAndPhaseFromUnitary_unitary (u : ComplexMatrix2) :
  isUnitary2 u ->
  let '(alpha, beta, globalPhase) := getComplexPairAndPhaseFromUnitary u in
  cnorm2 alpha + cnorm2 beta = 1
  /\ (r0c0 u <> czero -> reconstructUnitary alpha beta globalPhase = u).
Proof.
  intros Hu.
  pose proof (getComplexPairAndPhaseFromUnitary_roundtrip u Hu) as Hrt.
  unfold getComplexPairAndPhaseFromUnitary in *. cbv zeta in *.
  split; [| exact Hrt].
  unfold isUnitary2, mat2_mul, mat2_dagger, identity2 in Hu.
  destruct u as [[ar ai] [br bi] [cr ci] [dr di]].
  unfold cone, czero, cadd, cmul, getConjugateScalar in Hu. simpl in Hu.
  injection Hu as H00r H00i H01r H01i H10r H10i H11r H11i.
  unfold cnorm2. simpl.
  match goal with
  | |- context [cos ?p] => set (phi := p)
  end.
  pose proof (sin2_cos2 phi) as Hsc. unfold Rsqr in Hsc.
  set (c := cos phi) in *. set (s := sin phi) in *.
  transitivity ((ar * ar + ai * ai + (cr * cr + ci * ci))
                * (s * s + c * c)); [ring |].
  rewrite Hsc. lra.
Qed.

Lemma getComplexPairAndPhaseFromUnitary_unitary_witness :
  let '(alpha, beta, globalPhase) :=
    getComplexPairAndPhaseFromUnitary identity2 in
  cnorm2 alpha + cnorm2 beta = 1
  /\ reconstructUnitary alpha beta globalPhase = identity2.
Proof.
  assert (Hu : isUnitary2 identity2).
  { unfold isUnitary2, mat2_mul, mat2_dagger, identity2. simpl.
    apply mat2_ext; complex_ring. }
  pose proof (getComplexPairAndPhaseFromUnitary_unitary identity2 Hu) as S.
  destruct (getComplexPairAndPhaseFromUnitary identity2) as [[al be] g].
  destruct S as [S1 S2]. split; [exact S1 |].
  apply S2. unfold identity2, cone, czero. simpl.
  intros H. injection H as H. lra.
Defined.

(** X27.  Only the direction of the axis matters: scaling the axis by a
    positive factor gives the same pair. *)
Theorem getComplexPairFromRotation_scale (angle k : qreal) (axis : Vector) :
  0 < k -> x axis <> 0 \/ y axis <> 0 \/ z axis <> 0 ->
  getComplexPairFromRotation angle
    (mkVector (k * x axis) (k * y axis) (k * z axis))
  = getComplexPairFromRotation angle axis.
Proof.
  intros Hk Hax. pose proof (magnitude_pos axis Hax) as Hm.
  assert (Hmag : getVectorMagnitude
                   (mkVector (k * x axis) (k * y axis) (k * z axis))
                 = k * getVectorMagnitude axis).
  { unfold getVectorMagnitude. simpl.
    replace (k * x axis * (k * x axis) + k * y axis * (k * y axis)
             + k * z axis * (k * z axis))
      with (k * k * (x axis * x axis + y axis * y axis + z axis * z axis))
      by ring.
    rewrite sqrt_mult by nra. rewrite sqrt_square by lra. reflexivity. }
  unfold getComplexPairFromRotation, getUnitVector. cbv zeta.
  rewrite Hmag. simpl.
  set (m := getVectorMagnitude axis) in *.
  f_equal; apply complex_eq; simpl; field; lra.
Qed.

Lemma getComplexPairFromRotation_scale_witness :
  getComplexPairFromRotation PI (mkVector (2 * 0) (2 * 0) (2 * 1))
  = getComplexPairFromRotation PI (mkVector 0 0 1).
Proof.
  apply (getComplexPairFromRotation_scale PI 2 (mkVector 0 0 1)).
  - lra.
  - right. right. simpl. lra.
Defined.

End RotationCodecMoreProofs.
